(** * Point-cloud mobjects

    A shallow embedding of [manim/mobject/types/point_cloud_mobject.py]:
    the classes [PMobject], [Mobject1D], [PGroup], [PointCloudDot] and
    [Point], with the numpy and colour helpers they call.

    Conventions.
    - A float64 is modelled by the rational number it denotes ([Qc], the
      canonical rationals, so that equal numbers are equal terms).  The
      sampling of [add_line] is computed as numpy computes it, every
      operation rounding its exact result to binary64 ([round64]); the
      other operations are computed exactly.  The two non-finite values
      numpy produces instead of raising are modelled where they arise
      ([npfloat]).
    - A numpy array of shape (N,3) or (N,4) is a list of rows.
    - A method that mutates [self] is a function from the state before the
      call to an [outcome]: the state when the call returns, or the
      exception together with the state at the moment it is raised.
    - Objects are owned trees: a mobject is not its own descendant and no
      node occurs twice in a family. *)

From Stdlib Require Import String List ZArith QArith Qcanon Qround Lia Lqa Bool.
From Stdlib Require Import Permutation Sorted.
From Stdlib Require Floats.
Import ListNotations.

Local Open Scope Qc_scope.

(** ** Exceptions and outcomes *)

Inductive exn : Type :=
| Exception (msg : string)
| Warning (msg : string)
| IndexError
| ValueError
| TypeError
| ZeroDivisionError
| OverflowError.

(** The result of calling a mutating method on a state of type [S]. *)
Inductive outcome (S : Type) : Type :=
| Returns (s : S)
| Raises (e : exn) (s : S).

Arguments Returns {S} s.
Arguments Raises {S} e s.

Definition final_state {S : Type} (o : outcome S) : S :=
  match o with
  | Returns s => s
  | Raises _ s => s
  end.

Definition returns {S : Type} (o : outcome S) : bool :=
  match o with
  | Returns _ => true
  | Raises _ _ => false
  end.

(** Sequencing of two mutations of the same object. *)
Definition and_then {S : Type} (o : outcome S) (k : S -> outcome S) : outcome S :=
  match o with
  | Returns s => k s
  | Raises e s => Raises e s
  end.

(** A Python [for] loop that mutates the elements of a list of objects in
    turn; an exception leaves the later elements untouched. *)
Definition for_each {A : Type} (body : A -> outcome A) : list A -> outcome (list A) :=
  fix loop (l : list A) : outcome (list A) :=
    match l with
    | [] => Returns []
    | x :: rest =>
        match body x with
        | Raises e x' => Raises e (x' :: rest)
        | Returns x' =>
            match loop rest with
            | Raises e rest' => Raises e (x' :: rest')
            | Returns rest' => Returns (x' :: rest')
            end
        end
    end.

(** Pure computations that may raise. *)
Definition try_bind {A B : Type} (x : exn + A) (k : A -> exn + B) : exn + B :=
  match x with
  | inl e => inl e
  | inr a => k a
  end.

(** ** Numbers *)

Definition Qc_of_Z (z : Z) : Qc := Q2Qc (inject_Z z).
Definition Qc_of_nat (n : nat) : Qc := Qc_of_Z (Z.of_nat n).

Definition Qc_eqb (a b : Qc) : bool := if Qc_eq_dec a b then true else false.
Definition Qc_ltb (a b : Qc) : bool := if Qclt_le_dec a b then true else false.

(** Python's [int(x)] on a float: truncation towards zero. *)
Definition py_int (x : Qc) : Z :=
  if Qc_ltb x 0 then Qceiling x else Qfloor x.

(** A Python number as an index expression sees it: an [int] or a [float]. *)
Inductive pynum : Type :=
| PyInt (z : Z)
| PyFloat (q : Qc).

Definition pynum_mul_int (a : pynum) (n : Z) : pynum :=
  match a with
  | PyInt z => PyInt (z * n)
  | PyFloat q => PyFloat (q * Qc_of_Z n)
  end.

(** Division of two Python floats raises on a zero divisor. *)
Definition py_true_divide (a b : Qc) : exn + Qc :=
  if Qc_eqb b 0 then inl ZeroDivisionError else inr (a / b).

(** A numpy float64: division by a numpy zero does not raise, it gives
    an infinity or nan (with a RuntimeWarning). *)
Inductive npfloat : Type :=
| Fin (q : Qc)
| PInf
| NInf
| NaN.

Definition np_true_divide (a b : Qc) : npfloat :=
  if Qc_eqb b 0 then
    if Qc_eqb a 0 then NaN else if Qc_ltb 0 a then PInf else NInf
  else Fin (a / b).

(** [np.arange(start, stop, step)] on floats: [ceil((stop - start) / step)]
    values [start + i * step]. *)
Definition arange_values (start step : Qc) (n : nat) : list Qc :=
  map (fun i => start + Qc_of_nat i * step) (seq 0 n).

Definition np_arange (start stop : Qc) (step : npfloat) : exn + list Qc :=
  match step with
  | Fin q =>
      if Qc_eqb q 0 then inl ZeroDivisionError
      else inr (arange_values start q (Z.to_nat (Qceiling ((stop - start) / q)%Qc)))
  | PInf => inr (if Qc_ltb start stop then [start] else [])
  | NInf => inr (if Qc_ltb stop start then [start] else [])
  | NaN => inl ValueError
  end.

(** [np.arange(0, stop, step)] on ints. *)
Definition np_arange_int (stop step : Z) : exn + list Z :=
  if (step =? 0)%Z then inl ZeroDivisionError
  else
    let n := if (0 <? step)%Z then ((stop + step - 1) / step)%Z
             else ((stop + step + 1) / step)%Z in
    inr (map (fun i => (Z.of_nat i * step)%Z) (seq 0 (Z.to_nat n))).

(** ** binary64

    The binary64 value nearest to a rational, ties going to the even
    mantissa: a mantissa of 53 bits at the exponent of the rational when
    it is in the normal range (from [2^-1022]), a multiple of [2^-1074]
    below it.  [round64] keeps a result beyond the largest binary64 value
    finite; [float64_of] tells it apart as an infinity, where the code
    goes on with it (the step of [add_line]). *)

Definition pow2 (z : Z) : Qc :=
  if (z <? 0)%Z then / Qc_of_Z (2 ^ (- z)) else Qc_of_Z (2 ^ z).

(** The binary exponent of a positive rational [q]: the [e] with
    [2^e <= q < 2^(e+1)]. *)
Definition ilog2 (q : Qc) : Z :=
  let k := (Z.log2 (Qnum q) - Z.log2 (Zpos (Qden q)))%Z in
  if Qc_ltb q (pow2 k) then (k - 1)%Z else k.

Definition round_half_even (x : Qc) : Z :=
  let f := Qfloor x in
  match Qccompare (x - Qc_of_Z f) (Q2Qc (1 # 2)) with
  | Lt => f
  | Gt => (f + 1)%Z
  | Eq => if Z.even f then f else (f + 1)%Z
  end.

(** The exponent of the unit in the last place. *)
Definition ulp_exponent (q : Qc) : Z :=
  (Z.max (ilog2 q) (-1022) - 52)%Z.

Definition round_pos (q : Qc) : Qc :=
  let u := ulp_exponent q in
  Qc_of_Z (round_half_even (q / pow2 u)) * pow2 u.

Definition round64 (q : Qc) : Qc :=
  if Qc_eqb q 0 then 0
  else if Qc_ltb 0 q then round_pos q else - round_pos (- q).

Definition is_float64 (q : Qc) : Prop := round64 q = q.

(** The float64 result of an operation whose exact result is [q]: an
    infinity from [2^1024] on. *)
Definition float64_of (q : Qc) : npfloat :=
  let r := round64 q in
  if Qc_ltb r (pow2 1024) then
    if Qc_ltb (- pow2 1024) r then Fin r else NInf
  else PInf.

(** Division of two numpy float64 values. *)
Definition np_true_divide64 (a b : Qc) : npfloat :=
  if Qc_eqb b 0 then
    if Qc_eqb a 0 then NaN else if Qc_ltb 0 a then PInf else NInf
  else float64_of (a / b).

(** The length of [np.arange(start, stop, step)] for a float64 step, from
    [delta = stop - start]: the float64 quotient [delta / step] rounded
    up; a quotient that underflows to zero gives one entry when it is
    positive, none when it is negative; a length beyond the range of an
    index is refused. *)
Definition arange_length64 (delta step : Qc) : exn + nat :=
  let tmp_len := round64 (delta / step) in
  if Qc_eqb tmp_len 0 then inr (if Qc_ltb 0 (delta / step) then 1 else 0)%nat
  else if Qc_ltb (- pow2 63) tmp_len && Qc_ltb tmp_len (pow2 63)
       then inr (Z.to_nat (Qceiling tmp_len))
       else inl OverflowError.

(** The entries: the first two are [start] and [start + step], and entry
    [i] is [start + i * delta] for the difference [delta] of the first
    two, every operation in float64. *)
Definition arange_values64 (start step : Qc) (n : nat) : list Qc :=
  let next := round64 (start + step) in
  let delta := round64 (next - start) in
  map (fun i => match i with
                | O => start
                | S O => next
                | _ => round64 (start + round64 (round64 (Qc_of_nat i) * delta))
                end)
      (seq 0 n).

(** [np.arange(start, stop, step)] with a numpy float64 step. *)
Definition np_arange64 (start stop : Qc) (step : npfloat) : exn + list Qc :=
  let delta := round64 (stop - start) in
  match step with
  | Fin q =>
      if Qc_eqb q 0 then
        inl (if Qc_eqb delta 0 then ValueError else OverflowError)
      else try_bind (arange_length64 delta q)
             (fun n => inr (arange_values64 start q n))
  | PInf => inr (if Qc_ltb 0 delta then [start] else [])
  | NInf => inr (if Qc_ltb delta 0 then [start] else [])
  | NaN => inl ValueError
  end.

(** The primitive floats of the kernel are binary64: the rational one of
    them denotes, and the float of a natural number, serve to compare
    [round64] with them on given numbers. *)
Definition binary64_value (x : PrimFloat.float) : Qc :=
  match FloatOps.Prim2SF x with
  | SpecFloat.S754_finite s m e =>
      (if s then - Qc_of_Z (Zpos m) else Qc_of_Z (Zpos m)) * pow2 e
  | _ => 0
  end.

Definition binary64_of_nat (n : nat) : PrimFloat.float :=
  match n with
  | O => FloatOps.SF2Prim (SpecFloat.S754_zero false)
  | S _ => FloatOps.SF2Prim (SpecFloat.S754_finite false (Pos.of_nat n) 0)
  end.

Definition Qc_list_eqb (a b : list Qc) : bool :=
  (length a =? length b)%nat &&
  forallb (fun xy => Qc_eqb (fst xy) (snd xy)) (combine a b).

(** ** numpy indexing *)

Section Indexing.
Context {A : Type}.

(** [arr[i]] for an int [i]: negative indices count from the end. *)
Definition index_at (arr : list A) (i : Z) : exn + A :=
  let n := Z.of_nat (length arr) in
  let j := if (i <? 0)%Z then (i + n)%Z else i in
  if ((0 <=? j) && (j <? n))%Z then
    match nth_error arr (Z.to_nat j) with
    | Some x => inr x
    | None => inl IndexError
    end
  else inl IndexError.

(** [arr[i]] for a Python number: a float is not a valid index. *)
Definition getitem (arr : list A) (i : pynum) : exn + A :=
  match i with
  | PyInt z => index_at arr z
  | PyFloat _ => inl IndexError
  end.

(** [arr[indices]] for an array of ints. *)
Fixpoint take (arr : list A) (indices : list Z) : exn + list A :=
  match indices with
  | [] => inr []
  | i :: rest =>
      try_bind (index_at arr i) (fun x =>
      try_bind (take arr rest) (fun xs => inr (x :: xs)))
  end.

(** [arr[mask]] for a boolean array of the same length. *)
Fixpoint select (arr : list A) (mask : list bool) : list A :=
  match arr, mask with
  | x :: arr', b :: mask' =>
      if b then x :: select arr' mask' else select arr' mask'
  | _, _ => []
  end.

Definition mask_select (arr : list A) (mask : list bool) : exn + list A :=
  if (length mask =? length arr)%nat then inr (select arr mask)
  else inl IndexError.

(** [arr[lower:upper]]: Python's slice, out-of-range bounds are clipped. *)
Definition clip_index (n i : Z) : Z :=
  if (i <? 0)%Z then Z.max 0 (i + n) else Z.min i n.

Definition py_slice (arr : list A) (lower upper : Z) : list A :=
  let n := Z.of_nat (length arr) in
  let lo := clip_index n lower in
  let hi := clip_index n upper in
  firstn (Z.to_nat (hi - lo)) (skipn (Z.to_nat lo) arr).
End Indexing.

(** ** Points, colours and interpolation *)

Record point : Type := mkPoint { px : Qc; py : Qc; pz : Qc }.

Definition ORIGIN : point := mkPoint 0 0 0.

Definition point_sub (p q : point) : point :=
  mkPoint (px p - px q) (py p - py q) (pz p - pz q).

(** The difference of two arrays of float64 coordinates. *)
Definition point_sub64 (p q : point) : point :=
  mkPoint (round64 (px p - px q)) (round64 (py p - py q))
          (round64 (pz p - pz q)).

(** A point whose coordinates are binary64 values. *)
Definition float64_point (p : point) : Prop :=
  is_float64 (px p) /\ is_float64 (py p) /\ is_float64 (pz p).

Definition point_eqb (p q : point) : bool :=
  Qc_eqb (px p) (px q) && Qc_eqb (py p) (py q) && Qc_eqb (pz p) (pz q).

Record rgba : Type := mkRgba { red : Qc; green : Qc; blue : Qc; opacity : Qc }.

(** Modelled from the spec: [interpolate] of utils/bezier.py, the spec's
    [lerp(a, b, t)], defined on scalars, on RGBA rows and on coordinates. *)
Class Interpolable (A : Type) : Type :=
  interpolate : A -> A -> Qc -> A.

#[export] Instance interpolate_scalar : Interpolable Qc :=
  fun a b t => (1 - t) * a + t * b.

#[export] Instance interpolate_point : Interpolable point :=
  fun a b t =>
    mkPoint (interpolate (px a) (px b) t)
            (interpolate (py a) (py b) t)
            (interpolate (pz a) (pz b) t).

#[export] Instance interpolate_rgba : Interpolable rgba :=
  fun a b t =>
    mkRgba (interpolate (red a) (red b) t)
           (interpolate (green a) (green b) t)
           (interpolate (blue a) (blue b) t)
           (interpolate (opacity a) (opacity b) t).

(** Modelled from the spec: the same [interpolate] on float64
    coordinates, as numpy evaluates [(1 - t) * a + t * b]: the difference,
    the two products and the sum are each rounded. *)
Definition interpolate64_scalar (a b t : Qc) : Qc :=
  round64 (round64 (round64 (1 - t) * a) + round64 (t * b)).

Definition interpolate64 (a b : point) (t : Qc) : point :=
  mkPoint (interpolate64_scalar (px a) (px b) t)
          (interpolate64_scalar (py a) (py b) t)
          (interpolate64_scalar (pz a) (pz b) t).

(** [interpolate] on two arrays of rows: elementwise, with numpy's
    broadcasting of an array of one row, a ValueError on other shapes. *)
Definition interpolate_arrays {A : Type} `{Interpolable A}
    (a b : list A) (t : Qc) : exn + list A :=
  if (length a =? length b)%nat then
    inr (map (fun xy => interpolate (fst xy) (snd xy) t) (combine a b))
  else
    match a, b with
    | [x], _ => inr (map (fun y => interpolate x y t) b)
    | _, [y] => inr (map (fun x => interpolate x y t) a)
    | _, _ => inl ValueError
    end.

(** Modelled from the spec: [stretch_array_to_length] of utils/iterables.py.
    The result has [len] entries, entry [i] is the entry of [arr] at index
    [i * len(arr) / len] rounded down, so that order and both ends are kept
    and an array of one entry is repeated; a shorter target is refused. *)
Definition stretch_array_to_length {A : Type} (arr : list A) (len : nat)
    : exn + list A :=
  let curr_len := length arr in
  if (len <? curr_len)%nat then
    inl (Warning "Trying to stretch array to a length shorter than its own")
  else
    take arr (map (fun i => Z.of_nat (i * curr_len / len)) (seq 0 len)).

(** [np.argsort] on an array of keys; ties keep their order. *)
Fixpoint insert_key (k : Qc) (i : Z) (l : list (Qc * Z)) : list (Qc * Z) :=
  match l with
  | [] => [(k, i)]
  | (k', i') :: rest =>
      if Qc_ltb k' k then (k', i') :: insert_key k i rest
      else (k, i) :: l
  end.

Definition np_argsort (keys : list Qc) : list Z :=
  map snd
    (fold_right (fun ki acc => insert_key (fst ki) (snd ki) acc) []
       (combine keys (map Z.of_nat (seq 0 (length keys))))).

(** The colour helpers the module imports ([colour.Color] and
    utils/color.py).  [color_gradient colors n] is a sequence of [n]
    colours. *)
Class ColourOps : Type := {
  colour : Type;
  Color : colour -> colour;
  color_to_rgba : colour -> Qc -> rgba;
  rgba_to_color : rgba -> colour;
  color_gradient : list colour -> nat -> list colour;
  color_gradient_length :
    forall (colors : list colour) (n : nat),
      length (color_gradient colors n) = n
}.

(** The numeric helpers: [get_norm] of utils/space_ops.py and numpy's
    [cos], [sin] and [pi]. *)
Class SpaceOps : Type := {
  get_norm : point -> Qc;
  np_cos : Qc -> Qc;
  np_sin : Qc -> Qc;
  np_pi : Qc
}.

(** ** The point-cloud classes *)

Section Model.
Context `{ColourOps} `{SpaceOps}.

(** *** PMobject *)

#[local] Unset Elimination Schemes.

Inductive PMobject : Type := mkPMobject {
  points : list point;
  rgbas : list rgba;
  color : colour;
  stroke_width : Qc;
  submobjects : list PMobject
}.

#[local] Set Elimination Schemes.

(** Induction on the tree of submobjects. *)
Fixpoint PMobject_tree_ind (P : PMobject -> Prop)
    (step : forall ps cs c w subs,
        Forall P subs -> P (mkPMobject ps cs c w subs))
    (m : PMobject) : P m :=
  match m with
  | mkPMobject ps cs c w subs =>
      step ps cs c w subs
        ((fix all (l : list PMobject) : Forall P l :=
            match l with
            | [] => Forall_nil P
            | x :: rest =>
                Forall_cons x (PMobject_tree_ind P step x) (all rest)
            end) subs)
  end.

Definition set_points (m : PMobject) (ps : list point) : PMobject :=
  mkPMobject ps (rgbas m) (color m) (stroke_width m) (submobjects m).
Definition set_rgbas (m : PMobject) (cs : list rgba) : PMobject :=
  mkPMobject (points m) cs (color m) (stroke_width m) (submobjects m).
Definition set_color_attr (m : PMobject) (c : colour) : PMobject :=
  mkPMobject (points m) (rgbas m) c (stroke_width m) (submobjects m).
Definition set_stroke_width_attr (m : PMobject) (w : Qc) : PMobject :=
  mkPMobject (points m) (rgbas m) (color m) w (submobjects m).
Definition set_submobjects (m : PMobject) (subs : list PMobject) : PMobject :=
  mkPMobject (points m) (rgbas m) (color m) (stroke_width m) subs.

(** Modelled from the spec: [Mobject.get_num_points], the number of
    points of the node itself. *)
Definition get_num_points (m : PMobject) : nat := length (points m).

Definition has_points (m : PMobject) : bool := (0 <? get_num_points m)%nat.

(** Modelled from the spec: [Mobject.get_family], the node followed by
    all its descendants, depth first. *)
Fixpoint get_family (m : PMobject) : list PMobject :=
  m :: flat_map get_family (submobjects m).

(** Modelled from the spec: [Mobject.family_members_with_points]. *)
Definition family_members_with_points (m : PMobject) : list PMobject :=
  filter has_points (get_family m).

(** [for mob in self.family_members_with_points(): body(mob)], where
    [body] mutates the attributes of [mob] itself: the members are
    visited in family order, those without points are skipped, and an
    exception stops the loop. *)
Fixpoint for_family (body : PMobject -> outcome PMobject) (m : PMobject)
    : outcome PMobject :=
  match (if has_points m then body m else Returns m) with
  | Raises e m' => Raises e (set_submobjects m' (submobjects m))
  | Returns m' =>
      match for_each (for_family body) (submobjects m) with
      | Raises e subs => Raises e (set_submobjects m' subs)
      | Returns subs => Returns (set_submobjects m' subs)
      end
  end.

(** Modelled from the spec: [Mobject.apply_over_attr_arrays], which
    replaces each per-point array by its image under [func], in the
    order of [get_array_attrs]: [points], then [rgbas]. *)
Definition apply_over_attr_arrays
    (func : forall A : Type, list A -> exn + list A) (m : PMobject)
    : outcome PMobject :=
  match func point (points m) with
  | inl e => Raises e m
  | inr ps =>
      let m1 := set_points m ps in
      match func rgba (rgbas m1) with
      | inl e => Raises e m1
      | inr cs => Returns (set_rgbas m1 cs)
      end
  end.

(** A function on arrays whose success and result length depend on the
    length of the array only. *)
Definition length_uniform (func : forall A : Type, list A -> exn + list A) : Prop :=
  forall (A B : Type) (a : list A) (b : list B),
    length a = length b ->
    match func A a, func B b with
    | inr a', inr b' => length a' = length b'
    | inl _, inl _ => True
    | _, _ => False
    end.

(** Modelled from the spec: [Mobject.get_merged_array], the node's array
    followed by the merged arrays of its children, depth first. *)
Fixpoint get_merged_array {A : Type} (attr : PMobject -> list A)
    (m : PMobject) : list A :=
  attr m ++ flat_map (get_merged_array attr) (submobjects m).

Definition reset_points (self : PMobject) : outcome PMobject :=
  let self := set_rgbas self [] in
  let self := set_points self [] in
  Returns self.

(** [rgbas = None] is an omitted argument; [color = None] likewise, and
    every colour value (a non-empty name or hex string, a [Color]) is
    true in Python, so that [if color] tests for [None]. *)
Definition add_points (new_points : list point) (new_rgbas : option (list rgba))
    (new_color : option colour) (alpha : Qc) (self : PMobject)
    : outcome PMobject :=
  let num_new_points := length new_points in
  let self := set_points self (points self ++ new_points) in
  match new_rgbas with
  | None =>
      let c := match new_color with
               | Some c => Color c
               | None => color self
               end in
      let cs := repeat (color_to_rgba c alpha) num_new_points in
      Returns (set_rgbas self (rgbas self ++ cs))
  | Some cs =>
      if negb (length cs =? length new_points)%nat then
        Raises (Exception "points and rgbas must have same shape") self
      else Returns (set_rgbas self (rgbas self ++ cs))
  end.

(** [add_points] handed a Python list of rows and no [rgbas], as
    [add_line] and [generate_points] call it.  numpy turns an empty list
    into an array of one dimension, which [np.append] along axis 0
    refuses to join to the array of rows: ValueError, before anything is
    assigned. *)
Definition add_points_of_list (new_points : list point)
    (new_color : option colour) (alpha : Qc) (self : PMobject)
    : outcome PMobject :=
  match new_points with
  | [] => Raises ValueError self
  | _ :: _ => add_points new_points None new_color alpha self
  end.

(** [mob.rgbas[:, :] = rgba] overwrites every row in place. *)
Definition fill_rgbas (c : rgba) (mob : PMobject) : PMobject :=
  set_rgbas mob (map (fun _ => c) (rgbas mob)).

Definition set_color (c : colour) (family : bool) (self : PMobject)
    : outcome PMobject :=
  let c_rgba := color_to_rgba c 1 in
  let body mob := Returns (fill_rgbas c_rgba mob) in
  and_then (if family then for_family body self else body self)
    (fun self => Returns (set_color_attr self c)).

Definition get_stroke_width (self : PMobject) : Qc := stroke_width self.

Definition set_stroke_width (width : Qc) (family : bool) (self : PMobject)
    : outcome PMobject :=
  let body mob := Returns (set_stroke_width_attr mob width) in
  if family then for_family body self else body self.

(** Only the reachable part: the code after the first [return] is dead. *)
Definition set_color_by_gradient (colors : list colour) (self : PMobject)
    : outcome PMobject :=
  Returns
    (set_rgbas self
       (map (fun c => color_to_rgba c 1)
          (color_gradient colors (length (points self))))).

Definition align_points_with_larger (larger_mobject : PMobject)
    (self : PMobject) : outcome PMobject :=
  apply_over_attr_arrays
    (fun A a => stretch_array_to_length a (get_num_points larger_mobject))
    self.

(** Modelled from the spec: [Mobject.align_data], which brings the
    arrays of the two nodes to the same length by stretching those of
    the node that has fewer points.  The state is the pair of [self]
    and [mobject]. *)
Definition Mobject_align_data (self_mobject : PMobject * PMobject)
    : outcome (PMobject * PMobject) :=
  let (self, mobject) := self_mobject in
  let count1 := get_num_points self in
  let count2 := get_num_points mobject in
  if (count1 <? count2)%nat then
    match align_points_with_larger mobject self with
    | Returns self' => Returns (self', mobject)
    | Raises e self' => Raises e (self', mobject)
    end
  else if (count2 <? count1)%nat then
    match align_points_with_larger self mobject with
    | Returns mobject' => Returns (self, mobject')
    | Raises e mobject' => Raises e (self, mobject')
    end
  else Returns (self, mobject).

Definition match_colors (self_mobject : PMobject * PMobject)
    : outcome (PMobject * PMobject) :=
  and_then (Mobject_align_data self_mobject)
    (fun sm => Returns (set_rgbas (fst sm) (rgbas (snd sm)), snd sm)).

(** The body of the loop of [filter_out]. *)
Definition filter_out_body (condition : point -> bool) (mob : PMobject)
    : outcome PMobject :=
  let to_eliminate := map (fun p => negb (condition p)) (points mob) in
  match mask_select (points mob) to_eliminate with
  | inl e => Raises e mob
  | inr ps =>
      let mob := set_points mob ps in
      match mask_select (rgbas mob) to_eliminate with
      | inl e => Raises e mob
      | inr cs => Returns (set_rgbas mob cs)
      end
  end.

Definition filter_out (condition : point -> bool) (self : PMobject)
    : outcome PMobject :=
  for_family (filter_out_body condition) self.

(** The two arrays of a node. *)
Definition arrays (m : PMobject) : list point * list rgba :=
  (points m, rgbas m).

(** What [filter_out] leaves of the two arrays of a node. *)
Definition without (condition : point -> bool) (m : PMobject)
    : list point * list rgba :=
  (filter (fun p => negb (condition p)) (points m),
   map snd (filter (fun pc => negb (condition (fst pc)))
              (combine (points m) (rgbas m)))).

(** The body of the loop of [thin_out], with the value [num_points] read
    from [self] at the start of the iteration. *)
Definition thin_out_body (factor : Z) (num_points : nat) (mob : PMobject)
    : outcome PMobject :=
  apply_over_attr_arrays
    (fun A arr =>
       try_bind (np_arange_int (Z.of_nat num_points) factor) (take arr))
    mob.

(** [num_points] is [self.get_num_points()], read again in every
    iteration: [self], when it has points, is the first member visited,
    with its point count before the call; its descendants are visited
    with the point count [self] has by then. *)
Definition thin_out (factor : Z) (self : PMobject) : outcome PMobject :=
  match (if has_points self
         then thin_out_body factor (get_num_points self) self
         else Returns self) with
  | Raises e self' => Raises e self'
  | Returns self' =>
      let num_points := get_num_points self' in
      match for_each (for_family (thin_out_body factor num_points))
              (submobjects self') with
      | Raises e subs => Raises e (set_submobjects self' subs)
      | Returns subs => Returns (set_submobjects self' subs)
      end
  end.

Definition sort_points (function : point -> Qc) (self : PMobject)
    : outcome PMobject :=
  for_family
    (fun mob =>
       let indices := np_argsort (map function (points mob)) in
       apply_over_attr_arrays (fun A arr => take arr indices) mob)
    self.

Fixpoint fade_to (c : colour) (alpha : Qc) (self : PMobject)
    : outcome PMobject :=
  let target := color_to_rgba c 1 in
  let self' :=
    set_rgbas self (map (fun x => interpolate x target alpha) (rgbas self)) in
  match for_each (fade_to c alpha) (submobjects self) with
  | Raises e subs => Raises e (set_submobjects self' subs)
  | Returns subs => Returns (set_submobjects self' subs)
  end.

Definition get_all_rgbas (self : PMobject) : list rgba :=
  get_merged_array rgbas self.

Definition ingest_submobjects (self : PMobject) : outcome PMobject :=
  let merged_points := get_merged_array points self in
  let merged_rgbas := get_merged_array rgbas self in
  let self := set_points self merged_points in
  let self := set_rgbas self merged_rgbas in
  Returns (set_submobjects self []).

Definition get_color (self : PMobject) : exn + colour :=
  try_bind (index_at (rgbas self) 0) (fun c => inr (rgba_to_color c)).

Definition point_from_proportion (alpha : pynum) (self : PMobject)
    : exn + point :=
  let index := pynum_mul_int alpha (Z.of_nat (get_num_points self) - 1) in
  getitem (points self) index.

Definition interpolate_color (mobject1 mobject2 : PMobject) (alpha : Qc)
    (self : PMobject) : outcome PMobject :=
  match interpolate_arrays (rgbas mobject1) (rgbas mobject2) alpha with
  | inl e => Raises e self
  | inr cs =>
      set_stroke_width
        (interpolate (get_stroke_width mobject1) (get_stroke_width mobject2) alpha)
        true
        (set_rgbas self cs)
  end.

Definition pointwise_become_partial (mobject : PMobject) (a b : Qc)
    (self : PMobject) : outcome PMobject :=
  let n := Qc_of_nat (get_num_points mobject) in
  let lower_index := py_int (a * n) in
  let upper_index := py_int (b * n) in
  let self := set_points self (py_slice (points mobject) lower_index upper_index) in
  let self := set_rgbas self (py_slice (rgbas mobject) lower_index upper_index) in
  Returns self.

(** *** Mobject1D *)

Record Mobject1D : Type := mkMobject1D {
  pmobject : PMobject;
  density : Qc;
  epsilon : Qc
}.

(** The part of [__attrs_post_init__] that is in this module:
    [self.epsilon = 1.0 / self.density]. *)
Definition Mobject1D_post_init (base : PMobject) (d : Qc) : exn + Mobject1D :=
  try_bind (py_true_divide 1 d) (fun eps => inr (mkMobject1D base d eps)).

Definition on_pmobject (self : Mobject1D) (o : outcome PMobject)
    : outcome Mobject1D :=
  match o with
  | Returns m => Returns (mkMobject1D m (density self) (epsilon self))
  | Raises e m => Raises e (mkMobject1D m (density self) (epsilon self))
  end.

(** The parameters [t] at which [add_line] samples a segment of the
    given non-zero length: [np.arange(0, 1, self.epsilon / length)], the
    division and the range in float64 ([length] is a numpy float64). *)
Definition add_line_parameters (self : Mobject1D) (length : Qc) : exn + list Qc :=
  let epsilon := np_true_divide64 (epsilon self) length in
  np_arange64 0 1 epsilon.

(** [start] and [end] are arrays of float64 coordinates. *)
Definition add_line (start end_ : point) (c : option colour)
    (self : Mobject1D) : outcome Mobject1D :=
  let length := get_norm (point_sub64 end_ start) in
  let sampled :=
    if Qc_eqb length 0 then inr [start]
    else try_bind (add_line_parameters self length)
           (fun ts => inr (map (fun t => interpolate64 start end_ t) ts)) in
  match sampled with
  | inl e => Raises e self
  | inr new_points =>
      on_pmobject self (add_points_of_list new_points c 1 (pmobject self))
  end.

(** *** Mobject2D *)

Record Mobject2D : Type := mkMobject2D {
  pmobject2d : PMobject;
  density2d : Qc;
  epsilon2d : Qc
}.

Definition Mobject2D_post_init (base : PMobject) (d : Qc) : exn + Mobject2D :=
  try_bind (py_true_divide 1 d) (fun eps => inr (mkMobject2D base d eps)).

(** *** PGroup *)

(** A Python object handed to [PGroup]: a [PMobject] or an instance of
    some other class. *)
Inductive pyobject : Type :=
| PMobj (m : PMobject)
| OtherObj (class_name : string).

Definition isinstance_PMobject (m : pyobject) : bool :=
  match m with
  | PMobj _ => true
  | OtherObj _ => false
  end.

(** A group: its own node and the objects attached as its children. *)
Record PGroup : Type := mkPGroup {
  group_node : PMobject;
  group_submobjects : list pyobject
}.

(** [check_pmobs] is an instance method: its first positional argument
    is [self]. *)
Definition check_pmobs (self : pyobject) (pmobs : list pyobject) : exn + unit :=
  if negb (forallb isinstance_PMobject pmobs) then
    inl (Exception "All submobjects must be of type PMobject")
  else inr tt.

(** Modelled from the spec: the constructor call of [from_pmobs], an
    empty group with the given options. *)
Definition PGroup_new (c : colour) (width : Qc) : PGroup :=
  mkPGroup (mkPMobject [] [] c width []) [].

(** Modelled from the spec: [Mobject.add], which attaches the given
    objects as children, after those already there. *)
Definition Mobject_add (mobjects : list pyobject) (self : PGroup) : PGroup :=
  mkPGroup (group_node self) (group_submobjects self ++ mobjects).

(** [from_pmobs] calls [check_pmobs] through the class, with the members
    as its only arguments, so that the first of [pmobs] is bound to [self]
    and the others are checked; with no member at all the call lacks its
    [self]. *)
Definition from_pmobs (pmobs : list pyobject) (c : colour) (width : Qc)
    : exn + PGroup :=
  match pmobs with
  | [] => inl TypeError
  | first :: others =>
      try_bind (check_pmobs first others) (fun _ =>
        let instance := PGroup_new c width in
        inr (Mobject_add pmobs instance))
  end.

(** *** PointCloudDot *)

Record PointCloudDot : Type := mkPointCloudDot {
  dot : Mobject1D;
  radius : Qc;
  center : point
}.

Definition PointCloudDot_post_init (base : PMobject) (r d : Qc) (c : point)
    : exn + PointCloudDot :=
  try_bind (Mobject1D_post_init base d) (fun m => inr (mkPointCloudDot m r c)).

(** The radial steps [np.arange(0, self.radius, self.epsilon)]. *)
Definition radial_steps (self : PointCloudDot) : exn + list Qc :=
  np_arange 0 (radius self) (Fin (epsilon (dot self))).

(** The angular step [self.epsilon / r]; [r] is a numpy float64. *)
Definition angular_increment (self : PointCloudDot) (r : Qc) : npfloat :=
  np_true_divide (epsilon (dot self)) r.




(** *** Point *)

Definition Point_post_init (base : PMobject) (location : point)
    : outcome PMobject :=
  add_points [location] None None 1 base.

(** *** The public mutating operations *)

Inductive call : Type :=
| Reset_points
| Add_points (new_points : list point) (new_rgbas : option (list rgba))
    (new_color : option colour) (alpha : Qc)
| Set_color (c : colour) (family : bool)
| Set_color_by_gradient (colors : list colour)
| Match_colors (mobject : PMobject)
| Filter_out (condition : point -> bool)
| Thin_out (factor : Z)
| Sort_points (function : point -> Qc)
| Fade_to (c : colour) (alpha : Qc)
| Ingest_submobjects
| Align_points_with_larger (larger_mobject : PMobject)
| Interpolate_color (mobject1 mobject2 : PMobject) (alpha : Qc)
| Pointwise_become_partial (mobject : PMobject) (a b : Qc).

Definition self_of (o : outcome (PMobject * PMobject)) : outcome PMobject :=
  match o with
  | Returns sm => Returns (fst sm)
  | Raises e sm => Raises e (fst sm)
  end.

(** The effect of a call on [self]. *)
Definition run (c : call) (self : PMobject) : outcome PMobject :=
  match c with
  | Reset_points => reset_points self
  | Add_points ps cs col alpha => add_points ps cs col alpha self
  | Set_color col family => set_color col family self
  | Set_color_by_gradient colors => set_color_by_gradient colors self
  | Match_colors mobject => self_of (match_colors (self, mobject))
  | Filter_out condition => filter_out condition self
  | Thin_out factor => thin_out factor self
  | Sort_points function => sort_points function self
  | Fade_to col alpha => fade_to col alpha self
  | Ingest_submobjects => ingest_submobjects self
  | Align_points_with_larger larger => align_points_with_larger larger self
  | Interpolate_color m1 m2 alpha => interpolate_color m1 m2 alpha self
  | Pointwise_become_partial mobject a b =>
      pointwise_become_partial mobject a b self
  end.

Definition is_add_points (c : call) : bool :=
  match c with
  | Add_points _ _ _ _ => true
  | _ => false
  end.

(** *** The invariant *)

Definition same_length (m : PMobject) : Prop :=
  length (points m) = length (rgbas m).

(** The invariant on a node and every member of its family. *)
Definition family_same_length (m : PMobject) : Prop :=
  Forall same_length (get_family m).

Definition same_lengthb (m : PMobject) : bool :=
  (length (points m) =? length (rgbas m))%nat.

Definition family_same_lengthb (m : PMobject) : bool :=
  forallb same_lengthb (get_family m).

(** What a call expects of the other mobjects it is given. *)
Definition operands_aligned (c : call) (self : PMobject) : Prop :=
  match c with
  | Match_colors mobject => same_length mobject
  | Interpolate_color m1 m2 _ =>
      length (rgbas m1) = length (points self) /\
      length (rgbas m2) = length (points self)
  | Pointwise_become_partial mobject _ _ => same_length mobject
  | _ => True
  end.

(** *** Descriptions used in the statements about the operations *)

(** The attributes of a node other than its children. *)
Definition node_attrs (m : PMobject) : list point * list rgba * colour * Qc :=
  (points m, rgbas m, color m, stroke_width m).

(** [b] holds the points of [a], each with the colour paired with it, in
    ascending order of [function]. *)
Definition sorted_version (function : point -> Qc) (a b : PMobject) : Prop :=
  length (points b) = length (rgbas b) /\
  Permutation (combine (points b) (rgbas b)) (combine (points a) (rgbas a)) /\
  StronglySorted Qcle (map function (points b)).

End Model.

Arguments PMobject {_}.
Arguments Mobject1D {_}.
Arguments Mobject2D {_}.
Arguments PGroup {_}.
Arguments pyobject {_}.
Arguments PointCloudDot {_}.
Arguments call {_}.

(** ** A concrete instance of the helpers, and sample clouds *)

Module Sample.

(** Colours given by their red, green and blue components. *)
Record rgb : Type := mkRgb { rgb_r : Qc; rgb_g : Qc; rgb_b : Qc }.

Definition rgb_to_rgba (c : rgb) (alpha : Qc) : rgba :=
  mkRgba (rgb_r c) (rgb_g c) (rgb_b c) alpha.

Definition rgba_to_rgb (c : rgba) : rgb :=
  mkRgb (red c) (green c) (blue c).

Definition rgb_mix (a b : rgb) (t : Qc) : rgb :=
  mkRgb (interpolate (rgb_r a) (rgb_r b) t)
        (interpolate (rgb_g a) (rgb_g b) t)
        (interpolate (rgb_b a) (rgb_b b) t).

(** A linear gradient through the given stops: entry [i] of [n] is taken
    at parameter [i / (n - 1)] of the way through the stops. *)
Definition rgb_gradient (colors : list rgb) (n : nat) : list rgb :=
  let black := mkRgb 0 0 0 in
  let stops := length colors in
  map (fun i =>
         let s := Qc_of_nat (i * (stops - 1)) / Qc_of_nat (n - 1) in
         let j := Nat.min (Z.to_nat (Qfloor s)) (stops - 2) in
         rgb_mix (nth j colors black) (nth (j + 1) colors (nth j colors black))
                 (s - Qc_of_nat j))
      (seq 0 n).

#[export] Instance rgb_colours : ColourOps.
Proof.
  refine {| colour := rgb;
            Color := fun c => c;
            color_to_rgba := rgb_to_rgba;
            rgba_to_color := rgba_to_rgb;
            color_gradient := rgb_gradient |}.
  intros colors n. unfold rgb_gradient.
  rewrite length_map. apply length_seq.
Defined.

(** The Euclidean norm, exact whenever it is rational. *)
Definition isqrt_norm (v : point) : Qc :=
  let s := px v * px v + py v * py v + pz v * pz v in
  Qc_of_Z (Z.sqrt (Qnum s * Zpos (Qden s))) / Qc_of_Z (Zpos (Qden s)).

(** Polynomial stand-ins for the trigonometric functions. *)
Definition poly_cos (x : Qc) : Qc :=
  1 - x * x / Qc_of_Z 2 + x * x * x * x / Qc_of_Z 24.
Definition poly_sin (x : Qc) : Qc :=
  x - x * x * x / Qc_of_Z 6 + x * x * x * x * x / Qc_of_Z 120.

#[export] Instance rational_space : SpaceOps := {|
  get_norm := isqrt_norm;
  np_cos := poly_cos;
  np_sin := poly_sin;
  np_pi := Q2Qc (355 # 113)
|}.

Definition YELLOW : rgb := mkRgb 1 1 0.
Definition BLACK : rgb := mkRgb 0 0 0.
Definition WHITE : rgb := mkRgb 1 1 1.

Definition pt (x : Z) : point := mkPoint (Qc_of_Z x) 0 0.

Definition opaque (c : rgb) : rgba := rgb_to_rgba c 1.

(** A cloud with the given points, all of one colour, and children. *)
Definition cloud (ps : list point) (c : rgb) (subs : list PMobject) : PMobject :=
  mkPMobject ps (map (fun _ => opaque c) ps) c (Qc_of_Z 4) subs.

Definition empty_cloud : PMobject := cloud [] WHITE [].
Definition cloud3 : PMobject := cloud [pt 0; pt 1; pt 2] WHITE [].
Definition cloud5 : PMobject := cloud [pt 0; pt 1; pt 2; pt 3; pt 4] WHITE [].
Definition cloud5_black : PMobject := cloud [pt 0; pt 1; pt 2; pt 3; pt 4] BLACK [].

(** A parent without points of its own holding a five-point child. *)
Definition group5 : PMobject := cloud [] WHITE [cloud5].

Definition x_below (bound : Qc) (p : point) : bool := Qc_ltb (px p) bound.


Definition line2 : Mobject1D :=
  mkMobject1D empty_cloud (Q2Qc 2) (Q2Qc (1 # 2)).

(** A line cloud of density 49: its [epsilon] is the float64 quotient
    [1.0 / 49]. *)
Definition line49 : Mobject1D :=
  mkMobject1D empty_cloud (Qc_of_Z 49) (round64 (1 / Qc_of_Z 49)).

(** A parent with points holding a child with points. *)
Definition family35 : PMobject := cloud [pt 2; pt 0; pt 1] WHITE [cloud5_black].

End Sample.

(** ** Proofs *)

Section Proofs.
Context `{ColourOps} `{SpaceOps}.

Lemma family_same_length_node (m : PMobject) :
  family_same_length m <->
  same_length m /\ Forall family_same_length (submobjects m).
Proof.
  unfold family_same_length. destruct m as [ps cs c w subs]. simpl.
  rewrite Forall_cons_iff, Forall_flat_map. reflexivity.
Qed.

(** *** Loops *)

Lemma for_each_final {A : Type} (Q : A -> Prop) (body : A -> outcome A)
    (l : list A) :
  Forall (fun x => Q x -> Q (final_state (body x))) l ->
  Forall Q l ->
  Forall Q (final_state (for_each body l)).
Proof.
  induction l as [|x rest IH]; intros Hbody Hl; simpl.
  - constructor.
  - inversion Hbody as [|? ? Hx Hrest]; subst.
    inversion Hl as [|? ? Qx Qrest]; subst.
    specialize (Hx Qx). specialize (IH Hrest Qrest).
    destruct (body x) as [x'|e x']; simpl in *.
    + destruct (for_each body rest) as [rest'|e rest']; simpl in *;
        constructor; assumption.
    + constructor; assumption.
Qed.

Lemma for_family_unfold (body : PMobject -> outcome PMobject) (m : PMobject) :
  for_family body m =
  match (if has_points m then body m else Returns m) with
  | Raises e m' => Raises e (set_submobjects m' (submobjects m))
  | Returns m' =>
      match for_each (for_family body) (submobjects m) with
      | Raises e subs => Raises e (set_submobjects m' subs)
      | Returns subs => Returns (set_submobjects m' subs)
      end
  end.
Proof. destruct m; reflexivity. Qed.

Lemma for_family_final (body : PMobject -> outcome PMobject) :
  (forall mob, same_length mob -> same_length (final_state (body mob))) ->
  forall m, family_same_length m ->
            family_same_length (final_state (for_family body m)).
Proof.
  intros Hbody m. induction m as [ps cs c w subs IH] using PMobject_tree_ind.
  intros Hm. apply family_same_length_node in Hm. destruct Hm as [Hnode Hsubs].
  simpl in Hsubs.
  pose proof (for_each_final family_same_length (for_family body) subs IH Hsubs)
    as Hloop.
  rewrite for_family_unfold.
  set (m := mkPMobject ps cs c w subs) in *.
  assert (Hm' : same_length
                  (final_state (if has_points m then body m else Returns m))).
  { destruct (has_points m); [apply Hbody; assumption | assumption]. }
  change (submobjects m) with subs.
  destruct (if has_points m then body m else Returns m) as [m'|e m'];
    simpl in Hm'.
  - destruct (for_each (for_family body) subs) as [subs'|e subs'];
      apply family_same_length_node; split;
      solve [exact Hm' | exact Hloop].
  - apply family_same_length_node. split; [exact Hm' | exact Hsubs].
Qed.

(** *** Indexing an array: the shape of the result depends on its length only *)

Lemma index_at_uniform {A B : Type} (a : list A) (b : list B) (i : Z) :
  length a = length b ->
  match index_at a i, index_at b i with
  | inr _, inr _ => True
  | inl _, inl _ => True
  | _, _ => False
  end.
Proof.
  intros Hlen. unfold index_at. rewrite <- Hlen.
  set (j := if (i <? 0)%Z then (i + Z.of_nat (length a))%Z else i).
  destruct ((0 <=? j)%Z && (j <? Z.of_nat (length a))%Z) eqn:Hrange; [|exact I].
  apply andb_true_iff in Hrange. destruct Hrange as [Hlo Hhi].
  apply Z.leb_le in Hlo. apply Z.ltb_lt in Hhi.
  assert (Ha : (Z.to_nat j < length a)%nat) by lia.
  assert (Hb : (Z.to_nat j < length b)%nat) by lia.
  apply nth_error_Some in Ha. apply nth_error_Some in Hb.
  destruct (nth_error a (Z.to_nat j)); [|congruence].
  destruct (nth_error b (Z.to_nat j)); [exact I|congruence].
Qed.

Lemma take_uniform (indices : list Z) :
  length_uniform (fun A arr => take arr indices).
Proof.
  intros A B a b Hlen. induction indices as [|i rest IH]; simpl.
  - reflexivity.
  - pose proof (index_at_uniform a b i Hlen) as Hi.
    destruct (index_at a i), (index_at b i); simpl in *;
      try contradiction; try exact I.
    destruct (take a rest), (take b rest); simpl in *;
      try contradiction; try exact I.
    now rewrite IH.
Qed.

Lemma take_length {A : Type} (arr : list A) (indices : list Z) (xs : list A) :
  take arr indices = inr xs -> length xs = length indices.
Proof.
  revert xs. induction indices as [|i rest IH]; simpl; intros xs Hxs.
  - inversion Hxs. reflexivity.
  - destruct (index_at arr i); simpl in Hxs; [discriminate|].
    destruct (take arr rest) as [|ys]; simpl in Hxs; [discriminate|].
    inversion Hxs. simpl. now rewrite (IH ys).
Qed.

Lemma thin_uniform (factor : Z) (num_points : nat) :
  length_uniform
    (fun A arr => try_bind (np_arange_int (Z.of_nat num_points) factor) (take arr)).
Proof.
  intros A B a b Hlen.
  destruct (np_arange_int (Z.of_nat num_points) factor) as [e|indices]; simpl.
  - exact I.
  - apply (take_uniform indices A B a b Hlen).
Qed.

Lemma stretch_uniform (len : nat) :
  length_uniform (fun A arr => stretch_array_to_length arr len).
Proof.
  intros A B a b Hlen. unfold stretch_array_to_length. rewrite <- Hlen.
  destruct (len <? length a)%nat; [exact I|].
  apply (take_uniform _ A B a b Hlen).
Qed.

Lemma select_length_uniform {A B : Type} (a : list A) (b : list B)
    (mask : list bool) :
  length a = length b ->
  length (select a mask) = length (select b mask).
Proof.
  revert b mask. induction a as [|x a IH]; intros [|y b] mask Hlen;
    simpl in Hlen; try discriminate.
  - reflexivity.
  - destruct mask as [|[|] mask]; simpl; auto.
Qed.

Lemma py_slice_length_uniform {A B : Type} (a : list A) (b : list B)
    (lower upper : Z) :
  length a = length b ->
  length (py_slice a lower upper) = length (py_slice b lower upper).
Proof.
  intros Hlen. unfold py_slice.
  rewrite !length_firstn, !length_skipn, Hlen. reflexivity.
Qed.

Lemma apply_over_attr_arrays_final
    (func : forall A : Type, list A -> exn + list A) (m : PMobject) :
  length_uniform func ->
  same_length m ->
  same_length (final_state (apply_over_attr_arrays func m)).
Proof.
  intros Hfunc Hm. unfold apply_over_attr_arrays.
  pose proof (Hfunc point rgba (points m) (rgbas m) Hm) as Hboth.
  destruct (func point (points m)) as [e|ps]; simpl.
  - exact Hm.
  - destruct (func rgba (rgbas m)) as [e|cs]; simpl.
    + contradiction.
    + exact Hboth.
Qed.

(** *** The invariant, operation by operation *)

Lemma and_then_final {S : Type} (Q : S -> Prop) (o : outcome S)
    (k : S -> outcome S) :
  Q (final_state o) ->
  (forall s, Q s -> Q (final_state (k s))) ->
  Q (final_state (and_then o k)).
Proof.
  intros Ho Hk. destruct o as [s|e s]; simpl in *; [apply Hk|]; exact Ho.
Qed.

Lemma family_same_length_root (m : PMobject) (ps : list point) (cs : list rgba) :
  family_same_length m ->
  length ps = length cs ->
  family_same_length (set_rgbas (set_points m ps) cs).
Proof.
  intros Hm Hlen. apply family_same_length_node in Hm.
  apply family_same_length_node. split; [exact Hlen | apply Hm].
Qed.

Lemma family_same_length_root_final (m : PMobject) (o : outcome PMobject) :
  family_same_length m ->
  same_length (final_state o) ->
  submobjects (final_state o) = submobjects m ->
  family_same_length (final_state o).
Proof.
  intros Hm Hnode Hsubs. apply family_same_length_node in Hm.
  apply family_same_length_node. rewrite Hsubs. split; [exact Hnode | apply Hm].
Qed.

Lemma apply_over_attr_arrays_submobjects
    (func : forall A : Type, list A -> exn + list A) (m : PMobject) :
  submobjects (final_state (apply_over_attr_arrays func m)) = submobjects m.
Proof.
  unfold apply_over_attr_arrays.
  destruct (func point (points m)); simpl; [reflexivity|].
  destruct (func rgba _); reflexivity.
Qed.

Lemma reset_points_same_length (self : PMobject) :
  family_same_length self ->
  family_same_length (final_state (reset_points self)).
Proof.
  intros Hself. apply family_same_length_node in Hself.
  apply family_same_length_node. split; [reflexivity | apply Hself].
Qed.

Lemma add_points_same_length new_points new_rgbas new_color alpha self :
  family_same_length self ->
  forall self', add_points new_points new_rgbas new_color alpha self = Returns self' ->
                family_same_length self'.
Proof.
  intros Hself self' Hcall. apply family_same_length_node in Hself.
  destruct Hself as [Hnode Hsubs]. unfold same_length in Hnode.
  unfold add_points in Hcall.
  destruct new_rgbas as [cs|].
  - destruct (length cs =? length new_points)%nat eqn:Hlen; simpl in Hcall;
      [|discriminate].
    apply Nat.eqb_eq in Hlen. inversion Hcall; subst self'.
    apply family_same_length_node. split; [|exact Hsubs].
    unfold same_length. simpl. rewrite !length_app. lia.
  - inversion Hcall; subst self'.
    apply family_same_length_node. split; [|exact Hsubs].
    unfold same_length. simpl. rewrite !length_app, repeat_length. lia.
Qed.

Lemma set_color_same_length c family self :
  family_same_length self ->
  family_same_length (final_state (set_color c family self)).
Proof.
  intros Hself. unfold set_color.
  assert (Hbody : forall mob, same_length mob ->
                    same_length (fill_rgbas (color_to_rgba c 1) mob)).
  { intros mob Hmob. unfold fill_rgbas, same_length. simpl.
    rewrite length_map. exact Hmob. }
  apply and_then_final.
  - destruct family.
    + apply for_family_final; [|exact Hself].
      intros mob Hmob. apply Hbody, Hmob.
    + apply family_same_length_node in Hself.
      apply family_same_length_node. split; [apply Hbody|]; apply Hself.
  - intros s Hs. apply family_same_length_node in Hs.
    apply family_same_length_node. exact Hs.
Qed.

Lemma set_stroke_width_same_length width family self :
  family_same_length self ->
  family_same_length (final_state (set_stroke_width width family self)).
Proof.
  intros Hself. unfold set_stroke_width. destruct family.
  - apply for_family_final; [|exact Hself]. intros mob Hmob. exact Hmob.
  - apply family_same_length_node in Hself.
    apply family_same_length_node. exact Hself.
Qed.

Lemma set_color_by_gradient_same_length colors self :
  family_same_length self ->
  family_same_length (final_state (set_color_by_gradient colors self)).
Proof.
  intros Hself. apply family_same_length_node in Hself.
  apply family_same_length_node. split; [|apply Hself].
  unfold same_length. simpl.
  now rewrite length_map, color_gradient_length.
Qed.

Lemma align_points_with_larger_same_length larger self :
  family_same_length self ->
  family_same_length (final_state (align_points_with_larger larger self)).
Proof.
  intros Hself. apply family_same_length_root_final with (m := self).
  - exact Hself.
  - apply apply_over_attr_arrays_final; [apply stretch_uniform|].
    apply family_same_length_node in Hself. apply Hself.
  - apply apply_over_attr_arrays_submobjects.
Qed.

Lemma stretch_length {A : Type} (arr : list A) (len : nat) (xs : list A) :
  stretch_array_to_length arr len = inr xs -> length xs = len.
Proof.
  unfold stretch_array_to_length.
  destruct (len <? length arr)%nat; [discriminate|].
  intros Hxs. apply take_length in Hxs.
  now rewrite Hxs, length_map, length_seq.
Qed.

Lemma align_points_with_larger_returns larger self self' :
  align_points_with_larger larger self = Returns self' ->
  length (points self') = get_num_points larger /\
  length (rgbas self') = get_num_points larger /\
  submobjects self' = submobjects self.
Proof.
  unfold align_points_with_larger, apply_over_attr_arrays.
  destruct (stretch_array_to_length (points self) _) as [e|ps] eqn:Hps;
    [discriminate|].
  simpl.
  destruct (stretch_array_to_length (rgbas self) _) as [e|cs] eqn:Hcs;
    [discriminate|].
  intros Hret. inversion Hret; subst self'. simpl.
  apply stretch_length in Hps. apply stretch_length in Hcs. auto.
Qed.

Lemma match_colors_same_length self mobject :
  family_same_length self ->
  same_length mobject ->
  family_same_length (final_state (self_of (match_colors (self, mobject)))).
Proof.
  intros Hself Hmob.
  pose proof Hself as Hnode. apply family_same_length_node in Hnode.
  destruct Hnode as [Hnode Hsubs].
  unfold match_colors, Mobject_align_data.
  destruct (get_num_points self <? get_num_points mobject)%nat eqn:Hlt.
  - pose proof (align_points_with_larger_same_length mobject self Hself) as Hfinal.
    destruct (align_points_with_larger mobject self) as [self'|e self'] eqn:Hal;
      simpl in *; [|exact Hfinal].
    apply align_points_with_larger_returns in Hal. destruct Hal as [Hps [_ _]].
    apply family_same_length_node in Hfinal.
    apply family_same_length_node. split; [|apply Hfinal].
    unfold same_length. simpl. rewrite Hps. exact Hmob.
  - destruct (get_num_points mobject <? get_num_points self)%nat eqn:Hgt.
    + destruct (align_points_with_larger self mobject) as [mob'|e mob'] eqn:Hal;
        simpl; [|exact Hself].
      apply align_points_with_larger_returns in Hal. destruct Hal as [_ [Hcs _]].
      apply family_same_length_node. split; [|exact Hsubs].
      unfold same_length. simpl. now rewrite Hcs.
    + simpl. apply family_same_length_node. split; [|exact Hsubs].
      apply Nat.ltb_ge in Hlt. apply Nat.ltb_ge in Hgt.
      unfold same_length, get_num_points in *. simpl. lia.
Qed.

Lemma filter_out_body_same_length (condition : point -> bool) (mob : PMobject) :
  same_length mob ->
  exists ps cs,
    mask_select (points mob) (map (fun p => negb (condition p)) (points mob))
      = inr ps /\
    mask_select (rgbas mob) (map (fun p => negb (condition p)) (points mob))
      = inr cs /\
    length ps = length cs.
Proof.
  intros Hmob. unfold same_length in Hmob. unfold mask_select.
  rewrite length_map, <- Hmob, Nat.eqb_refl.
  eexists. eexists. repeat split.
  apply select_length_uniform. exact Hmob.
Qed.

Lemma filter_out_same_length condition self :
  family_same_length self ->
  family_same_length (final_state (filter_out condition self)).
Proof.
  intros Hself. unfold filter_out. apply for_family_final; [|exact Hself].
  intros mob Hmob. unfold filter_out_body.
  destruct (filter_out_body_same_length condition mob Hmob)
    as [ps [cs [Hps [Hcs Hlen]]]].
  cbv zeta. rewrite Hps. cbn [set_points rgbas]. rewrite Hcs. exact Hlen.
Qed.

Lemma thin_out_body_same_length factor num_points mob :
  same_length mob ->
  same_length (final_state (thin_out_body factor num_points mob)).
Proof.
  intros Hmob. apply apply_over_attr_arrays_final; [apply thin_uniform|exact Hmob].
Qed.

Lemma thin_out_same_length factor self :
  family_same_length self ->
  family_same_length (final_state (thin_out factor self)).
Proof.
  intros Hself. unfold thin_out.
  pose proof Hself as Hnode. apply family_same_length_node in Hnode.
  destruct Hnode as [Hnode Hsubs].
  set (first := if has_points self
                then thin_out_body factor (get_num_points self) self
                else Returns self).
  assert (Hfirst : same_length (final_state first)).
  { unfold first. destruct (has_points self); [|exact Hnode].
    apply thin_out_body_same_length, Hnode. }
  assert (Hkeep : submobjects (final_state first) = submobjects self).
  { unfold first. destruct (has_points self); [|reflexivity].
    apply apply_over_attr_arrays_submobjects. }
  clearbody first. destruct first as [self'|e self']; simpl in *.
  - rewrite Hkeep.
    pose proof (for_each_final family_same_length
                  (for_family (thin_out_body factor (get_num_points self')))
                  (submobjects self)) as Hloop.
    assert (Hall : Forall family_same_length
                     (final_state
                        (for_each
                           (for_family
                              (thin_out_body factor (get_num_points self')))
                           (submobjects self)))).
    { apply Hloop; [|exact Hsubs]. apply Forall_forall. intros mob _ Hmob.
      apply for_family_final; [|exact Hmob].
      intros m. apply thin_out_body_same_length. }
    destruct (for_each _ (submobjects self)) as [subs|e subs]; simpl in *;
      apply family_same_length_node; split; assumption.
  - apply family_same_length_node. rewrite Hkeep. split; assumption.
Qed.

Lemma sort_points_same_length function self :
  family_same_length self ->
  family_same_length (final_state (sort_points function self)).
Proof.
  intros Hself. unfold sort_points. apply for_family_final; [|exact Hself].
  intros mob Hmob. apply apply_over_attr_arrays_final; [|exact Hmob].
  apply take_uniform.
Qed.

Lemma fade_to_unfold c alpha self :
  fade_to c alpha self =
  let target := color_to_rgba c 1 in
  let self' :=
    set_rgbas self (map (fun x => interpolate x target alpha) (rgbas self)) in
  match for_each (fade_to c alpha) (submobjects self) with
  | Raises e subs => Raises e (set_submobjects self' subs)
  | Returns subs => Returns (set_submobjects self' subs)
  end.
Proof. destruct self; reflexivity. Qed.

Lemma fade_to_same_length c alpha self :
  family_same_length self ->
  family_same_length (final_state (fade_to c alpha self)).
Proof.
  induction self as [ps cs col w subs IH] using PMobject_tree_ind.
  intros Hself. apply family_same_length_node in Hself.
  destruct Hself as [Hnode Hsubs]. simpl in Hsubs.
  pose proof (for_each_final family_same_length (fade_to c alpha) subs IH Hsubs)
    as Hloop.
  rewrite fade_to_unfold. cbv zeta. cbn [submobjects].
  assert (Hroot : forall subs',
             Forall family_same_length subs' ->
             family_same_length
               (set_submobjects
                  (set_rgbas (mkPMobject ps cs col w subs)
                     (map (fun x => interpolate x (color_to_rgba c 1) alpha) cs))
                  subs')).
  { intros subs' Hsubs'. apply family_same_length_node. split; [|exact Hsubs'].
    unfold same_length in *. simpl in *. now rewrite length_map. }
  destruct (for_each (fade_to c alpha) subs) as [subs'|e subs']; simpl in *;
    apply Hroot, Hloop.
Qed.

Lemma get_merged_array_unfold {A : Type} (attr : PMobject -> list A) m :
  get_merged_array attr m =
  attr m ++ flat_map (get_merged_array attr) (submobjects m).
Proof. destruct m; reflexivity. Qed.

Lemma get_merged_array_same_length (m : PMobject) :
  family_same_length m ->
  length (get_merged_array points m) = length (get_merged_array rgbas m).
Proof.
  induction m as [ps cs col w subs IH] using PMobject_tree_ind.
  intros Hm. apply family_same_length_node in Hm. destruct Hm as [Hnode Hsubs].
  rewrite !get_merged_array_unfold, !length_app. simpl in *.
  unfold same_length in Hnode. simpl in Hnode. rewrite Hnode. f_equal.
  induction subs as [|x rest IHrest]; simpl; [reflexivity|].
  inversion IH; subst. inversion Hsubs; subst.
  rewrite !length_app. auto.
Qed.

Lemma ingest_submobjects_same_length self :
  family_same_length self ->
  family_same_length (final_state (ingest_submobjects self)).
Proof.
  intros Hself. apply family_same_length_node. split; [|constructor].
  unfold same_length. simpl. apply get_merged_array_same_length, Hself.
Qed.

Lemma interpolate_arrays_same_length (a b : list rgba) (t : Qc) :
  length a = length b ->
  exists cs, interpolate_arrays a b t = inr cs /\ length cs = length a.
Proof.
  intros Hlen. unfold interpolate_arrays.
  apply Nat.eqb_eq in Hlen. rewrite Hlen. apply Nat.eqb_eq in Hlen.
  eexists. split; [reflexivity|].
  rewrite length_map, length_combine. lia.
Qed.

Lemma interpolate_color_same_length mobject1 mobject2 alpha self :
  family_same_length self ->
  length (rgbas mobject1) = length (points self) ->
  length (rgbas mobject2) = length (points self) ->
  family_same_length
    (final_state (interpolate_color mobject1 mobject2 alpha self)).
Proof.
  intros Hself H1 H2. unfold interpolate_color.
  destruct (interpolate_arrays_same_length (rgbas mobject1) (rgbas mobject2) alpha)
    as [cs [Hcs Hlen]]; [congruence|].
  rewrite Hcs. apply set_stroke_width_same_length.
  apply family_same_length_node in Hself.
  apply family_same_length_node. split; [|apply Hself].
  unfold same_length. simpl. congruence.
Qed.

Lemma pointwise_become_partial_same_length mobject a b self :
  family_same_length self ->
  same_length mobject ->
  family_same_length (final_state (pointwise_become_partial mobject a b self)).
Proof.
  intros Hself Hmob. apply family_same_length_node in Hself.
  apply family_same_length_node. split; [|apply Hself].
  unfold same_length. simpl. apply py_slice_length_uniform, Hmob.
Qed.

(** *** Loops whose body never raises *)

Lemma for_each_returns {A : Type} (body : A -> outcome A) (l : list A) :
  Forall (fun x => returns (body x) = true) l ->
  returns (for_each body l) = true.
Proof.
  induction l as [|x rest IH]; intros Hl; simpl; [reflexivity|].
  inversion Hl as [|? ? Hx Hrest]; subst. specialize (IH Hrest).
  destruct (body x); [|discriminate].
  destruct (for_each body rest); [reflexivity|discriminate].
Qed.

Lemma for_family_returns (body : PMobject -> outcome PMobject) :
  (forall mob, returns (body mob) = true) ->
  forall m, returns (for_family body m) = true.
Proof.
  intros Hbody m. induction m as [ps cs c w subs IH] using PMobject_tree_ind.
  rewrite for_family_unfold. cbn [submobjects].
  pose proof (for_each_returns (for_family body) subs IH) as Hloop.
  set (m := mkPMobject ps cs c w subs).
  assert (Hroot : returns (if has_points m then body m else Returns m) = true).
  { destruct (has_points m); [apply Hbody|reflexivity]. }
  destruct (if has_points m then body m else Returns m); [|discriminate].
  destruct (for_each (for_family body) subs); [reflexivity|discriminate].
Qed.

(** The attributes of the root after a loop over the family. *)
Lemma for_family_root (body : PMobject -> outcome PMobject) (m s : PMobject) :
  for_family body m = Returns s ->
  exists m', (if has_points m then body m else Returns m) = Returns m' /\
             points s = points m' /\ rgbas s = rgbas m' /\
             color s = color m' /\ stroke_width s = stroke_width m'.
Proof.
  rewrite for_family_unfold.
  destruct (if has_points m then body m else Returns m) as [m'|e m'];
    [|discriminate].
  destruct (for_each (for_family body) (submobjects m)); [|discriminate].
  intros Hs. inversion Hs; subst s. exists m'. simpl. auto.
Qed.

(** *** Masks and filters *)

Lemma select_filter {A : Type} (keep : A -> bool) (a : list A) :
  select a (map keep a) = filter keep a.
Proof.
  induction a as [|x a IH]; simpl; [reflexivity|].
  rewrite IH. reflexivity.
Qed.

Lemma select_paired {A B : Type} (keep : A -> bool) (a : list A) (b : list B) :
  length a = length b ->
  select b (map keep a) =
  map snd (filter (fun xy => keep (fst xy)) (combine a b)).
Proof.
  revert b. induction a as [|x a IH]; intros [|y b] Hlen; simpl in *;
    try discriminate; try reflexivity.
  rewrite (IH b) by lia. destruct (keep x); reflexivity.
Qed.

Lemma filter_out_body_returns (condition : point -> bool) (mob : PMobject) :
  same_length mob ->
  exists mob',
    (if has_points mob then filter_out_body condition mob else Returns mob)
      = Returns mob' /\
    arrays mob' = without condition mob.
Proof.
  intros Hmob. unfold same_length in Hmob.
  destruct (has_points mob) eqn:Hpts.
  - unfold filter_out_body. cbv zeta. unfold mask_select.
    rewrite length_map, Nat.eqb_refl.
    cbn [set_points rgbas]. rewrite <- Hmob, Nat.eqb_refl.
    eexists. split; [reflexivity|].
    unfold arrays, without. simpl.
    now rewrite select_filter, (select_paired _ _ _ Hmob).
  - exists mob. split; [reflexivity|].
    unfold has_points, get_num_points in Hpts. apply Nat.ltb_ge in Hpts.
    unfold arrays, without.
    destruct (points mob); [|simpl in Hpts; lia].
    destruct (rgbas mob); [reflexivity|discriminate].
Qed.

Lemma filter_out_family (condition : point -> bool) (self : PMobject) :
  family_same_length self ->
  exists self',
    filter_out condition self = Returns self' /\
    map arrays (get_family self') = map (without condition) (get_family self).
Proof.
  unfold filter_out.
  induction self as [ps cs c w subs IH] using PMobject_tree_ind.
  intros Hself. apply family_same_length_node in Hself.
  destruct Hself as [Hnode Hsubs]. simpl in Hsubs.
  rewrite for_family_unfold. cbn [submobjects].
  set (m := mkPMobject ps cs c w subs) in *.
  destruct (filter_out_body_returns condition m Hnode) as [m' [Hm' Harr]].
  rewrite Hm'.
  assert (Hloop : exists subs',
             for_each (for_family (filter_out_body condition)) subs
               = Returns subs' /\
             map arrays (flat_map get_family subs') =
             map (without condition) (flat_map get_family subs)).
  { clear Hm' Harr m' m Hnode. induction subs as [|x rest IHrest].
    - exists []. split; reflexivity.
    - inversion IH as [|? ? Hx Hrest]; subst.
      inversion Hsubs as [|? ? Fx Frest]; subst.
      destruct (Hx Fx) as [x' [Hx' Hfam]].
      destruct (IHrest Hrest Frest) as [rest' [Hrest' Hfams]].
      exists (x' :: rest'). simpl. rewrite Hx', Hrest'. split; [reflexivity|].
      rewrite !map_app. now rewrite Hfam, Hfams. }
  destruct Hloop as [subs' [Hsubs' Hfam]]. rewrite Hsubs'.
  eexists. split; [reflexivity|].
  simpl. f_equal; [exact Harr | exact Hfam].
Qed.

(** *** The claims about [PMobject] *)

(** C1, as amended.  If [len(points) == len(rgbas)] holds for a node and
    every member of its family, and the other mobjects handed to the
    call are aligned with it (the source of [match_colors] and of
    [pointwise_become_partial] satisfies the invariant itself, the two
    operands of [interpolate_color] have as many colours as [self] has
    points), then the invariant holds for the whole family when a public
    mutating operation returns, and also when one other than
    [add_points] raises. *)
Theorem mutating_calls_keep_same_length (c : call) (self : PMobject) :
  family_same_length self ->
  operands_aligned c self ->
  match run c self with
  | Returns self' => family_same_length self'
  | Raises _ self' => is_add_points c = false -> family_same_length self'
  end.
Proof.
  intros Hself Hops.
  assert (Hfinal : is_add_points c = false ->
                   family_same_length (final_state (run c self))).
  { intros Hc. destruct c; simpl in Hc, Hops |- *; try discriminate.
    - apply reset_points_same_length, Hself.
    - apply set_color_same_length, Hself.
    - apply set_color_by_gradient_same_length, Hself.
    - apply match_colors_same_length; assumption.
    - apply filter_out_same_length, Hself.
    - apply thin_out_same_length, Hself.
    - apply sort_points_same_length, Hself.
    - apply fade_to_same_length, Hself.
    - apply ingest_submobjects_same_length, Hself.
    - apply align_points_with_larger_same_length, Hself.
    - destruct Hops as [H1 H2].
      apply interpolate_color_same_length; assumption.
    - apply pointwise_become_partial_same_length; assumption. }
  destruct (is_add_points c) eqn:Hc.
  - destruct c; try discriminate. simpl.
    destruct (add_points new_points new_rgbas new_color alpha self)
      as [self'|e self'] eqn:Hcall.
    + apply (add_points_same_length _ _ _ _ _ Hself _ Hcall).
    + intros Hno. discriminate.
  - specialize (Hfinal eq_refl).
    destruct (run c self); simpl in Hfinal; auto.
Qed.

(** C2, as amended.  On every member of the family, [filter_out] keeps
    exactly the points for which the condition is false, each with the
    colour paired with it, in their order, and removes those for which
    it is true. *)
Theorem filter_out_removes_where_condition_holds
    (condition : point -> bool) (self : PMobject) :
  family_same_length self ->
  exists self',
    filter_out condition self = Returns self' /\
    map arrays (get_family self') = map (without condition) (get_family self).
Proof. apply filter_out_family. Qed.

(** C3.  A proportion is a float, and the product [alpha * (N - 1)] of a
    float is a float, which numpy refuses as an index: whatever the
    cloud, the call raises IndexError instead of returning the point at
    the rounded index.  Only an int for [alpha] gives an int index, which
    is then used as it is. *)
Theorem point_from_proportion_float_raises (self : PMobject) :
  (forall alpha : Qc,
      point_from_proportion (PyFloat alpha) self = inl IndexError) /\
  (forall alpha : Z,
      point_from_proportion (PyInt alpha) self =
      index_at (points self) (alpha * (Z.of_nat (get_num_points self) - 1))).
Proof.
  split; intros alpha.
  - unfold point_from_proportion, pynum_mul_int, getitem. reflexivity.
  - unfold point_from_proportion, pynum_mul_int, getitem. reflexivity.
Qed.

(** C4.  With explicit [rgbas], [add_points] raises the mismatch
    exception when their number differs from the number of new points,
    and otherwise returns with both arrays longer by that number. *)
Theorem add_points_rgbas_length_check
    (new_points : list point) (new_rgbas : list rgba)
    (new_color : option colour) (alpha : Qc) (self : PMobject) :
  (length new_rgbas <> length new_points ->
   add_points new_points (Some new_rgbas) new_color alpha self =
   Raises (Exception "points and rgbas must have same shape")
          (set_points self (points self ++ new_points))) /\
  (length new_rgbas = length new_points ->
   exists self',
     add_points new_points (Some new_rgbas) new_color alpha self = Returns self' /\
     length (points self') = (length (points self) + length new_points)%nat /\
     length (rgbas self') = (length (rgbas self) + length new_points)%nat).
Proof.
  unfold add_points. split; intros Hlen.
  - apply Nat.eqb_neq in Hlen. rewrite Hlen. reflexivity.
  - pose proof Hlen as Heq. apply Nat.eqb_eq in Heq. rewrite Heq.
    eexists. split; [reflexivity|]. simpl.
    rewrite !length_app. lia.
Qed.

(** C5.  Without [rgbas], the new points are appended in their order and
    each receives the RGBA, at the given alpha, of the [color] argument
    when there is one and of the node's own colour otherwise; on an
    empty cloud three points with colour [C] give those three points
    and three times the RGBA of [C]. *)
Theorem add_points_single_colour :
  (forall (new_points : list point) (new_color : option colour) (alpha : Qc)
          (self : PMobject),
      exists self',
        add_points new_points None new_color alpha self = Returns self' /\
        points self' = points self ++ new_points /\
        rgbas self' =
          rgbas self ++
          repeat (color_to_rgba
                    (match new_color with
                     | Some c => Color c
                     | None => color self
                     end) alpha)
                 (length new_points)) /\
  (forall (p1 p2 p3 : point) (C base : colour) (w : Qc) (subs : list PMobject),
      exists self',
        add_points [p1; p2; p3] None (Some C) 1 (mkPMobject [] [] base w subs)
          = Returns self' /\
        points self' = [p1; p2; p3] /\
        rgbas self' = [color_to_rgba (Color C) 1; color_to_rgba (Color C) 1;
                       color_to_rgba (Color C) 1]).
Proof.
  split; intros; eexists; (split; [reflexivity|]); split; reflexivity.
Qed.

(** C7.  [from_pmobs] binds its first member to the [self] of
    [check_pmobs] and so never checks it: a member that is no [PMobject]
    is attached when it comes first, alone or before conforming members,
    while the same member in a later position is refused; without any
    member the call itself fails. *)
Theorem from_pmobs_first_member_unchecked
    (class_name : string) (m : PMobject) (c : colour) (w : Qc) :
  from_pmobs [OtherObj class_name] c w
    = inr (mkPGroup (mkPMobject [] [] c w []) [OtherObj class_name]) /\
  from_pmobs [OtherObj class_name; PMobj m] c w
    = inr (mkPGroup (mkPMobject [] [] c w []) [OtherObj class_name; PMobj m]) /\
  from_pmobs [PMobj m; OtherObj class_name] c w
    = inl (Exception "All submobjects must be of type PMobject") /\
  from_pmobs [] c w = inl TypeError.
Proof. repeat split. Qed.

(** *** Numbers *)

Lemma Qc_eqb_eq (a b : Qc) : Qc_eqb a b = true <-> a = b.
Proof.
  unfold Qc_eqb. destruct (Qc_eq_dec a b); split; congruence.
Qed.

Lemma Qc_eqb_neq (a b : Qc) : Qc_eqb a b = false <-> a <> b.
Proof.
  unfold Qc_eqb. destruct (Qc_eq_dec a b); split; congruence.
Qed.

Lemma Qc_ltb_lt (a b : Qc) : Qc_ltb a b = true <-> a < b.
Proof.
  unfold Qc_ltb. destruct (Qclt_le_dec a b) as [Hlt|Hle]; split; auto.
  - discriminate.
  - intros Hlt. exfalso. apply (Qcle_not_lt _ _ Hle Hlt).
Qed.

Lemma Qc_pos_neq (a : Qc) : 0 < a -> a <> 0.
Proof.
  intros Hpos Hzero. subst a. apply (Qclt_not_eq _ _ Hpos). reflexivity.
Qed.

Lemma Qcdiv_pos (a b : Qc) : 0 < a -> 0 < b -> 0 < a / b.
Proof.
  intros Ha Hb. unfold Qcdiv.
  replace 0 with (0 * / b) by ring.
  apply Qcmult_lt_compat_r; [|exact Ha].
  unfold Qclt in *. unfold Qcinv. cbn [this Q2Qc].
  rewrite !Qred_correct. apply Qinv_lt_0_compat. exact Hb.
Qed.

Lemma Qc_of_nat_nonneg (i : nat) : 0 <= Qc_of_nat i.
Proof.
  unfold Qc_of_nat, Qc_of_Z, Qcle. cbn [this Q2Qc].
  rewrite !Qred_correct. unfold Qle. simpl. lia.
Qed.

Lemma Qceiling_pos (x : Qc) : 0 < x -> (0 < Qceiling x)%Z.
Proof.
  intros Hx. unfold Qclt in Hx. simpl in Hx.
  pose proof (Qle_ceiling x) as Hc.
  pose proof (Qlt_le_trans _ _ _ Hx Hc) as Hpos.
  unfold Qlt in Hpos. simpl in Hpos. lia.
Qed.

Lemma Qc_of_Z_lt_ceiling (x : Qc) (i : Z) :
  (i < Qceiling x)%Z -> Qc_of_Z i < x.
Proof.
  intros Hi. unfold Qclt, Qc_of_Z. cbn [this Q2Qc]. rewrite !Qred_correct.
  apply Qle_lt_trans with (inject_Z (Qceiling x - 1)).
  - rewrite <- Zle_Qle. lia.
  - apply Qceiling_lt.
Qed.

(** [np.arange(0, stop, step)] with a positive step and a positive stop
    starts at 0 and stays below [stop]. *)
Lemma np_arange_half_open (stop step : Qc) :
  0 < step -> 0 < stop ->
  exists rest,
    np_arange 0 stop (Fin step) = inr (0 :: rest) /\
    Forall (fun t => 0 <= t /\ t < stop) (0 :: rest).
Proof.
  intros Hstep Hstop. unfold np_arange.
  pose proof (Qc_pos_neq step Hstep) as Hne.
  apply Qc_eqb_neq in Hne. rewrite Hne. apply Qc_eqb_neq in Hne.
  replace (stop - 0) with stop by ring.
  pose proof (Qceiling_pos (stop / step) (Qcdiv_pos _ _ Hstop Hstep)) as Hceil.
  assert (Hlast : forall i : nat,
             (Z.of_nat i < Qceiling (stop / step)%Qc)%Z ->
             Qc_of_nat i < stop / step).
  { intros i Hi. apply Qc_of_Z_lt_ceiling. exact Hi. }
  set (k := Qceiling (stop / step)%Qc) in *. clearbody k.
  destruct (Z.to_nat k) as [|n] eqn:Hn; [lia|].
  unfold arange_values. simpl seq. simpl map.
  change (Qc_of_nat 0) with 0.
  replace (0 + 0 * step) with 0 by ring.
  eexists. split; [reflexivity|].
  constructor.
  - split; [apply Qcle_refl | exact Hstop].
  - apply Forall_forall. intros t Ht. apply in_map_iff in Ht.
    destruct Ht as [i [Ht Hi]]. apply in_seq in Hi. subst t.
    replace (0 + Qc_of_nat i * step) with (Qc_of_nat i * step) by ring.
    split.
    + replace 0 with (0 * step) by ring.
      apply Qcmult_le_compat_r; [apply Qc_of_nat_nonneg|].
      apply Qclt_le_weak, Hstep.
    + apply Qclt_le_trans with (stop / step * step).
      * apply Qcmult_lt_compat_r; [exact Hstep|]. apply Hlast. lia.
      * replace (stop / step * step) with stop by (field; exact Hne).
        apply Qcle_refl.
Qed.

(** *** binary64 rounding *)

(** Integers among the rationals *)

Lemma Qc_of_Z_this (z : Z) : (this (Qc_of_Z z) == inject_Z z)%Q.
Proof. unfold Qc_of_Z. cbn [this Q2Qc]. apply Qred_correct. Qed.

Lemma Qc_of_Z_add (a b : Z) : Qc_of_Z (a + b) = Qc_of_Z a + Qc_of_Z b.
Proof.
  apply Qc_is_canon. unfold Qcplus. cbn [this Q2Qc].
  rewrite !Qred_correct, !Qc_of_Z_this, inject_Z_plus. reflexivity.
Qed.

Lemma Qc_of_Z_mul (a b : Z) : Qc_of_Z (a * b) = Qc_of_Z a * Qc_of_Z b.
Proof.
  apply Qc_is_canon. unfold Qcmult. cbn [this Q2Qc].
  rewrite !Qred_correct, !Qc_of_Z_this, inject_Z_mult. reflexivity.
Qed.

Lemma Qc_of_Z_opp (a : Z) : Qc_of_Z (- a) = - Qc_of_Z a.
Proof.
  apply Qc_is_canon. unfold Qcopp. cbn [this Q2Qc].
  rewrite !Qred_correct, !Qc_of_Z_this, inject_Z_opp. reflexivity.
Qed.

Lemma Qc_of_Z_le (a b : Z) : Qc_of_Z a <= Qc_of_Z b <-> (a <= b)%Z.
Proof.
  unfold Qcle. rewrite !Qc_of_Z_this, Zle_Qle. reflexivity.
Qed.

Lemma Qc_of_Z_lt (a b : Z) : Qc_of_Z a < Qc_of_Z b <-> (a < b)%Z.
Proof.
  unfold Qclt. rewrite !Qc_of_Z_this, Zlt_Qlt. reflexivity.
Qed.

Lemma Qc_of_Z_0 : Qc_of_Z 0 = 0.
Proof. reflexivity. Qed.

Lemma Qc_of_Z_1 : Qc_of_Z 1 = 1.
Proof. apply Qc_is_canon. reflexivity. Qed.

Lemma Qc_of_Z_pos (a : Z) : 0 < Qc_of_Z a <-> (0 < a)%Z.
Proof. rewrite <- Qc_of_Z_0 at 1. apply Qc_of_Z_lt. Qed.

(** Floor *)

Lemma Qc_floor_le (x : Qc) : Qc_of_Z (Qfloor x) <= x.
Proof. unfold Qcle. rewrite Qc_of_Z_this. apply Qfloor_le. Qed.

Lemma Qc_lt_floor (x : Qc) : x < Qc_of_Z (Qfloor x + 1).
Proof. unfold Qclt. rewrite Qc_of_Z_this. apply Qlt_floor. Qed.

Lemma Qc_floor_ge (x : Qc) (z : Z) : Qc_of_Z z <= x -> (z <= Qfloor x)%Z.
Proof.
  intros Hz. apply Z.lt_succ_r. rewrite <- Z.add_1_r.
  apply Qc_of_Z_lt. eapply Qcle_lt_trans; [exact Hz|apply Qc_lt_floor].
Qed.

Lemma Qc_floor_lt (x : Qc) (z : Z) : x < Qc_of_Z z -> (Qfloor x < z)%Z.
Proof.
  intros Hz. apply Qc_of_Z_lt. eapply Qcle_lt_trans; [apply Qc_floor_le|exact Hz].
Qed.

Lemma Qc_floor_of_Z (z : Z) : Qfloor (Qc_of_Z z) = z.
Proof.
  rewrite (Qfloor_comp _ _ (Qc_of_Z_this z)). apply Qfloor_Z.
Qed.

(** Powers of two *)

Lemma pow2_pos (z : Z) : 0 < pow2 z.
Proof.
  unfold pow2. destruct (z <? 0)%Z eqn:Hz.
  - apply Z.ltb_lt in Hz.
    assert (Hp : 0 < Qc_of_Z (2 ^ (- z))) by (apply Qc_of_Z_pos; lia).
    unfold Qclt in *. unfold Qcinv. cbn [this Q2Qc]. rewrite !Qred_correct.
    apply Qinv_lt_0_compat. exact Hp.
  - apply Z.ltb_ge in Hz. apply Qc_of_Z_pos. lia.
Qed.

Lemma pow2_neq (z : Z) : pow2 z <> 0.
Proof.
  intros Hz. pose proof (pow2_pos z) as Hp. rewrite Hz in Hp.
  apply (Qclt_not_eq _ _ Hp). reflexivity.
Qed.

Lemma Qc_of_Z_pow2_neq (z : Z) : (0 <= z)%Z -> Qc_of_Z (2 ^ z) <> 0.
Proof.
  intros Hnn Hz. assert (Hp : 0 < Qc_of_Z (2 ^ z)) by (apply Qc_of_Z_pos; lia).
  rewrite Hz in Hp. apply (Qclt_not_eq _ _ Hp). reflexivity.
Qed.

Lemma pow2_succ (z : Z) : pow2 (z + 1) = Qc_of_Z 2 * pow2 z.
Proof.
  unfold pow2.
  destruct (z <? 0)%Z eqn:Hz; destruct (z + 1 <? 0)%Z eqn:Hz1;
    try apply Z.ltb_lt in Hz; try apply Z.ltb_ge in Hz;
    try apply Z.ltb_lt in Hz1; try apply Z.ltb_ge in Hz1; try lia.
  - replace (- z)%Z with (Z.succ (- (z + 1))) by lia.
    rewrite Z.pow_succ_r by lia. rewrite Qc_of_Z_mul.
    field. split; [apply Qc_of_Z_pow2_neq; lia|].
    apply (Qc_of_Z_pow2_neq 1). lia.
  - assert (z = (-1)%Z) by lia. subst z. simpl.
    apply Qc_is_canon. reflexivity.
  - rewrite Z.add_1_r, Z.pow_succ_r by lia. apply Qc_of_Z_mul.
Qed.

Lemma pow2_0 : pow2 0 = 1.
Proof. apply Qc_is_canon. reflexivity. Qed.

Lemma pow2_add (a b : Z) : pow2 (a + b) = pow2 a * pow2 b.
Proof.
  assert (Hnat : forall (n : nat) (x : Z),
             pow2 (x + Z.of_nat n) = pow2 x * pow2 (Z.of_nat n)).
  { induction n as [|n IH]; intros x.
    - simpl. rewrite Z.add_0_r, pow2_0. ring.
    - rewrite Nat2Z.inj_succ, <- Z.add_1_r, Z.add_assoc, !pow2_succ, IH. ring. }
  destruct (Z.le_gt_cases 0 b) as [Hb|Hb].
  - rewrite <- (Z2Nat.id b Hb). apply Hnat.
  - pose proof (Hnat (Z.to_nat (- b)) (a + b)%Z) as Hsum.
    pose proof (Hnat (Z.to_nat (- b)) b) as Hopp.
    rewrite Z2Nat.id in Hsum, Hopp by lia.
    replace (a + b + - b)%Z with a in Hsum by lia.
    replace (b + - b)%Z with 0%Z in Hopp by lia.
    rewrite pow2_0 in Hopp. rewrite Hsum.
    transitivity (pow2 (a + b) * (pow2 b * pow2 (- b))); [|ring].
    rewrite <- Hopp. ring.
Qed.

Lemma pow2_lt (a b : Z) : (a < b)%Z -> pow2 a < pow2 b.
Proof.
  intros Hab. replace b with (a + (b - a))%Z by lia. rewrite pow2_add.
  rewrite <- (Qcmult_1_r (pow2 a)) at 1.
  rewrite !(Qcmult_comm (pow2 a)).
  apply Qcmult_lt_compat_r; [apply pow2_pos|].
  unfold pow2. destruct (b - a <? 0)%Z eqn:Hneg; [apply Z.ltb_lt in Hneg; lia|].
  rewrite <- Qc_of_Z_1. apply Qc_of_Z_lt.
  apply Z.pow_gt_1; lia.
Qed.

Lemma pow2_le (a b : Z) : (a <= b)%Z -> pow2 a <= pow2 b.
Proof.
  intros Hab. destruct (Z.eq_dec a b) as [->|Hne]; [apply Qcle_refl|].
  apply Qclt_le_weak, pow2_lt. lia.
Qed.

Lemma pow2_lt_inv (a b : Z) : pow2 a < pow2 b -> (a < b)%Z.
Proof.
  intros Hlt. destruct (Z.lt_ge_cases a b) as [Hab|Hab]; [exact Hab|].
  exfalso. apply (Qcle_not_lt _ _ (pow2_le _ _ Hab) Hlt).
Qed.

Lemma pow2_nonneg (z : Z) : (0 <= z)%Z -> pow2 z = Qc_of_Z (2 ^ z).
Proof.
  intros Hz. unfold pow2.
  destruct (z <? 0)%Z eqn:Hneg; [apply Z.ltb_lt in Hneg; lia|reflexivity].
Qed.

(** Multiplying out *)

Lemma Qc_lt_by_mul (x y z : Qc) : 0 < z -> x * z < y * z -> x < y.
Proof.
  intros Hz Hlt. destruct (Qclt_le_dec x y) as [Hxy|Hxy]; [exact Hxy|].
  exfalso. apply (Qcle_not_lt (y * z) (x * z)); [|exact Hlt].
  apply Qcmult_le_compat_r; [exact Hxy|apply Qclt_le_weak, Hz].
Qed.

Lemma Qc_le_by_mul (x y z : Qc) : 0 < z -> x * z <= y * z -> x <= y.
Proof. intros Hz Hle. eapply Qcmult_lt_0_le_reg_r; eassumption. Qed.

Lemma Qc_ltb_false (a b : Qc) : Qc_ltb a b = false <-> b <= a.
Proof.
  unfold Qc_ltb. destruct (Qclt_le_dec a b) as [Hlt|Hle]; split; auto.
  - discriminate.
  - intros Hle. exfalso. apply (Qcle_not_lt _ _ Hle Hlt).
Qed.

Lemma Qc_num_den (q : Qc) :
  q * Qc_of_Z (Zpos (Qden q)) = Qc_of_Z (Qnum q).
Proof.
  apply Qc_is_canon. unfold Qcmult. cbn [this Q2Qc].
  rewrite Qred_correct, !Qc_of_Z_this.
  destruct q as [[n d] Hcanon]. cbn [this Qnum Qden].
  unfold Qeq, Qmult, inject_Z. simpl. lia.
Qed.

Lemma Qc_num_pos (q : Qc) : 0 < q -> (0 < Qnum q)%Z.
Proof.
  unfold Qclt, Qlt. simpl. lia.
Qed.

(** The binary exponent *)

Lemma ilog2_spec (q : Qc) :
  0 < q -> pow2 (ilog2 q) <= q /\ q < pow2 (ilog2 q + 1).
Proof.
  intros Hq. pose proof (Qc_num_pos q Hq) as Hn.
  pose proof (Qc_num_den q) as Hnd.
  set (n := Qnum q) in *. set (d := Zpos (Qden q)) in *.
  assert (Hd : (0 < d)%Z) by (unfold d; lia).
  destruct (Z.log2_spec n Hn) as [Hn1 Hn2].
  destruct (Z.log2_spec d Hd) as [Hd1 Hd2].
  pose proof (Z.log2_nonneg n) as Ha. pose proof (Z.log2_nonneg d) as Hb.
  set (a := Z.log2 n) in *. set (b := Z.log2 d) in *.
  assert (HD : 0 < Qc_of_Z d) by (apply Qc_of_Z_pos; exact Hd).
  assert (Hlow : pow2 (a - b - 1) < q).
  { apply (Qc_lt_by_mul _ _ (Qc_of_Z d) HD). rewrite Hnd.
    apply Qclt_le_trans with (pow2 (a - b - 1) * pow2 (b + 1)).
    - rewrite !(Qcmult_comm (pow2 (a - b - 1))).
      apply Qcmult_lt_compat_r; [apply pow2_pos|].
      rewrite pow2_nonneg by lia. apply Qc_of_Z_lt.
      rewrite <- Z.add_1_r in Hd2. exact Hd2.
    - rewrite <- pow2_add. replace (a - b - 1 + (b + 1))%Z with a by lia.
      rewrite pow2_nonneg by lia. apply Qc_of_Z_le. exact Hn1. }
  assert (Hhigh : q < pow2 (a - b + 1)).
  { apply (Qc_lt_by_mul _ _ (Qc_of_Z d) HD). rewrite Hnd.
    apply Qclt_le_trans with (pow2 (a - b + 1) * pow2 b).
    - rewrite <- pow2_add. replace (a - b + 1 + b)%Z with (a + 1)%Z by lia.
      rewrite pow2_nonneg by lia. apply Qc_of_Z_lt.
      rewrite <- Z.add_1_r in Hn2. exact Hn2.
    - rewrite !(Qcmult_comm (pow2 (a - b + 1))).
      apply Qcmult_le_compat_r; [|apply Qclt_le_weak, pow2_pos].
      rewrite pow2_nonneg by lia. apply Qc_of_Z_le. exact Hd1. }
  unfold ilog2. fold n d a b.
  destruct (Qc_ltb q (pow2 (a - b))) eqn:Hcmp.
  - apply Qc_ltb_lt in Hcmp. split.
    + apply Qclt_le_weak. exact Hlow.
    + replace (a - b - 1 + 1)%Z with (a - b)%Z by lia. exact Hcmp.
  - apply Qc_ltb_false in Hcmp. split; assumption.
Qed.

Lemma ilog2_unique (q : Qc) (e : Z) :
  pow2 e <= q -> q < pow2 (e + 1) -> ilog2 q = e.
Proof.
  intros Hlo Hhi.
  assert (Hq : 0 < q) by (eapply Qclt_le_trans; [apply pow2_pos|exact Hlo]).
  destruct (ilog2_spec q Hq) as [Hlo' Hhi'].
  pose proof (pow2_lt_inv _ _ (Qcle_lt_trans _ _ _ Hlo' Hhi)) as Hlt1.
  pose proof (pow2_lt_inv _ _ (Qcle_lt_trans _ _ _ Hlo Hhi')) as Hlt2.
  lia.
Qed.

Lemma ilog2_monotone (x y : Qc) : 0 < x -> x <= y -> (ilog2 x <= ilog2 y)%Z.
Proof.
  intros Hx Hxy.
  destruct (ilog2_spec x Hx) as [Hlo _].
  destruct (ilog2_spec y (Qclt_le_trans _ _ _ Hx Hxy)) as [_ Hhi].
  pose proof (pow2_lt_inv _ _
                (Qcle_lt_trans _ _ _ (Qcle_trans _ _ _ Hlo Hxy) Hhi)).
  lia.
Qed.

(** Rounding to the nearest integer, ties to even *)

Lemma round_half_even_bounds (x : Qc) :
  (Qfloor x <= round_half_even x <= Qfloor x + 1)%Z.
Proof.
  unfold round_half_even.
  destruct (Qccompare (x - Qc_of_Z (Qfloor x)) (Q2Qc (1 # 2)));
    [destruct (Z.even (Qfloor x))| |]; lia.
Qed.

Lemma round_half_even_of_Z (k : Z) : round_half_even (Qc_of_Z k) = k.
Proof.
  unfold round_half_even. rewrite Qc_floor_of_Z.
  replace (Qc_of_Z k - Qc_of_Z k) with 0 by ring. reflexivity.
Qed.

Lemma Qccompare_Lt (p q : Qc) : Qccompare p q = Lt <-> p < q.
Proof. symmetry. apply Qclt_alt. Qed.

Lemma Qccompare_Gt (p q : Qc) : Qccompare p q = Gt <-> q < p.
Proof. symmetry. apply Qcgt_alt. Qed.

Lemma Qccompare_Eq (p q : Qc) : Qccompare p q = Eq <-> p = q.
Proof. symmetry. apply Qceq_alt. Qed.

Lemma Qccompare_monotone (p q h : Qc) :
  p <= q ->
  match Qccompare p h, Qccompare q h with
  | Eq, Lt | Gt, Eq | Gt, Lt => False
  | _, _ => True
  end.
Proof.
  intros Hr.
  destruct (Qccompare p h) eqn:Cx; destruct (Qccompare q h) eqn:Cy;
    try exact I.
  - apply Qccompare_Eq in Cx. apply Qccompare_Lt in Cy.
    rewrite Cx in Hr. apply (Qcle_not_lt _ _ Hr Cy).
  - apply Qccompare_Gt in Cx. apply Qccompare_Eq in Cy.
    rewrite Cy in Hr. apply (Qcle_not_lt _ _ Hr Cx).
  - apply Qccompare_Gt in Cx. apply Qccompare_Lt in Cy.
    apply (Qcle_not_lt _ _ Hr). eapply Qclt_trans; eassumption.
Qed.

Lemma round_half_even_monotone (x y : Qc) :
  x <= y -> (round_half_even x <= round_half_even y)%Z.
Proof.
  intros Hxy.
  assert (Hf : (Qfloor x <= Qfloor y)%Z) by (apply Qfloor_resp_le; exact Hxy).
  destruct (Z.eq_dec (Qfloor x) (Qfloor y)) as [Heq|Hne].
  - unfold round_half_even. rewrite <- Heq.
    assert (Hr : x - Qc_of_Z (Qfloor x) <= y - Qc_of_Z (Qfloor x)).
    { unfold Qcminus. rewrite !(Qcplus_comm _ (- _)).
      apply Qcplus_le_compat; [apply Qcle_refl|exact Hxy]. }
    pose proof (Qccompare_monotone _ _ (Q2Qc (1 # 2)) Hr) as Hc.
    destruct (Qccompare (x - Qc_of_Z (Qfloor x)) (Q2Qc (1 # 2)));
      destruct (Qccompare (y - Qc_of_Z (Qfloor x)) (Q2Qc (1 # 2)));
      try contradiction; try (destruct (Z.even (Qfloor x))); lia.
  - pose proof (round_half_even_bounds x). pose proof (round_half_even_bounds y).
    lia.
Qed.

(** binary64 rounding of a positive rational *)

Lemma pow2_opp (u : Z) : pow2 u * pow2 (- u) = 1.
Proof.
  rewrite <- pow2_add. replace (u + - u)%Z with 0%Z by lia. apply pow2_0.
Qed.

Lemma div_pow2 (q : Qc) (u : Z) : q / pow2 u = q * pow2 (- u).
Proof.
  unfold Qcdiv. f_equal.
  transitivity (pow2 (- u) * (pow2 u * / pow2 u)).
  - rewrite Qcmult_assoc, (Qcmult_comm (pow2 (- u))), pow2_opp. ring.
  - rewrite Qcmult_inv_r by apply pow2_neq. ring.
Qed.

Lemma Qc_add_lt_r (x y z : Qc) : x < y -> x + z < y + z.
Proof.
  intros Hxy. unfold Qclt, Qcplus in *. cbn [this Q2Qc].
  rewrite !Qred_correct. apply Qplus_lt_l. exact Hxy.
Qed.

Lemma Qc_opp_lt (x y : Qc) : x < y -> - y < - x.
Proof.
  intros Hxy. unfold Qclt, Qcopp in *. cbn [this Q2Qc].
  rewrite !Qred_correct. apply Qopp_lt_compat. exact Hxy.
Qed.

Lemma pow2_52 : pow2 52 = Qc_of_Z (2 ^ 52).
Proof. apply pow2_nonneg. lia. Qed.

Lemma pow2_53 : pow2 53 = Qc_of_Z (2 ^ 53).
Proof. apply pow2_nonneg. lia. Qed.

Lemma pow2_shift (a b : Z) : pow2 (b + a) = pow2 a * pow2 b.
Proof. rewrite Z.add_comm. apply pow2_add. Qed.

Lemma Qc_mul_le_r (x y z : Qc) : 0 < z -> x <= y -> x * z <= y * z.
Proof.
  intros Hz Hxy. apply Qcmult_le_compat_r; [exact Hxy|apply Qclt_le_weak, Hz].
Qed.

Lemma Qc_mul_lt_r (x y z : Qc) : 0 < z -> x < y -> x * z < y * z.
Proof. intros Hz Hxy. apply Qcmult_lt_compat_r; assumption. Qed.

Lemma Qc_lt_le_cases (x : Qc) : 0 <= x -> x = 0 \/ 0 < x.
Proof.
  intros Hx. destruct (Qc_eq_dec x 0) as [Hz|Hne]; [left; exact Hz|right].
  destruct (Qclt_le_dec 0 x) as [Hlt|Hle]; [exact Hlt|].
  exfalso. apply Hne. apply Qcle_antisym; assumption.
Qed.

(** The exponent of the last place: that of the value in the normal
    range, that of the least subnormal below it. *)
Lemma ulp_exponent_ge (q : Qc) : (- 1074 <= ulp_exponent q)%Z.
Proof. unfold ulp_exponent. lia. Qed.

Lemma ulp_exponent_ilog2 (q : Qc) : (ilog2 q - 52 <= ulp_exponent q)%Z.
Proof. unfold ulp_exponent. lia. Qed.

Lemma ilog2_normal (q : Qc) : pow2 (- 1022) <= q -> (- 1022 <= ilog2 q)%Z.
Proof.
  intros Hq.
  assert (Hpos : 0 < q) by (eapply Qclt_le_trans; [apply pow2_pos|exact Hq]).
  destruct (ilog2_spec q Hpos) as [_ Hhi].
  pose proof (pow2_lt_inv _ _ (Qcle_lt_trans _ _ _ Hq Hhi)). lia.
Qed.

Lemma ulp_exponent_normal (q : Qc) :
  pow2 (- 1022) <= q -> ulp_exponent q = (ilog2 q - 52)%Z.
Proof. intros Hq. pose proof (ilog2_normal q Hq). unfold ulp_exponent. lia. Qed.

Lemma ulp_exponent_subnormal (q : Qc) :
  0 < q -> q < pow2 (- 1022) -> ulp_exponent q = (- 1074)%Z.
Proof.
  intros Hpos Hq. destruct (ilog2_spec q Hpos) as [Hlo _].
  pose proof (pow2_lt_inv _ _ (Qcle_lt_trans _ _ _ Hlo Hq)).
  unfold ulp_exponent. lia.
Qed.

Lemma ulp_exponent_monotone (x y : Qc) :
  0 < x -> x <= y -> (ulp_exponent x <= ulp_exponent y)%Z.
Proof.
  intros Hx Hxy. pose proof (ilog2_monotone x y Hx Hxy).
  unfold ulp_exponent. lia.
Qed.

Lemma scaled_upper (q : Qc) :
  0 < q -> q / pow2 (ulp_exponent q) < Qc_of_Z (2 ^ 53).
Proof.
  intros Hq. destruct (ilog2_spec q Hq) as [_ Hhi].
  pose proof (ulp_exponent_ilog2 q) as Hu.
  rewrite div_pow2. rewrite <- pow2_53.
  replace (pow2 53)
    with (pow2 (ulp_exponent q + 53) * pow2 (- ulp_exponent q))
    by (rewrite <- pow2_add; f_equal; lia).
  apply Qc_mul_lt_r; [apply pow2_pos|].
  eapply Qclt_le_trans; [exact Hhi|]. apply pow2_le. lia.
Qed.

Lemma scaled_lower (q : Qc) :
  pow2 (- 1022) <= q -> Qc_of_Z (2 ^ 52) <= q / pow2 (ulp_exponent q).
Proof.
  intros Hq.
  assert (Hpos : 0 < q) by (eapply Qclt_le_trans; [apply pow2_pos|exact Hq]).
  destruct (ilog2_spec q Hpos) as [Hlo _].
  rewrite (ulp_exponent_normal q Hq), div_pow2, <- pow2_52.
  replace (pow2 52) with (pow2 (ilog2 q) * pow2 (- (ilog2 q - 52)))
    by (rewrite <- pow2_add; f_equal; lia).
  apply Qc_mul_le_r; [apply pow2_pos|exact Hlo].
Qed.

Lemma scaled_pos (q : Qc) (u : Z) : 0 < q -> 0 < q / pow2 u.
Proof.
  intros Hq. rewrite div_pow2. replace 0 with (0 * pow2 (- u)) by ring.
  apply Qc_mul_lt_r; [apply pow2_pos|exact Hq].
Qed.

Lemma mantissa_upper (q : Qc) :
  0 < q ->
  (0 <= round_half_even (q / pow2 (ulp_exponent q)) <= 2 ^ 53)%Z.
Proof.
  intros Hq. pose proof (scaled_upper q Hq) as Hhi.
  pose proof (scaled_pos q (ulp_exponent q) Hq) as Hlo.
  pose proof (round_half_even_bounds (q / pow2 (ulp_exponent q))) as Hb.
  assert (Hzero : Qc_of_Z 0 <= q / pow2 (ulp_exponent q))
    by (rewrite Qc_of_Z_0; apply Qclt_le_weak, Hlo).
  pose proof (Qc_floor_ge _ _ Hzero). pose proof (Qc_floor_lt _ _ Hhi). lia.
Qed.

Lemma mantissa_lower (q : Qc) :
  pow2 (- 1022) <= q ->
  (2 ^ 52 <= round_half_even (q / pow2 (ulp_exponent q)))%Z.
Proof.
  intros Hq. pose proof (scaled_lower q Hq) as Hlo.
  pose proof (round_half_even_bounds (q / pow2 (ulp_exponent q))) as Hb.
  pose proof (Qc_floor_ge _ _ Hlo). lia.
Qed.

Lemma round_pos_nonneg (q : Qc) : 0 < q -> 0 <= round_pos q.
Proof.
  intros Hq. pose proof (mantissa_upper q Hq) as [Hlo _].
  unfold round_pos. cbv zeta.
  replace 0 with (0 * pow2 (ulp_exponent q)) by ring.
  apply Qc_mul_le_r; [apply pow2_pos|].
  rewrite <- Qc_of_Z_0. apply Qc_of_Z_le. exact Hlo.
Qed.

Lemma round_pos_upper (q : Qc) :
  0 < q -> round_pos q <= pow2 (ulp_exponent q + 53).
Proof.
  intros Hq. pose proof (mantissa_upper q Hq) as [_ Hhi].
  unfold round_pos. cbv zeta. rewrite pow2_shift, pow2_53.
  apply Qc_mul_le_r; [apply pow2_pos|]. apply Qc_of_Z_le. exact Hhi.
Qed.

Lemma round_pos_lower (q : Qc) :
  pow2 (- 1022) <= q -> pow2 (ilog2 q) <= round_pos q.
Proof.
  intros Hq. pose proof (mantissa_lower q Hq) as Hlo.
  unfold round_pos. cbv zeta.
  replace (pow2 (ilog2 q)) with (pow2 52 * pow2 (ulp_exponent q))
    by (rewrite <- pow2_add, (ulp_exponent_normal q Hq); f_equal; lia).
  rewrite pow2_52. apply Qc_mul_le_r; [apply pow2_pos|].
  apply Qc_of_Z_le. exact Hlo.
Qed.

(** A positive binary64 value: a mantissa of 53 bits times a power of 2
    in the normal range, a shorter mantissa times [2^-1074] below it. *)
Lemma ilog2_float (m u : Z) :
  (2 ^ 52 <= m < 2 ^ 53)%Z -> ilog2 (Qc_of_Z m * pow2 u) = (u + 52)%Z.
Proof.
  intros [Hlo Hhi]. pose proof (pow2_pos u) as Hp.
  apply ilog2_unique.
  - rewrite pow2_shift, pow2_52.
    apply Qc_mul_le_r; [exact Hp|]. apply Qc_of_Z_le, Hlo.
  - replace (u + 52 + 1)%Z with (u + 53)%Z by lia. rewrite pow2_shift, pow2_53.
    apply Qc_mul_lt_r; [exact Hp|]. apply Qc_of_Z_lt, Hhi.
Qed.

Lemma ulp_exponent_float (m u : Z) :
  (2 ^ 52 <= m < 2 ^ 53)%Z -> (- 1074 <= u)%Z ->
  ulp_exponent (Qc_of_Z m * pow2 u) = u.
Proof.
  intros Hm Hu. unfold ulp_exponent. rewrite (ilog2_float m u Hm). lia.
Qed.

Lemma round_pos_at (q : Qc) (m u : Z) :
  ulp_exponent q = u -> q = Qc_of_Z m * pow2 u -> round_pos q = q.
Proof.
  intros Hu Hq. unfold round_pos. cbv zeta. rewrite Hu.
  replace (q / pow2 u) with (Qc_of_Z m)
    by (rewrite Hq; field; apply pow2_neq).
  rewrite round_half_even_of_Z. symmetry. exact Hq.
Qed.

Lemma round_pos_float (m u : Z) :
  (2 ^ 52 <= m < 2 ^ 53)%Z -> (- 1074 <= u)%Z ->
  round_pos (Qc_of_Z m * pow2 u) = Qc_of_Z m * pow2 u.
Proof.
  intros Hm Hu. apply (round_pos_at _ m u); [|reflexivity].
  apply ulp_exponent_float; assumption.
Qed.

Lemma round_pos_subnormal (m : Z) :
  (0 < m < 2 ^ 52)%Z ->
  round_pos (Qc_of_Z m * pow2 (- 1074)) = Qc_of_Z m * pow2 (- 1074).
Proof.
  intros [Hlo Hhi]. apply (round_pos_at _ m (- 1074)); [|reflexivity].
  apply ulp_exponent_subnormal.
  - replace 0 with (0 * pow2 (- 1074)) by ring.
    apply Qc_mul_lt_r; [apply pow2_pos|]. apply Qc_of_Z_pos. exact Hlo.
  - replace (pow2 (- 1022)) with (pow2 52 * pow2 (- 1074))
      by (rewrite <- pow2_add; reflexivity).
    rewrite pow2_52. apply Qc_mul_lt_r; [apply pow2_pos|].
    apply Qc_of_Z_lt. exact Hhi.
Qed.

Lemma round_pos_float_top (u : Z) :
  (- 1074 <= u)%Z ->
  round_pos (Qc_of_Z (2 ^ 53) * pow2 u) = Qc_of_Z (2 ^ 53) * pow2 u.
Proof.
  intros Hu.
  replace (Qc_of_Z (2 ^ 53) * pow2 u) with (Qc_of_Z (2 ^ 52) * pow2 (u + 1)).
  - apply round_pos_float; lia.
  - rewrite pow2_succ. change (2 ^ 53)%Z with (2 ^ 52 * 2)%Z.
    rewrite Qc_of_Z_mul. ring.
Qed.

Lemma round_pos_0 : round_pos 0 = 0.
Proof. apply Qc_is_canon. vm_compute. reflexivity. Qed.

Lemma round_pos_idempotent (q : Qc) :
  0 < q -> round_pos (round_pos q) = round_pos q.
Proof.
  intros Hq. pose proof (mantissa_upper q Hq) as [Hlo Hhi].
  pose proof (ulp_exponent_ge q) as Hu.
  destruct (Qclt_le_dec q (pow2 (- 1022))) as [Hsub|Hnormal].
  - pose proof (ulp_exponent_subnormal q Hq Hsub) as Hu'.
    unfold round_pos at 2 3. cbv zeta. rewrite Hu' in *.
    set (m := round_half_even (q / pow2 (- 1074))) in *.
    destruct (Z.eq_dec m 0) as [->|Hm0].
    { rewrite Qc_of_Z_0. replace (0 * pow2 (- 1074)) with 0 by ring.
      apply round_pos_0. }
    destruct (Z.lt_ge_cases m (2 ^ 52)) as [Hm|Hm].
    + apply round_pos_subnormal. lia.
    + destruct (Z.eq_dec m (2 ^ 53)) as [->|Hne].
      * apply round_pos_float_top. lia.
      * apply round_pos_float; lia.
  - pose proof (mantissa_lower q Hnormal) as Hlo'.
    unfold round_pos at 2 3. cbv zeta.
    set (m := round_half_even (q / pow2 (ulp_exponent q))) in *.
    destruct (Z.eq_dec m (2 ^ 53)) as [->|Hne].
    + apply round_pos_float_top. exact Hu.
    + apply round_pos_float; lia.
Qed.

Lemma round_pos_monotone (x y : Qc) :
  0 < x -> x <= y -> round_pos x <= round_pos y.
Proof.
  intros Hx Hxy. assert (Hy : 0 < y) by (eapply Qclt_le_trans; eassumption).
  pose proof (ulp_exponent_monotone x y Hx Hxy) as He.
  destruct (Z.eq_dec (ulp_exponent x) (ulp_exponent y)) as [Heq|Hne].
  - unfold round_pos. cbv zeta. rewrite Heq.
    apply Qc_mul_le_r; [apply pow2_pos|]. apply Qc_of_Z_le.
    apply round_half_even_monotone. rewrite !div_pow2.
    apply Qc_mul_le_r; [apply pow2_pos|exact Hxy].
  - assert (Hnormal : pow2 (- 1022) <= y).
    { destruct (Qclt_le_dec y (pow2 (- 1022))) as [Hsub|Hn]; [|exact Hn].
      pose proof (ulp_exponent_subnormal y Hy Hsub).
      pose proof (ulp_exponent_ge x). lia. }
    eapply Qcle_trans; [apply (round_pos_upper x Hx)|].
    eapply Qcle_trans; [|apply (round_pos_lower y Hnormal)].
    apply pow2_le. rewrite (ulp_exponent_normal y Hnormal) in *. lia.
Qed.

(** A positive rational below the midpoint of a binary64 value and its
    successor is not rounded above that value. *)
Lemma round_pos_below_midpoint (m u : Z) (q : Qc) :
  (2 ^ 52 <= m < 2 ^ 53)%Z -> (- 1074 <= u)%Z -> 0 < q ->
  q < (Qc_of_Z m + Q2Qc (1 # 2)) * pow2 u ->
  round_pos q <= Qc_of_Z m * pow2 u.
Proof.
  intros Hm Hu Hq Hmid. pose proof (pow2_pos u) as Hp.
  destruct (Qclt_le_dec (Qc_of_Z m * pow2 u) q) as [Habove|Hbelow].
  - assert (He : ilog2 q = (u + 52)%Z).
    { apply ilog2_unique.
      - apply Qclt_le_weak. eapply Qcle_lt_trans; [|exact Habove].
        rewrite pow2_shift, pow2_52. apply Qc_mul_le_r; [exact Hp|].
        apply Qc_of_Z_le. lia.
      - eapply Qclt_le_trans; [exact Hmid|].
        replace (u + 52 + 1)%Z with (u + 53)%Z by lia.
        rewrite pow2_shift, pow2_53. apply Qc_mul_le_r; [exact Hp|].
        apply Qcle_trans with (Qc_of_Z m + 1).
        + apply Qcplus_le_compat; [apply Qcle_refl|]. discriminate.
        + rewrite <- Qc_of_Z_1, <- Qc_of_Z_add. apply Qc_of_Z_le. lia. }
    assert (Hue : ulp_exponent q = u) by (unfold ulp_exponent; lia).
    unfold round_pos. cbv zeta. rewrite Hue.
    apply Qc_mul_le_r; [exact Hp|]. apply Qc_of_Z_le.
    set (s := q / pow2 u).
    assert (Hs1 : Qc_of_Z m < s).
    { unfold s. rewrite div_pow2.
      replace (Qc_of_Z m) with (Qc_of_Z m * pow2 u * pow2 (- u))
        by (rewrite <- Qcmult_assoc, pow2_opp; ring).
      apply Qc_mul_lt_r; [apply pow2_pos|exact Habove]. }
    assert (Hs2 : s < Qc_of_Z m + Q2Qc (1 # 2)).
    { unfold s. rewrite div_pow2.
      replace (Qc_of_Z m + Q2Qc (1 # 2))
        with ((Qc_of_Z m + Q2Qc (1 # 2)) * pow2 u * pow2 (- u))
        by (rewrite <- Qcmult_assoc, pow2_opp; ring).
      apply Qc_mul_lt_r; [apply pow2_pos|exact Hmid]. }
    assert (Hfloor : Qfloor s = m).
    { pose proof (Qc_floor_ge s m (Qclt_le_weak _ _ Hs1)).
      assert (Hs3 : s < Qc_of_Z (m + 1)).
      { eapply Qclt_trans; [exact Hs2|]. rewrite Qc_of_Z_add, Qc_of_Z_1.
        rewrite !(Qcplus_comm (Qc_of_Z m)).
        apply Qc_add_lt_r. reflexivity. }
      pose proof (Qc_floor_lt s (m + 1) Hs3). lia. }
    unfold round_half_even. rewrite Hfloor.
    assert (Hfrac : Qccompare (s - Qc_of_Z m) (Q2Qc (1 # 2)) = Lt).
    { apply Qccompare_Lt.
      replace (Q2Qc (1 # 2)) with (Qc_of_Z m + Q2Qc (1 # 2) - Qc_of_Z m) by ring.
      unfold Qcminus. apply Qc_add_lt_r. exact Hs2. }
    rewrite Hfrac. lia.
  - rewrite <- (round_pos_float m u Hm Hu).
    apply round_pos_monotone; assumption.
Qed.

(** A positive integer below [2^53] is a binary64 value. *)
Lemma Z_float (k : Z) :
  (1 <= k < 2 ^ 53)%Z ->
  exists m u : Z,
    (2 ^ 52 <= m < 2 ^ 53)%Z /\ (- 52 <= u)%Z /\
    Qc_of_Z k = Qc_of_Z m * pow2 u.
Proof.
  intros [Hlo Hhi]. assert (Hk : (0 < k)%Z) by lia.
  destruct (Z.log2_spec k Hk) as [He1 He2].
  pose proof (Z.log2_nonneg k) as Henn.
  set (e := Z.log2 k) in *.
  assert (He : (e <= 52)%Z).
  { destruct (Z.le_gt_cases e 52) as [Hle|Hgt]; [exact Hle|]. exfalso.
    assert ((2 ^ 53 <= 2 ^ e)%Z) by (apply Z.pow_le_mono_r; lia). lia. }
  assert (Hpow : (2 ^ e * 2 ^ (52 - e) = 2 ^ 52)%Z).
  { rewrite <- Z.pow_add_r by lia. f_equal. lia. }
  assert (Hpow' : (2 ^ Z.succ e * 2 ^ (52 - e) = 2 ^ 53)%Z).
  { rewrite <- Z.pow_add_r by lia. f_equal. lia. }
  assert (Hp : (0 < 2 ^ (52 - e))%Z) by (apply Z.pow_pos_nonneg; lia).
  exists (k * 2 ^ (52 - e))%Z, (e - 52)%Z.
  split; [nia|]. split; [lia|].
  rewrite Qc_of_Z_mul, <- (pow2_nonneg (52 - e)) by lia.
  rewrite <- Qcmult_assoc.
  replace (e - 52)%Z with (- (52 - e))%Z by lia.
  rewrite pow2_opp. ring.
Qed.

Lemma round_pos_of_Z (k : Z) :
  (1 <= k <= 2 ^ 53)%Z -> round_pos (Qc_of_Z k) = Qc_of_Z k.
Proof.
  intros [Hlo Hhi].
  destruct (Z.eq_dec k (2 ^ 53)) as [->|Hne].
  - rewrite <- (Qcmult_1_r (Qc_of_Z (2 ^ 53))), <- pow2_0.
    apply round_pos_float_top. lia.
  - destruct (Z_float k) as [m [u [Hm [Hu Hk]]]]; [lia|].
    rewrite Hk. apply round_pos_float; [exact Hm|lia].
Qed.

(** binary64 rounding *)

Lemma round64_pos (q : Qc) : 0 < q -> round64 q = round_pos q.
Proof.
  intros Hq. unfold round64.
  pose proof (Qc_pos_neq q Hq) as Hne. apply Qc_eqb_neq in Hne.
  rewrite Hne. apply Qc_ltb_lt in Hq. now rewrite Hq.
Qed.

Lemma round64_0 : round64 0 = 0.
Proof. reflexivity. Qed.

Lemma round64_nonneg (q : Qc) : 0 <= q -> 0 <= round64 q.
Proof.
  intros Hq. destruct (Qc_lt_le_cases q Hq) as [->|Hpos].
  - rewrite round64_0. apply Qcle_refl.
  - rewrite round64_pos by exact Hpos. now apply round_pos_nonneg.
Qed.

Lemma round64_monotone (x y : Qc) :
  0 <= x -> x <= y -> round64 x <= round64 y.
Proof.
  intros Hx Hxy. destruct (Qc_lt_le_cases x Hx) as [->|Hpos].
  - rewrite round64_0. apply round64_nonneg. exact Hxy.
  - rewrite !round64_pos;
      [now apply round_pos_monotone| |exact Hpos].
    eapply Qclt_le_trans; eassumption.
Qed.

Lemma Qcopp_pos (q : Qc) : q < 0 -> 0 < - q.
Proof.
  intros Hq. replace 0 with (- 0) by ring. apply Qc_opp_lt. exact Hq.
Qed.

Lemma round64_neg (q : Qc) : q < 0 -> round64 q = - round_pos (- q).
Proof.
  intros Hq. unfold round64.
  assert (Hne : q <> 0).
  { intros Hz. subst q. apply (Qclt_not_eq _ _ Hq). reflexivity. }
  apply Qc_eqb_neq in Hne. rewrite Hne.
  assert (Hlt : Qc_ltb 0 q = false).
  { apply Qc_ltb_false. apply Qclt_le_weak, Hq. }
  now rewrite Hlt.
Qed.

Lemma round64_idempotent_nonneg (q : Qc) :
  0 <= q -> round64 (round64 q) = round64 q.
Proof.
  intros Hq. destruct (Qc_lt_le_cases q Hq) as [->|Hpos]; [reflexivity|].
  rewrite (round64_pos q Hpos).
  destruct (Qc_lt_le_cases _ (round_pos_nonneg q Hpos)) as [Hz|Hr].
  - rewrite Hz. reflexivity.
  - rewrite round64_pos by exact Hr. apply round_pos_idempotent. exact Hpos.
Qed.

Lemma round64_opp (q : Qc) : round64 (- q) = - round64 q.
Proof.
  destruct (Qc_eq_dec q 0) as [->|Hne]; [reflexivity|].
  destruct (Qclt_le_dec 0 q) as [Hpos|Hle].
  - assert (Hneg : - q < 0).
    { replace 0 with (- 0) by ring. apply Qc_opp_lt. exact Hpos. }
    rewrite (round64_neg _ Hneg), (round64_pos q Hpos).
    now replace (- - q) with q by ring.
  - assert (Hneg : q < 0).
    { destruct (Qclt_le_dec q 0) as [Hlt|Hge]; [exact Hlt|].
      exfalso. apply Hne. apply Qcle_antisym; assumption. }
    rewrite (round64_neg q Hneg), (round64_pos _ (Qcopp_pos q Hneg)). ring.
Qed.

Lemma round64_idempotent (q : Qc) : round64 (round64 q) = round64 q.
Proof.
  destruct (Qclt_le_dec q 0) as [Hneg|Hnn].
  - replace q with (- - q) by ring. rewrite !(round64_opp (- q)), round64_opp.
    f_equal. apply round64_idempotent_nonneg.
    apply Qclt_le_weak, Qcopp_pos, Hneg.
  - apply round64_idempotent_nonneg. exact Hnn.
Qed.

Lemma round64_of_Z (k : Z) :
  (0 <= k <= 2 ^ 53)%Z -> round64 (Qc_of_Z k) = Qc_of_Z k.
Proof.
  intros [Hlo Hhi]. destruct (Z.eq_dec k 0) as [->|Hne]; [reflexivity|].
  rewrite round64_pos by (apply Qc_of_Z_pos; lia).
  apply round_pos_of_Z. lia.
Qed.

Lemma round64_pow2 (z : Z) : (- 1022 <= z)%Z -> round64 (pow2 z) = pow2 z.
Proof.
  intros Hz. rewrite round64_pos by apply pow2_pos.
  replace (pow2 z) with (Qc_of_Z (2 ^ 52) * pow2 (z - 52)).
  - apply round_pos_float; lia.
  - rewrite <- pow2_52, <- pow2_add. f_equal. lia.
Qed.

Lemma round64_1 : round64 1 = 1.
Proof. rewrite <- pow2_0. apply round64_pow2. lia. Qed.

(** Arithmetic through the underlying rationals *)

Lemma this_plus (a b : Qc) : (this (a + b) == this a + this b)%Q.
Proof. unfold Qcplus. cbn [this Q2Qc]. apply Qred_correct. Qed.

Lemma this_mult (a b : Qc) : (this (a * b) == this a * this b)%Q.
Proof. unfold Qcmult. cbn [this Q2Qc]. apply Qred_correct. Qed.

Lemma this_Q2Qc (q : Q) : (this (Q2Qc q) == q)%Q.
Proof. cbn [this Q2Qc]. apply Qred_correct. Qed.

Lemma Qceiling_le_of_Z (x : Qc) (z : Z) :
  x <= Qc_of_Z z -> (Qceiling x <= z)%Z.
Proof.
  intros Hx. destruct (Z.le_gt_cases (Qceiling x) z) as [Hc|Hc]; [exact Hc|].
  exfalso. apply (Qcle_not_lt _ _ Hx). apply Qc_of_Z_lt_ceiling. exact Hc.
Qed.

(** The midpoint below 1 *)

Lemma below_one_constant :
  (Qc_of_Z (2 ^ 53 - 1) + Q2Qc (1 # 2)) * pow2 (- 53)
  = Q2Qc (18014398509481983 # 18014398509481984).
Proof. apply Qc_is_canon. vm_compute. reflexivity. Qed.

Lemma midpoint_arith (M w : Qc) :
  0 < M -> M <= Qc_of_Z (2 ^ 53 - 1) -> 0 < w ->
  (M + Q2Qc (1 # 2)) * w <= 1 ->
  M * w < (Qc_of_Z (2 ^ 53 - 1) + Q2Qc (1 # 2)) * pow2 (- 53).
Proof.
  intros HM Hmax Hw Hmid. rewrite below_one_constant.
  set (c := Q2Qc (18014398509481983 # 18014398509481984)).
  destruct (Qclt_le_dec (M * w) c) as [Hlt|Hge]; [exact Hlt|exfalso].
  assert (Hh : 0 < M + Q2Qc (1 # 2)).
  { eapply Qclt_trans; [exact HM|].
    rewrite <- (Qcplus_0_l M) at 1. rewrite (Qcplus_comm M).
    apply Qc_add_lt_r. reflexivity. }
  pose proof (Qc_mul_le_r _ _ _ Hh Hge) as S1.
  pose proof (Qc_mul_le_r _ _ _ HM Hmid) as S2.
  assert (S3 : c * (M + Q2Qc (1 # 2)) <= M).
  { eapply Qcle_trans; [exact S1|].
    replace (M * w * (M + Q2Qc (1 # 2))) with ((M + Q2Qc (1 # 2)) * w * M) by ring.
    replace M with (1 * M) at 3 by ring. exact S2. }
  unfold c, Qcle, Qclt in *.
  rewrite this_mult, this_plus, !this_Q2Qc in S3.
  rewrite Qc_of_Z_this in Hmax.
  change (inject_Z (2 ^ 53 - 1)) with (9007199254740991 # 1)%Q in Hmax.
  lra.
Qed.

(** A parameter [i * step] of [np.arange(0, 1, step)] is rounded below 1:
    the index [i] is below the binary64 quotient [1 / step]. *)
Lemma parameter_below_one (step : Qc) (k : Z) :
  0 < step -> (1 <= k < 2 ^ 53)%Z ->
  Qc_of_Z k < round64 (1 / step) ->
  round64 (Qc_of_Z k * step) < 1.
Proof.
  intros Hstep Hk Hlt.
  destruct (Z_float k Hk) as [m [u [Hm [Hu HkM]]]].
  assert (Hq : 0 < 1 / step) by (apply Qcdiv_pos; [reflexivity|exact Hstep]).
  rewrite (round64_pos _ Hq) in Hlt.
  assert (Hmid : (Qc_of_Z m + Q2Qc (1 # 2)) * pow2 u <= 1 / step).
  { destruct (Qclt_le_dec (1 / step) ((Qc_of_Z m + Q2Qc (1 # 2)) * pow2 u))
      as [Hbelow|Hge]; [exfalso|exact Hge].
    apply (Qcle_not_lt _ _ (round_pos_below_midpoint m u (1 / step) Hm
                              ltac:(lia) Hq Hbelow)).
    rewrite <- HkM. exact Hlt. }
  assert (Hmid' : (Qc_of_Z m + Q2Qc (1 # 2)) * (pow2 u * step) <= 1).
  { replace 1 with (1 / step * step)
      by (field; apply Qc_pos_neq; exact Hstep).
    rewrite Qcmult_assoc. apply Qc_mul_le_r; assumption. }
  assert (Hw : 0 < pow2 u * step).
  { replace 0 with (0 * step) by ring.
    apply Qc_mul_lt_r; [exact Hstep|apply pow2_pos]. }
  assert (HM : 0 < Qc_of_Z m) by (apply Qc_of_Z_pos; lia).
  assert (Hmax : Qc_of_Z m <= Qc_of_Z (2 ^ 53 - 1)) by (apply Qc_of_Z_le; lia).
  pose proof (midpoint_arith _ _ HM Hmax Hw Hmid') as Hx.
  assert (Hxpos : 0 < Qc_of_Z k * step).
  { replace 0 with (0 * step) by ring.
    apply Qc_mul_lt_r; [exact Hstep|]. apply Qc_of_Z_pos. lia. }
  rewrite (round64_pos _ Hxpos).
  eapply Qcle_lt_trans.
  - apply (round_pos_below_midpoint (2 ^ 53 - 1) (- 53)); [lia|lia|exact Hxpos|].
    rewrite HkM, <- Qcmult_assoc. exact Hx.
  - vm_compute. reflexivity.
Qed.

(** [np.arange(0, 1, step)] *)

Lemma arange_values64_from_zero (step : Qc) (n : nat) :
  round64 step = step -> (Z.of_nat n <= 2 ^ 53)%Z ->
  arange_values64 0 step n
  = map (fun i => round64 (Qc_of_nat i * step)) (seq 0 n).
Proof.
  intros Hfloat Hn. unfold arange_values64. cbv zeta.
  replace (0 + step) with step by ring. rewrite Hfloat.
  replace (step - 0) with step by ring. rewrite Hfloat.
  apply map_ext_in. intros i Hi. apply in_seq in Hi.
  destruct i as [|[|i]].
  - change (Qc_of_nat 0) with (Qc_of_Z 0). rewrite Qc_of_Z_0.
    replace (0 * step) with 0 by ring. reflexivity.
  - change (Qc_of_nat 1) with (Qc_of_Z 1). rewrite Qc_of_Z_1.
    replace (1 * step) with step by ring. symmetry. exact Hfloat.
  - unfold Qc_of_nat. rewrite round64_of_Z by lia.
    rewrite Qcplus_0_l. apply round64_idempotent.
Qed.


Lemma unit_arange_length (step : Qc) :
  0 < step -> pow2 (- 52) <= step ->
  exists n : nat,
    arange_length64 1 step = inr n /\
    (1 <= n)%nat /\
    (Z.of_nat n <= 2 ^ 52)%Z /\
    (1 <= step -> n = 1%nat) /\
    forall i : nat, (i < n)%nat -> i = O \/ Qc_of_nat i < round64 (1 / step).
Proof.
  intros Hstep Hmin.
  assert (Hne : step <> 0) by (apply Qc_pos_neq; exact Hstep).
  assert (Hq : 0 < 1 / step) by (apply Qcdiv_pos; [reflexivity|exact Hstep]).
  assert (Hqmax : 1 / step <= pow2 52).
  { apply (Qc_le_by_mul _ _ step Hstep).
    replace (1 / step * step) with 1 by (field; exact Hne).
    replace 1 with (pow2 (- 52) * pow2 52)
      by (rewrite <- pow2_add; apply pow2_0).
    rewrite (Qcmult_comm (pow2 52) step).
    apply Qc_mul_le_r; [apply pow2_pos|exact Hmin]. }
  assert (Hymax : round64 (1 / step) <= pow2 52).
  { rewrite <- (round64_pow2 52) by lia.
    apply round64_monotone; [apply Qclt_le_weak, Hq|exact Hqmax]. }
  assert (Hynn : 0 <= round64 (1 / step))
    by (apply round64_nonneg, Qclt_le_weak, Hq).
  unfold arange_length64. cbv zeta.
  destruct (Qc_eqb (round64 (1 / step)) 0) eqn:Hz.
  - apply Qc_ltb_lt in Hq. rewrite Hq. exists 1%nat.
    split; [reflexivity|]. split; [lia|]. split; [simpl; lia|].
    split; [reflexivity|]. intros i Hi. left. lia.
  - apply Qc_eqb_neq in Hz.
    assert (Hy : 0 < round64 (1 / step)).
    { destruct (Qc_lt_le_cases _ Hynn) as [Hy0|Hpos]; [contradiction|exact Hpos]. }
    assert (Hlow : Qc_ltb (- pow2 63) (round64 (1 / step)) = true).
    { apply Qc_ltb_lt. eapply Qclt_trans; [|exact Hy].
      replace 0 with (- 0) by ring. apply Qc_opp_lt, pow2_pos. }
    assert (Hhigh : Qc_ltb (round64 (1 / step)) (pow2 63) = true).
    { apply Qc_ltb_lt. eapply Qcle_lt_trans; [exact Hymax|].
      apply pow2_lt. lia. }
    rewrite Hlow, Hhigh. cbn [andb].
    pose proof (Qceiling_pos _ Hy) as Hc1.
    assert (Hc2 : (Qceiling (round64 (1 / step)) <= 2 ^ 52)%Z).
    { apply Qceiling_le_of_Z. rewrite <- pow2_52. exact Hymax. }
    exists (Z.to_nat (Qceiling (round64 (1 / step)))).
    split; [reflexivity|]. split; [lia|]. split; [lia|]. split.
    + intros Hbig.
      assert (Hle1 : 1 / step <= 1).
      { apply (Qc_le_by_mul _ _ step Hstep).
        replace (1 / step * step) with 1 by (field; exact Hne).
        rewrite Qcmult_1_l. exact Hbig. }
      assert (Hy1 : round64 (1 / step) <= Qc_of_Z 1).
      { rewrite Qc_of_Z_1, <- round64_1.
        apply round64_monotone; [apply Qclt_le_weak, Hq|exact Hle1]. }
      pose proof (Qceiling_le_of_Z _ _ Hy1). lia.
    + intros i Hi. right. apply Qc_of_Z_lt_ceiling. lia.
Qed.

(** *** Interpolation at its ends *)

Lemma interpolate_rgba_0 (a b : rgba) : interpolate a b 0 = a.
Proof.
  destruct a, b. unfold interpolate, interpolate_rgba, interpolate,
    interpolate_scalar. simpl. f_equal; ring.
Qed.

Lemma interpolate_rgba_1 (a b : rgba) : interpolate a b 1 = b.
Proof.
  destruct a, b. unfold interpolate, interpolate_rgba, interpolate,
    interpolate_scalar. simpl. f_equal; ring.
Qed.

Lemma interpolate_arrays_0 (a b : list rgba) :
  length a = length b -> interpolate_arrays a b 0 = inr a.
Proof.
  intros Hlen. unfold interpolate_arrays.
  apply Nat.eqb_eq in Hlen. rewrite Hlen. apply Nat.eqb_eq in Hlen.
  f_equal. revert b Hlen.
  induction a as [|x a IH]; intros [|y b] Hlen; simpl in *;
    try discriminate; [reflexivity|].
  rewrite interpolate_rgba_0, (IH b) by lia. reflexivity.
Qed.

Lemma interpolate_arrays_1 (a b : list rgba) :
  length a = length b -> interpolate_arrays a b 1 = inr b.
Proof.
  intros Hlen. unfold interpolate_arrays.
  apply Nat.eqb_eq in Hlen. rewrite Hlen. apply Nat.eqb_eq in Hlen.
  f_equal. revert b Hlen.
  induction a as [|x a IH]; intros [|y b] Hlen; simpl in *;
    try discriminate; [reflexivity|].
  rewrite interpolate_rgba_1, (IH b) by lia. reflexivity.
Qed.

Lemma set_stroke_width_family (width : Qc) (self : PMobject) :
  exists self',
    set_stroke_width width true self = Returns self' /\
    points self' = points self /\
    rgbas self' = rgbas self /\
    (has_points self = true -> stroke_width self' = width).
Proof.
  unfold set_stroke_width.
  pose proof (for_family_returns
                (fun mob => Returns (set_stroke_width_attr mob width))
                (fun _ => eq_refl) self) as Hret.
  destruct (for_family _ self) as [self'|e self'] eqn:Hcall; [|discriminate].
  exists self'. split; [reflexivity|].
  apply for_family_root in Hcall.
  destruct Hcall as [m' [Hm' [Hps [Hcs [_ Hw]]]]].
  rewrite Hps, Hcs, Hw.
  destruct (has_points self); inversion Hm'; subst m'; simpl; auto.
  repeat split; auto. discriminate.
Qed.

Lemma interpolate_color_at (mobject1 mobject2 : PMobject) (alpha : Qc)
    (self : PMobject) (cs : list rgba) :
  interpolate_arrays (rgbas mobject1) (rgbas mobject2) alpha = inr cs ->
  exists self',
    interpolate_color mobject1 mobject2 alpha self = Returns self' /\
    rgbas self' = cs /\
    (has_points self = true ->
     stroke_width self' =
     interpolate (stroke_width mobject1) (stroke_width mobject2) alpha).
Proof.
  intros Hcs. unfold interpolate_color. rewrite Hcs.
  destruct (set_stroke_width_family
              (interpolate (get_stroke_width mobject1)
                 (get_stroke_width mobject2) alpha)
              (set_rgbas self cs)) as [self' [Hcall [_ [Hrg Hw]]]].
  exists self'. split; [exact Hcall|]. split; [exact Hrg|].
  intros Hpts. apply Hw. exact Hpts.
Qed.

(** *** The claims about interpolation and sampling *)

(** C9.  For two mobjects whose colour arrays have the same length,
    [interpolate_color] at alpha 0 leaves [self] with exactly the colours
    of the first and at alpha 1 with exactly those of the second; the
    interpolated stroke width is the first one's at 0 and the second
    one's at 1, and it is the stroke width [self] ends with when it has
    points. *)
Theorem interpolate_color_endpoints (mobject1 mobject2 self : PMobject) :
  length (rgbas mobject1) = length (rgbas mobject2) ->
  (exists self',
      interpolate_color mobject1 mobject2 0 self = Returns self' /\
      rgbas self' = rgbas mobject1 /\
      (has_points self = true ->
       stroke_width self' = stroke_width mobject1)) /\
  (exists self',
      interpolate_color mobject1 mobject2 1 self = Returns self' /\
      rgbas self' = rgbas mobject2 /\
      (has_points self = true ->
       stroke_width self' = stroke_width mobject2)) /\
  interpolate (stroke_width mobject1) (stroke_width mobject2) 0
    = stroke_width mobject1 /\
  interpolate (stroke_width mobject1) (stroke_width mobject2) 1
    = stroke_width mobject2.
Proof.
  intros Hlen.
  assert (H0w : interpolate (stroke_width mobject1) (stroke_width mobject2) 0
                = stroke_width mobject1)
    by (unfold interpolate, interpolate_scalar; ring).
  assert (H1w : interpolate (stroke_width mobject1) (stroke_width mobject2) 1
                = stroke_width mobject2)
    by (unfold interpolate, interpolate_scalar; ring).
  repeat split; try assumption.
  - destruct (interpolate_color_at mobject1 mobject2 0 self _
                (interpolate_arrays_0 _ _ Hlen)) as [self' [Hcall [Hcs Hw]]].
    exists self'. repeat split; try assumption.
    intros Hpts. rewrite (Hw Hpts). exact H0w.
  - destruct (interpolate_color_at mobject1 mobject2 1 self _
                (interpolate_arrays_1 _ _ Hlen)) as [self' [Hcall [Hcs Hw]]].
    exists self'. repeat split; try assumption.
    intros Hpts. rewrite (Hw Hpts). exact H1w.
Qed.

(** *** [add_line] *)

Lemma interpolate64_scalar_0 (a b : Qc) :
  interpolate64_scalar a b 0 = round64 a.
Proof.
  unfold interpolate64_scalar.
  replace (1 - 0) with 1 by ring. rewrite round64_1.
  replace (1 * a) with a by ring. replace (0 * b) with 0 by ring.
  rewrite round64_0. replace (round64 a + 0) with (round64 a) by ring.
  apply round64_idempotent.
Qed.

Lemma interpolate64_0 (a b : point) :
  float64_point a -> interpolate64 a b 0 = a.
Proof.
  intros [Hx [Hy Hz]]. unfold interpolate64.
  rewrite !interpolate64_scalar_0. unfold is_float64 in *.
  rewrite Hx, Hy, Hz. now destruct a.
Qed.

Lemma Qc_of_nat_0 : Qc_of_nat 0 = 0.
Proof. unfold Qc_of_nat. apply Qc_of_Z_0. Qed.

Lemma first_parameter (step : Qc) : round64 (Qc_of_nat 0 * step) = 0.
Proof.
  rewrite Qc_of_nat_0. replace (0 * step) with 0 by ring. apply round64_0.
Qed.

(** The sampling of a segment of positive length, of at most [2^52]
    steps: as many parameters as [np.arange(0, 1, step)] has entries, the
    float64 products [i * step], each of them below 1. *)
Lemma add_line_positive_length
    (start end_ : point) (c : option colour) (self : Mobject1D) :
  0 < epsilon self ->
  0 < get_norm (point_sub64 end_ start) ->
  get_norm (point_sub64 end_ start) <= pow2 52 * epsilon self ->
  exists count : nat,
    arange_length64 1
      (round64 (epsilon self / get_norm (point_sub64 end_ start))) = inr count /\
    (1 <= count)%nat /\
    (forall i : nat, (i < count)%nat ->
       round64 (Qc_of_nat i *
                round64 (epsilon self / get_norm (point_sub64 end_ start))) < 1) /\
    add_line_parameters self (get_norm (point_sub64 end_ start)) =
      inr (map (fun i =>
                  round64 (Qc_of_nat i *
                           round64 (epsilon self /
                                    get_norm (point_sub64 end_ start))))
             (seq 0 count)) /\
    add_line start end_ c self =
      on_pmobject self
        (add_points
           (map (interpolate64 start end_)
              (map (fun i =>
                      round64 (Qc_of_nat i *
                               round64 (epsilon self /
                                        get_norm (point_sub64 end_ start))))
                 (seq 0 count)))
           None c 1 (pmobject self)).
Proof.
  intros Heps HL Hmax.
  set (L := get_norm (point_sub64 end_ start)) in *.
  assert (HLne : L <> 0) by (apply Qc_pos_neq; exact HL).
  assert (Hq : 0 < epsilon self / L) by (apply Qcdiv_pos; assumption).
  assert (Hqmin : pow2 (- 52) <= epsilon self / L).
  { apply (Qc_le_by_mul _ _ L HL).
    replace (epsilon self / L * L) with (epsilon self) by (field; exact HLne).
    replace (epsilon self) with (pow2 52 * epsilon self * pow2 (- 52))
      by (rewrite (Qcmult_comm (pow2 52)), <- Qcmult_assoc, pow2_opp; ring).
    rewrite (Qcmult_comm (pow2 (- 52)) L).
    apply Qc_mul_le_r; [apply pow2_pos|exact Hmax]. }
  set (step := round64 (epsilon self / L)).
  assert (Hstepmin : pow2 (- 52) <= step).
  { unfold step. rewrite <- (round64_pow2 (- 52)) by lia.
    apply round64_monotone; [apply Qclt_le_weak, pow2_pos|exact Hqmin]. }
  assert (Hstep : 0 < step)
    by (eapply Qclt_le_trans; [apply pow2_pos|exact Hstepmin]).
  assert (Hfloat : round64 step = step) by apply round64_idempotent.
  destruct (unit_arange_length step Hstep Hstepmin)
    as [count [Hlen [Hone [H52 [Hbig Hidx]]]]].
  exists count. split; [exact Hlen|]. split; [exact Hone|].
  split.
  { intros i Hi. destruct (Hidx i Hi) as [->|Hlt].
    - rewrite first_parameter. reflexivity.
    - destruct i as [|i]; [rewrite first_parameter; reflexivity|].
      apply parameter_below_one; [exact Hstep|lia|exact Hlt]. }
  assert (Hparams : add_line_parameters self L =
                    inr (map (fun i => round64 (Qc_of_nat i * step))
                           (seq 0 count))).
  { unfold add_line_parameters, np_true_divide64, float64_of. cbv zeta.
    rewrite (proj2 (Qc_eqb_neq L 0) HLne). fold step.
    assert (Hlow : Qc_ltb (- pow2 1024) step = true).
    { apply Qc_ltb_lt. eapply Qclt_trans; [|exact Hstep].
      replace 0 with (- 0) by ring. apply Qc_opp_lt, pow2_pos. }
    assert (Hdelta : round64 (1 - 0) = 1)
      by (replace (1 - 0) with 1 by ring; apply round64_1).
    destruct (Qc_ltb step (pow2 1024)) eqn:Hover.
    - rewrite Hlow. unfold np_arange64. cbv zeta. rewrite Hdelta.
      rewrite (proj2 (Qc_eqb_neq step 0) (Qc_pos_neq _ Hstep)), Hlen.
      cbn [try_bind]. f_equal.
      apply arange_values64_from_zero; [exact Hfloat|lia].
    - apply Qc_ltb_false in Hover.
      assert (Hsingle : count = 1%nat).
      { apply Hbig. eapply Qcle_trans; [|exact Hover].
        rewrite <- pow2_0. apply pow2_le. lia. }
      unfold np_arange64. cbv zeta. rewrite Hdelta, Hsingle.
      assert (H01 : Qc_ltb 0 1 = true) by (apply Qc_ltb_lt; reflexivity).
      rewrite H01. cbn [seq map]. now rewrite first_parameter. }
  split; [exact Hparams|].
  unfold add_line. fold L. rewrite (proj2 (Qc_eqb_neq L 0) HLne), Hparams.
  cbn [try_bind]. fold step.
  destruct count as [|n]; [lia|]. cbn [seq map]. reflexivity.
Qed.

(** C10.  For a segment of positive length L, of at most [2^52] steps of
    a positive [epsilon], [add_line] takes its parameters from
    [np.arange(0, 1, step)] for the float64 quotient [step] of [epsilon]
    by L: as many as that range has entries, at least one, parameter [i]
    being the float64 product of [i] and [step].  The first is 0, so that
    the first appended point is the start point itself; all lie in the
    half-open range from 0 to 1, so that the parameter 1 is not among
    them.  The appended points are [interpolate] at these parameters,
    computed in float64. *)
Theorem add_line_samples_below_one
    (start end_ : point) (c : option colour) (self : Mobject1D) :
  0 < epsilon self ->
  0 < get_norm (point_sub64 end_ start) ->
  get_norm (point_sub64 end_ start) <= pow2 52 * epsilon self ->
  let step := round64 (epsilon self / get_norm (point_sub64 end_ start)) in
  exists (count : nat) (self' : Mobject1D),
    let ts := map (fun i => round64 (Qc_of_nat i * step)) (seq 0 count) in
    arange_length64 1 step = inr count /\
    (1 <= count)%nat /\
    add_line_parameters self (get_norm (point_sub64 end_ start)) = inr ts /\
    hd_error ts = Some 0 /\
    Forall (fun t => 0 <= t /\ t < 1) ts /\
    add_line start end_ c self = Returns self' /\
    points (pmobject self') =
      points (pmobject self) ++ map (interpolate64 start end_) ts /\
    (float64_point start ->
     hd_error (map (interpolate64 start end_) ts) = Some start).
Proof.
  intros Heps HL Hmax. cbv zeta.
  destruct (add_line_positive_length start end_ c self Heps HL Hmax)
    as [count [Hlen [Hone [Hbelow [Hparams Hcall]]]]].
  set (step := round64 (epsilon self / get_norm (point_sub64 end_ start))) in *.
  exists count. eexists.
  split; [exact Hlen|]. split; [exact Hone|]. split; [exact Hparams|].
  split.
  { destruct count as [|n]; [lia|]. cbn [seq map hd_error].
    now rewrite first_parameter. }
  split.
  { apply Forall_forall. intros t Ht. apply in_map_iff in Ht.
    destruct Ht as [i [Ht Hi]]. apply in_seq in Hi. subst t. split.
    - apply round64_nonneg.
      replace 0 with (0 * step) by ring.
      apply Qcmult_le_compat_r; [apply Qc_of_nat_nonneg|].
      apply round64_nonneg, Qclt_le_weak, Qcdiv_pos; assumption.
    - apply Hbelow. lia. }
  split; [rewrite Hcall; reflexivity|].
  split; [reflexivity|].
  intros Hstart. destruct count as [|n]; [lia|]. cbn [seq map hd_error].
  rewrite first_parameter. now rewrite interpolate64_0.
Qed.

(** C8.  Whatever the positive radius and density, the radial steps of
    [generate_points] start at [r = 0] and nothing precedes the
    computation of the angular step [epsilon / r] for it: the first
    division of every call is a division by zero, which numpy answers
    with an infinity. *)
Theorem generate_points_divides_by_zero
    (base : PMobject) (r d : Qc) (c : point) :
  0 < r -> 0 < d ->
  exists (self : PointCloudDot) (rest : list Qc),
    PointCloudDot_post_init base r d c = inr self /\
    radial_steps self = inr (0 :: rest) /\
    angular_increment self 0 = PInf.
Proof.
  intros Hr Hd.
  pose proof (Qc_pos_neq d Hd) as Hne.
  assert (Heps : 0 < 1 / d) by (apply Qcdiv_pos; [reflexivity|exact Hd]).
  destruct (np_arange_half_open r (1 / d) Heps Hr) as [rest [Harange _]].
  exists (mkPointCloudDot (mkMobject1D base d (1 / d)) r c), rest.
  split.
  { unfold PointCloudDot_post_init, Mobject1D_post_init, py_true_divide.
    apply Qc_eqb_neq in Hne. rewrite Hne. reflexivity. }
  split; [exact Harange|].
  unfold angular_increment, np_true_divide. cbn [epsilon dot].
  assert (Hz : Qc_eqb 0 0 = true) by (apply Qc_eqb_eq; reflexivity).
  rewrite Hz.
  pose proof (Qc_pos_neq _ Heps) as Hne'. apply Qc_eqb_neq in Hne'.
  rewrite Hne'. apply Qc_ltb_lt in Heps. now rewrite Heps.
Qed.

End Proofs.

(** ** The claims on concrete clouds *)

Import Sample.

(** C1, as stated, fails.  All three clouds satisfy the invariant, yet
    [interpolate_color] returns leaving a three-point [self] with five
    colours (it replaces [rgbas] only), and [add_points] with one point
    and two colours raises after the point has been appended, leaving four
    points with three colours. *)
Lemma same_length_counterexample :
  family_same_length cloud3 /\
  family_same_length cloud5 /\
  family_same_length cloud5_black /\
  (let o := run (Interpolate_color cloud5 cloud5_black 0) cloud3 in
   returns o = true /\
   length (points (final_state o)) = 3%nat /\
   length (rgbas (final_state o)) = 5%nat /\
   ~ family_same_length (final_state o)) /\
  (let o := run (Add_points [pt 7] (Some [opaque WHITE; opaque BLACK]) None 1)
                cloud3 in
   returns o = false /\
   length (points (final_state o)) = 4%nat /\
   length (rgbas (final_state o)) = 3%nat /\
   ~ family_same_length (final_state o)).
Proof.
  split; [repeat constructor|].
  split; [repeat constructor|].
  split; [repeat constructor|].
  split; cbv zeta.
  - split; [vm_compute; reflexivity|].
    split; [vm_compute; reflexivity|].
    split; [vm_compute; reflexivity|].
    intros Hfam. apply family_same_length_node in Hfam.
    destruct Hfam as [Hnode _]. vm_compute in Hnode. discriminate.
  - split; [vm_compute; reflexivity|].
    split; [vm_compute; reflexivity|].
    split; [vm_compute; reflexivity|].
    intros Hfam. apply family_same_length_node in Hfam.
    destruct Hfam as [Hnode _]. vm_compute in Hnode. discriminate.
Qed.

Lemma mutating_calls_keep_same_length_witness :
  family_same_length cloud3 /\
  operands_aligned (Interpolate_color cloud3 cloud3 (Q2Qc (1 # 2))) cloud3 /\
  match run (Interpolate_color cloud3 cloud3 (Q2Qc (1 # 2))) cloud3 with
  | Returns self' => family_same_length self'
  | Raises _ self' =>
      is_add_points (Interpolate_color cloud3 cloud3 (Q2Qc (1 # 2))) = false ->
      family_same_length self'
  end.
Proof.
  assert (Hfam : family_same_length cloud3) by (repeat constructor).
  assert (Hops : operands_aligned
                   (Interpolate_color cloud3 cloud3 (Q2Qc (1 # 2))) cloud3)
    by (split; reflexivity).
  split; [exact Hfam|]. split; [exact Hops|].
  exact (mutating_calls_keep_same_length _ cloud3 Hfam Hops).
Defined.

(** C2, as stated, fails: filtering the points with x = 0, 1, 2 by
    [x < 1.5] leaves the point with x = 2, not the two the condition
    holds for. *)
Lemma filter_out_counterexample :
  let o := filter_out (x_below (Q2Qc (3 # 2))) cloud3 in
  returns o = true /\
  points (final_state o) = [pt 2] /\
  points (final_state o) <> [pt 0; pt 1].
Proof.
  cbv zeta. split; [vm_compute; reflexivity|].
  assert (Hpts : points (final_state
                           (filter_out (x_below (Q2Qc (3 # 2))) cloud3))
                 = [pt 2]) by (vm_compute; reflexivity).
  split; [exact Hpts|]. rewrite Hpts. discriminate.
Qed.

Lemma filter_out_removes_where_condition_holds_witness :
  family_same_length group5 /\
  exists self',
    filter_out (x_below (Q2Qc (3 # 2))) group5 = Returns self' /\
    map arrays (get_family self') =
    map (without (x_below (Q2Qc (3 # 2)))) (get_family group5).
Proof.
  assert (Hfam : family_same_length group5) by (repeat constructor).
  split; [exact Hfam|].
  exact (filter_out_removes_where_condition_holds _ group5 Hfam).
Defined.

Lemma add_points_rgbas_length_check_witness :
  (length [opaque WHITE; opaque BLACK] <> length [pt 7] /\
   add_points [pt 7] (Some [opaque WHITE; opaque BLACK]) None 1 cloud3 =
   Raises (Exception "points and rgbas must have same shape")
          (set_points cloud3 (points cloud3 ++ [pt 7]))) /\
  (length [opaque BLACK] = length [pt 7] /\
   exists self',
     add_points [pt 7] (Some [opaque BLACK]) None 1 cloud3 = Returns self' /\
     length (points self') = (length (points cloud3) + length [pt 7])%nat /\
     length (rgbas self') = (length (rgbas cloud3) + length [pt 7])%nat).
Proof.
  split.
  - assert (Hne : length [opaque WHITE; opaque BLACK] <> length [pt 7])
      by (simpl; lia).
    split; [exact Hne|].
    exact (proj1 (add_points_rgbas_length_check
                    [pt 7] [opaque WHITE; opaque BLACK] None 1 cloud3) Hne).
  - assert (Heq : length [opaque BLACK] = length [pt 7]) by reflexivity.
    split; [exact Heq|].
    exact (proj2 (add_points_rgbas_length_check
                    [pt 7] [opaque BLACK] None 1 cloud3) Heq).
Defined.

(** C6.  [thin_out] reads the point count of [self], not of the member it
    is thinning.  A cloud without children is thinned as claimed, but the
    five-point child of a parent without points loses all its points, the
    five-point child of a five-point parent keeps two points, the parent
    having three by then, and with a two-point child of that parent the
    call raises IndexError. *)
Theorem thin_out_uses_the_point_count_of_self :
  (let o := thin_out 2 cloud5 in
   returns o = true /\
   map points (get_family (final_state o)) = [[pt 0; pt 2; pt 4]]) /\
  (let o := thin_out 2 group5 in
   returns o = true /\
   map points (get_family (final_state o)) = [[]; []] /\
   map rgbas (get_family (final_state o)) = [[]; []]) /\
  (let o := thin_out 2 (cloud [pt 0; pt 1; pt 2; pt 3; pt 4] WHITE [cloud5]) in
   returns o = true /\
   map points (get_family (final_state o)) = [[pt 0; pt 2; pt 4]; [pt 0; pt 2]]) /\
  thin_out 2 (cloud [pt 0; pt 1; pt 2; pt 3; pt 4] WHITE
                [cloud [pt 0; pt 1] WHITE []])
  = Raises IndexError
      (cloud [pt 0; pt 2; pt 4] WHITE [cloud [pt 0; pt 1] WHITE []]).
Proof.
  cbv zeta. repeat split; vm_compute; reflexivity.
Qed.

Lemma generate_points_divides_by_zero_witness :
  0 < Q2Qc (3 # 40) /\ 0 < Q2Qc 20 /\
  exists (self : PointCloudDot) (rest : list Qc),
    PointCloudDot_post_init empty_cloud (Q2Qc (3 # 40)) (Q2Qc 20) ORIGIN
      = inr self /\
    radial_steps self = inr (0 :: rest) /\
    angular_increment self 0 = PInf.
Proof.
  assert (Hr : 0 < Q2Qc (3 # 40)) by reflexivity.
  assert (Hd : 0 < Q2Qc 20) by reflexivity.
  split; [exact Hr|]. split; [exact Hd|].
  exact (generate_points_divides_by_zero empty_cloud _ _ ORIGIN Hr Hd).
Defined.

Lemma interpolate_color_endpoints_witness :
  length (rgbas cloud5) = length (rgbas cloud5_black) /\
  (exists self',
      interpolate_color cloud5 cloud5_black 0 cloud5 = Returns self' /\
      rgbas self' = rgbas cloud5 /\
      (has_points cloud5 = true -> stroke_width self' = stroke_width cloud5)) /\
  (exists self',
      interpolate_color cloud5 cloud5_black 1 cloud5 = Returns self' /\
      rgbas self' = rgbas cloud5_black /\
      (has_points cloud5 = true ->
       stroke_width self' = stroke_width cloud5_black)) /\
  interpolate (stroke_width cloud5) (stroke_width cloud5_black) 0
    = stroke_width cloud5 /\
  interpolate (stroke_width cloud5) (stroke_width cloud5_black) 1
    = stroke_width cloud5_black.
Proof.
  assert (Hlen : length (rgbas cloud5) = length (rgbas cloud5_black))
    by reflexivity.
  split; [exact Hlen|].
  exact (interpolate_color_endpoints cloud5 cloud5_black cloud5 Hlen).
Defined.

Lemma point_eqb_eq (p q : point) : point_eqb p q = true -> p = q.
Proof.
  unfold point_eqb. intros Heq.
  apply andb_prop in Heq. destruct Heq as [Heq Hz].
  apply andb_prop in Heq. destruct Heq as [Hx Hy].
  apply Qc_eqb_eq in Hx, Hy, Hz.
  destruct p, q. simpl in *. now subst.
Qed.

Lemma returns_final_state {S : Type} (o : outcome S) :
  returns o = true -> o = Returns (final_state o).
Proof. destruct o; [reflexivity|discriminate]. Qed.

Lemma checked_result {A : Type} (x : exn + A) (check : A -> bool) :
  match x with
  | inl _ => false
  | inr a => check a
  end = true ->
  exists a, x = inr a /\ check a = true.
Proof. destruct x as [e|a]; [discriminate|]. intros Hc. now exists a. Qed.

(** C10, as stated, fails in its last part.  A cloud of density 49
    samples the segment from (1, 0, 0) to (2, 0, 0), of length 1, at 50
    parameters: the float64 quotient of 1 by [epsilon] is just above 49.
    The last parameter, the float64 product of 49 and [epsilon], is
    [1 - 2^-53], below 1, and [interpolate] there is rounded to the end
    point itself, which is the last point appended. *)
Lemma add_line_end_point_counterexample :
  pt 1 <> pt 2 /\
  0 < get_norm (point_sub64 (pt 2) (pt 1)) /\
  (exists ts : list Qc,
      add_line_parameters line49 (get_norm (point_sub64 (pt 2) (pt 1)))
        = inr ts /\
      length ts = 50%nat /\
      last ts 0 = 1 - pow2 (- 53)) /\
  exists self' : Mobject1D,
    add_line (pt 1) (pt 2) None line49 = Returns self' /\
    length (points (pmobject self')) = 50%nat /\
    last (points (pmobject self')) ORIGIN = pt 2 /\
    In (pt 2) (points (pmobject self')).
Proof.
  split.
  { intros Heq. apply (f_equal (fun p => Qnum (px p))) in Heq.
    vm_compute in Heq. discriminate. }
  split; [vm_compute; reflexivity|].
  split.
  { destruct (checked_result
                (add_line_parameters line49
                   (get_norm (point_sub64 (pt 2) (pt 1))))
                (fun l => (length l =? 50)%nat &&
                          Qc_eqb (last l 0) (1 - pow2 (- 53))))
      as [ts [Hts Hval]]; [vm_compute; reflexivity|].
    exists ts. split; [exact Hts|].
    apply andb_prop in Hval. destruct Hval as [Hl Hlast].
    split; [apply Nat.eqb_eq, Hl|apply Qc_eqb_eq, Hlast]. }
  exists (final_state (add_line (pt 1) (pt 2) None line49)).
  split; [apply returns_final_state; vm_compute; reflexivity|].
  split; [vm_compute; reflexivity|].
  assert (Hlast : last (points (pmobject
                    (final_state (add_line (pt 1) (pt 2) None line49)))) ORIGIN
                  = pt 2)
    by (apply point_eqb_eq; vm_compute; reflexivity).
  split; [exact Hlast|].
  assert (Hex : existsb (point_eqb (pt 2))
                  (points (pmobject
                     (final_state (add_line (pt 1) (pt 2) None line49))))
                = true) by (vm_compute; reflexivity).
  apply existsb_exists in Hex. destruct Hex as [p [Hin Hp]].
  apply point_eqb_eq in Hp. subst p. exact Hin.
Qed.

Lemma Qc_list_eqb_eq (a b : list Qc) : Qc_list_eqb a b = true -> a = b.
Proof.
  unfold Qc_list_eqb. revert b.
  induction a as [|x a IH]; intros [|y b] Heq;
    try reflexivity; try discriminate.
  apply andb_prop in Heq. destruct Heq as [Hlen Hall].
  cbn [combine forallb fst snd] in Hall.
  apply andb_prop in Hall. destruct Hall as [Hxy Hrest].
  apply Qc_eqb_eq in Hxy. subst y. f_equal. apply IH.
  cbn [length Nat.eqb] in Hlen. now rewrite Hlen, Hrest.
Qed.

(** The numbers of this example, computed with the primitive binary64
    floats: [epsilon = 1.0 / 49], the length [1 / epsilon] of the range
    rounded up, the parameters [i * epsilon] and the first coordinate
    [(1 - t) * 1 + t * 2] of the points are those [add_line] computes
    with [round64]. *)
Lemma add_line_end_point_in_binary64 :
  let one := binary64_of_nat 1 in
  let two := binary64_of_nat 2 in
  let eps := PrimFloat.div one (binary64_of_nat 49) in
  let ts := map (fun i => PrimFloat.mul (binary64_of_nat i) eps) (seq 0 50) in
  let xs := map (fun t => PrimFloat.add
                            (PrimFloat.mul (PrimFloat.sub one t) one)
                            (PrimFloat.mul t two)) ts in
  epsilon line49 = binary64_value eps /\
  Qceiling (binary64_value (PrimFloat.div one eps)) = 50%Z /\
  add_line_parameters line49 (get_norm (point_sub64 (pt 2) (pt 1)))
    = inr (map binary64_value ts) /\
  map px (points (pmobject
            (final_state (add_line (pt 1) (pt 2) None line49))))
    = map binary64_value xs.
Proof.
  cbv zeta.
  split; [apply Qc_is_canon; vm_compute; reflexivity|].
  split; [vm_compute; reflexivity|].
  split.
  - destruct (checked_result
                (add_line_parameters line49
                   (get_norm (point_sub64 (pt 2) (pt 1))))
                (fun l => Qc_list_eqb l
                   (map binary64_value
                      (map (fun i => PrimFloat.mul (binary64_of_nat i)
                                       (PrimFloat.div (binary64_of_nat 1)
                                                      (binary64_of_nat 49)))
                           (seq 0 50)))))
      as [ts [Hts Hval]]; [vm_compute; reflexivity|].
    rewrite Hts. f_equal. apply Qc_list_eqb_eq. exact Hval.
  - apply Qc_list_eqb_eq. vm_compute. reflexivity.
Qed.

Lemma add_line_samples_below_one_witness :
  let self := line2 in
  let start := pt 0 in
  let end_ := mkPoint (Q2Qc 3) (Q2Qc 4) 0 in
  0 < epsilon self /\
  0 < get_norm (point_sub64 end_ start) /\
  get_norm (point_sub64 end_ start) <= pow2 52 * epsilon self /\
  let step := round64 (epsilon self / get_norm (point_sub64 end_ start)) in
  exists (count : nat) (self' : Mobject1D),
    let ts := map (fun i => round64 (Qc_of_nat i * step)) (seq 0 count) in
    arange_length64 1 step = inr count /\
    (1 <= count)%nat /\
    add_line_parameters self (get_norm (point_sub64 end_ start)) = inr ts /\
    hd_error ts = Some 0 /\
    Forall (fun t => 0 <= t /\ t < 1) ts /\
    add_line start end_ None self = Returns self' /\
    points (pmobject self') =
      points (pmobject self) ++ map (interpolate64 start end_) ts /\
    (float64_point start ->
     hd_error (map (interpolate64 start end_) ts) = Some start).
Proof.
  cbv zeta.
  assert (Heps : 0 < epsilon line2) by reflexivity.
  assert (Hlen : 0 < get_norm (point_sub64 (mkPoint (Q2Qc 3) (Q2Qc 4) 0) (pt 0)))
    by (vm_compute; reflexivity).
  assert (Hmax : get_norm (point_sub64 (mkPoint (Q2Qc 3) (Q2Qc 4) 0) (pt 0))
                 <= pow2 52 * epsilon line2)
    by (vm_compute; discriminate).
  split; [exact Heps|]. split; [exact Hlen|]. split; [exact Hmax|].
  exact (add_line_samples_below_one _ _ None _ Heps Hlen Hmax).
Defined.

(** ** Further properties of the operations *)

Section Further.
Context `{ColourOps} `{SpaceOps}.

(** *** Loops over the family whose body returns *)

Lemma get_family_unfold (m : PMobject) :
  get_family m = m :: flat_map get_family (submobjects m).
Proof. destruct m; reflexivity. Qed.

Lemma for_each_rel {A : Type} (body : A -> outcome A) (Q : A -> Prop)
    (fam : A -> list A) (S : A -> A -> Prop) (l : list A) :
  Forall (fun x => Q x ->
            exists x', body x = Returns x' /\ Forall2 S (fam x) (fam x')) l ->
  Forall Q l ->
  exists l', for_each body l = Returns l' /\
             Forall2 S (flat_map fam l) (flat_map fam l').
Proof.
  induction l as [|x rest IH]; intros Hbody Hl.
  - exists []. split; [reflexivity|constructor].
  - inversion Hbody as [|? ? Hx Hrest]; subst.
    inversion Hl as [|? ? Qx Qrest]; subst.
    destruct (Hx Qx) as [x' [Hx' Hfam]].
    destruct (IH Hrest Qrest) as [rest' [Hrest' Hfams]].
    exists (x' :: rest'). simpl. rewrite Hx', Hrest'. split; [reflexivity|].
    apply Forall2_app; assumption.
Qed.

(** A loop over the family whose body returns on every member satisfying
    [P] returns, and relates each member to what the body makes of it. *)
Lemma for_family_rel (body : PMobject -> outcome PMobject)
    (P : PMobject -> Prop) (R : PMobject -> PMobject -> Prop) :
  (forall a b subs, R a b -> R a (set_submobjects b subs)) ->
  (forall mob, P mob ->
     exists mob', (if has_points mob then body mob else Returns mob)
                  = Returns mob' /\ R mob mob') ->
  forall m, Forall P (get_family m) ->
    exists m', for_family body m = Returns m' /\
               Forall2 R (get_family m) (get_family m').
Proof.
  intros Hsubs Hbody m.
  induction m as [ps cs c w subs IH] using PMobject_tree_ind.
  intros Hfam. rewrite get_family_unfold in Hfam. cbn [submobjects] in Hfam.
  apply Forall_cons_iff in Hfam. destruct Hfam as [Hnode Hrest].
  rewrite Forall_flat_map in Hrest.
  set (m := mkPMobject ps cs c w subs) in *.
  destruct (Hbody m Hnode) as [m' [Hm' HR]].
  destruct (for_each_rel (for_family body) (fun x => Forall P (get_family x))
              get_family R subs IH Hrest)
    as [subs' [Hloop Hfams]].
  rewrite for_family_unfold. rewrite Hm'. change (submobjects m) with subs.
  rewrite Hloop. eexists. split; [reflexivity|].
  rewrite (get_family_unfold m), (get_family_unfold (set_submobjects m' subs')).
  cbn [submobjects set_submobjects]. change (submobjects m) with subs.
  constructor; [apply Hsubs, HR | exact Hfams].
Qed.

Lemma Forall2_map_eq {A B C : Type} (f : A -> C) (g : B -> C)
    (l : list A) (l' : list B) :
  Forall2 (fun a b => g b = f a) l l' -> map g l' = map f l.
Proof.
  induction 1 as [|a b l l' Hab _ IH]; simpl; [reflexivity|].
  now rewrite Hab, IH.
Qed.

(** The same for a body whose effect on the attributes of a node is a
    function of the node. *)
Lemma for_family_map (body : PMobject -> outcome PMobject)
    (P : PMobject -> Prop)
    (g : PMobject -> list point * list rgba * colour * Qc) :
  (forall mob, P mob ->
     exists mob', (if has_points mob then body mob else Returns mob)
                  = Returns mob' /\ node_attrs mob' = g mob) ->
  forall m, Forall P (get_family m) ->
    exists m', for_family body m = Returns m' /\
               map node_attrs (get_family m') = map g (get_family m).
Proof.
  intros Hbody m Hfam.
  destruct (for_family_rel body P (fun a b => node_attrs b = g a))
    with (m := m) as [m' [Hcall Hrel]]; try assumption.
  - intros a b subs Hab. exact Hab.
  - exists m'. split; [exact Hcall|]. apply Forall2_map_eq, Hrel.
Qed.

Lemma Forall_True {A : Type} (l : list A) : Forall (fun _ => True) l.
Proof. induction l; constructor; auto. Qed.

(** *** [set_stroke_width] and [set_color] *)

(** X1.  [set_stroke_width] over the family always returns; it gives the
    new width to exactly the members that have points, a member without
    points (the node of a group, say) keeping the width it had, and it
    changes no point, colour array or base colour. *)
Theorem set_stroke_width_family_members (width : Qc) (self : PMobject) :
  exists self',
    set_stroke_width width true self = Returns self' /\
    map node_attrs (get_family self') =
    map (fun m => (points m, rgbas m, color m,
                   if has_points m then width else stroke_width m))
        (get_family self).
Proof.
  unfold set_stroke_width.
  apply for_family_map with (P := fun _ => True); [|apply Forall_True].
  intros mob _. destruct (has_points mob); eexists; split; reflexivity.
Qed.

Lemma map_const_repeat {A B : Type} (b : B) (l : list A) :
  map (fun _ => b) l = repeat b (length l).
Proof. induction l; simpl; congruence. Qed.

(** X2.  On a family that satisfies the invariant, [set_color] over the
    family returns with every member holding its points unchanged and, for
    each of them, the RGBA of the colour at alpha 1; the base colour of
    [self] is the new colour. *)
Theorem set_color_fills_family (c : colour) (self : PMobject) :
  family_same_length self ->
  exists self',
    set_color c true self = Returns self' /\
    color self' = c /\
    map arrays (get_family self') =
    map (fun m => (points m, repeat (color_to_rgba c 1) (length (points m))))
        (get_family self).
Proof.
  intros Hfam. unfold set_color.
  destruct (for_family_rel
              (fun mob => Returns (fill_rgbas (color_to_rgba c 1) mob))
              same_length
              (fun a b => arrays b =
                          (points a,
                           repeat (color_to_rgba c 1) (length (points a)))))
    with (m := self) as [s [Hcall Hrel]].
  - intros a b subs Hab. exact Hab.
  - intros mob Hmob. unfold same_length in Hmob.
    destruct (has_points mob) eqn:Hpts; eexists; (split; [reflexivity|]).
    + unfold arrays, fill_rgbas. cbn [points rgbas set_rgbas].
      rewrite (map_const_repeat (color_to_rgba c 1) (rgbas mob)).
      rewrite <- Hmob. reflexivity.
    + unfold has_points, get_num_points in Hpts. apply Nat.ltb_ge in Hpts.
      unfold arrays. destruct (points mob); [|simpl in Hpts; lia].
      destruct (rgbas mob); [reflexivity|discriminate].
  - exact Hfam.
  - rewrite Hcall. simpl. eexists. split; [reflexivity|]. split; [reflexivity|].
    rewrite (get_family_unfold (set_color_attr s c)), (get_family_unfold s) in *.
    cbn [submobjects set_color_attr map].
    rewrite (get_family_unfold self) in Hrel |- *. cbn [map].
    inversion Hrel as [|? ? ? ? Hroot Hrest]; subst.
    apply Forall2_map_eq in Hrest. rewrite Hrest. f_equal. exact Hroot.
Qed.

(** X3.  After [set_color] on a node that has points and as many colours,
    with or without the family, [get_color] gives back the colour of the
    RGBA the colour was converted to. *)
Theorem set_color_get_color (c : colour) (family : bool) (self : PMobject) :
  same_length self ->
  has_points self = true ->
  exists self',
    set_color c family self = Returns self' /\
    get_color self' = inr (rgba_to_color (color_to_rgba c 1)).
Proof.
  intros Hlen Hpts. unfold set_color.
  assert (Hfill : get_color (fill_rgbas (color_to_rgba c 1) self)
                  = inr (rgba_to_color (color_to_rgba c 1))).
  { unfold get_color, fill_rgbas, same_length, has_points, get_num_points in *.
    apply Nat.ltb_lt in Hpts. cbn [rgbas set_rgbas].
    destruct (rgbas self) as [|x cs]; [simpl in Hlen; lia|].
    reflexivity. }
  destruct family.
  - pose proof (for_family_returns
                  (fun mob => Returns (fill_rgbas (color_to_rgba c 1) mob))
                  (fun _ => eq_refl) self) as Hret.
    destruct (for_family _ self) as [s|e s] eqn:Hcall; [|discriminate].
    apply for_family_root in Hcall.
    destruct Hcall as [m' [Hm' [_ [Hcs _]]]].
    rewrite Hpts in Hm'. inversion Hm'; subst m'.
    simpl. eexists. split; [reflexivity|].
    unfold get_color in *. cbn [rgbas set_color_attr]. rewrite Hcs. exact Hfill.
  - simpl. eexists. split; [reflexivity|]. exact Hfill.
Qed.

(** *** Indexing with indices in range *)

Lemma index_at_in_range {A : Type} (arr : list A) (i : Z) (d : A) :
  (0 <= i < Z.of_nat (length arr))%Z ->
  index_at arr i = inr (nth (Z.to_nat i) arr d).
Proof.
  intros [Hlo Hhi]. unfold index_at.
  destruct (i <? 0)%Z eqn:Hneg; [apply Z.ltb_lt in Hneg; lia|].
  replace ((0 <=? i)%Z && (i <? Z.of_nat (length arr))%Z) with true
    by (symmetry; apply andb_true_iff; split;
        [apply Z.leb_le | apply Z.ltb_lt]; assumption).
  assert (Hnat : (Z.to_nat i < length arr)%nat) by lia.
  rewrite (nth_error_nth' arr d Hnat). reflexivity.
Qed.

Lemma take_in_range {A : Type} (arr : list A) (indices : list Z) (d : A) :
  Forall (fun i => (0 <= i < Z.of_nat (length arr))%Z) indices ->
  take arr indices = inr (map (fun i => nth (Z.to_nat i) arr d) indices).
Proof.
  induction 1 as [|i rest Hi _ IH]; simpl; [reflexivity|].
  rewrite (index_at_in_range arr i d Hi). simpl. rewrite IH. reflexivity.
Qed.

Lemma map_nth_seq {A : Type} (l : list A) (d : A) :
  map (fun i => nth i l d) (seq 0 (length l)) = l.
Proof.
  induction l as [|x l IH]; simpl; [reflexivity|].
  rewrite <- seq_shift, map_map. simpl. now rewrite IH.
Qed.

(** *** [thin_out] on the node it is called on *)

Lemma np_arange_int_positive (n f : nat) :
  (0 < f)%nat ->
  np_arange_int (Z.of_nat n) (Z.of_nat f) =
  inr (map (fun i => Z.of_nat (i * f)) (seq 0 ((n + f - 1) / f))).
Proof.
  intros Hf. unfold np_arange_int.
  destruct (Z.of_nat f =? 0)%Z eqn:Hz; [apply Z.eqb_eq in Hz; lia|].
  destruct (0 <? Z.of_nat f)%Z eqn:Hpos; [|apply Z.ltb_ge in Hpos; lia].
  replace (Z.of_nat n + Z.of_nat f - 1)%Z with (Z.of_nat (n + f - 1)) by lia.
  rewrite <- Nat2Z.inj_div, Nat2Z.id. f_equal.
  apply map_ext. intros i. lia.
Qed.

Lemma thin_indices_in_range (n f i : nat) :
  (0 < f)%nat -> (i < (n + f - 1) / f)%nat -> (i * f < n)%nat.
Proof.
  intros Hf Hi.
  pose proof (Nat.Div0.mul_div_le (n + f - 1) f) as Hle.
  nia.
Qed.

Lemma thin_take {A : Type} (arr : list A) (f : nat) (d : A) :
  (0 < f)%nat ->
  try_bind (np_arange_int (Z.of_nat (length arr)) (Z.of_nat f)) (take arr) =
  inr (map (fun i => nth (i * f) arr d) (seq 0 ((length arr + f - 1) / f))).
Proof.
  intros Hf. rewrite (np_arange_int_positive _ _ Hf). simpl.
  rewrite (take_in_range arr _ d).
  - rewrite map_map. f_equal. apply map_ext. intros i. now rewrite Nat2Z.id.
  - apply Forall_forall. intros z Hz. apply in_map_iff in Hz.
    destruct Hz as [i [Hz Hi]]. apply in_seq in Hi. subst z.
    pose proof (thin_indices_in_range (length arr) f i Hf ltac:(lia)). lia.
Qed.

Lemma nth_error_thinned {A : Type} (arr : list A) (f k i : nat) (d : A) :
  (i < k)%nat -> (i * f < length arr)%nat ->
  nth_error (map (fun j => nth (j * f) arr d) (seq 0 k)) i =
  nth_error arr (i * f).
Proof.
  intros Hi Hin.
  rewrite nth_error_map, nth_error_seq.
  destruct (i <? k)%nat eqn:Hik; [|apply Nat.ltb_ge in Hik; lia].
  simpl. symmetry. apply nth_error_nth'. exact Hin.
Qed.

(** X4.  For a positive factor, [thin_out] leaves the node it is called
    on, when its two arrays have the same length N, with the entries at
    indices 0, factor, 2 * factor, ... of both, that is with N / factor
    rounded up of them, whatever happens to its descendants; on a node
    without children the call returns. *)
Theorem thin_out_every_nth_of_self (f : nat) (self : PMobject) :
  (0 < f)%nat ->
  same_length self ->
  let self' := final_state (thin_out (Z.of_nat f) self) in
  let count := ((get_num_points self + f - 1) / f)%nat in
  length (points self') = count /\
  length (rgbas self') = count /\
  (forall i, (i < count)%nat ->
     nth_error (points self') i = nth_error (points self) (i * f) /\
     nth_error (rgbas self') i = nth_error (rgbas self) (i * f)) /\
  (submobjects self = [] -> returns (thin_out (Z.of_nat f) self) = true).
Proof.
  intros Hf Hlen. cbv zeta. unfold same_length in Hlen.
  set (count := ((get_num_points self + f - 1) / f)%nat).
  set (ps := map (fun i => nth (i * f) (points self) ORIGIN) (seq 0 count)).
  set (cs := map (fun i => nth (i * f) (rgbas self) (mkRgba 0 0 0 0))
               (seq 0 count)).
  assert (Hfirst : (if has_points self
                    then thin_out_body (Z.of_nat f) (get_num_points self) self
                    else Returns self) =
                   Returns (set_rgbas (set_points self ps) cs)
                   \/ ((if has_points self
                        then thin_out_body (Z.of_nat f) (get_num_points self) self
                        else Returns self) = Returns self
                       /\ points self = [] /\ rgbas self = [] /\ count = 0%nat)).
  { destruct (has_points self) eqn:Hpts.
    - left. unfold thin_out_body, apply_over_attr_arrays, get_num_points.
      rewrite (thin_take (points self) f ORIGIN Hf). cbn [rgbas set_points].
      rewrite Hlen at 1.
      rewrite (thin_take (rgbas self) f (mkRgba 0 0 0 0) Hf).
      unfold ps, cs, count, get_num_points. rewrite <- Hlen. reflexivity.
    - right. split; [reflexivity|].
      unfold has_points, get_num_points in Hpts. apply Nat.ltb_ge in Hpts.
      unfold count, get_num_points.
      destruct (points self); [|simpl in Hpts; lia].
      destruct (rgbas self); [|discriminate].
      repeat split. simpl. apply Nat.div_small. lia. }
  assert (Hroot : points (final_state (thin_out (Z.of_nat f) self)) = ps /\
                  rgbas (final_state (thin_out (Z.of_nat f) self)) = cs).
  { unfold thin_out. destruct Hfirst as [Hfirst|[Hfirst [Hp [Hc Hcount]]]];
      rewrite Hfirst.
    - destruct (for_each _ _); simpl; auto.
    - assert (Hps : ps = []) by (unfold ps; rewrite Hcount; reflexivity).
      assert (Hcs : cs = []) by (unfold cs; rewrite Hcount; reflexivity).
      rewrite Hps, Hcs. destruct (for_each _ _); simpl; auto. }
  destruct Hroot as [Hps Hcs]. rewrite Hps, Hcs.
  split; [unfold ps; now rewrite length_map, length_seq|].
  split; [unfold cs; now rewrite length_map, length_seq|].
  split.
  - intros i Hi.
    pose proof (thin_indices_in_range (get_num_points self) f i Hf Hi) as Hin.
    unfold get_num_points in Hin. split.
    + apply nth_error_thinned; assumption.
    + apply nth_error_thinned; [assumption|]. rewrite <- Hlen. exact Hin.
  - intros Hsubs. unfold thin_out.
    destruct Hfirst as [Hfirst|[Hfirst _]]; rewrite Hfirst;
      cbn [submobjects set_rgbas set_points]; rewrite Hsubs; reflexivity.
Qed.

(** *** [sort_points] *)

Lemma Qc_ltb_ge (a b : Qc) : Qc_ltb a b = false -> b <= a.
Proof.
  unfold Qc_ltb. destruct (Qclt_le_dec a b); [discriminate|auto].
Qed.

Lemma Qc_ltb_true_lt (a b : Qc) : Qc_ltb a b = true -> a < b.
Proof.
  unfold Qc_ltb. destruct (Qclt_le_dec a b); [auto|discriminate].
Qed.

Lemma insert_key_permutation (k : Qc) (i : Z) (l : list (Qc * Z)) :
  Permutation (insert_key k i l) ((k, i) :: l).
Proof.
  induction l as [|[k' i'] rest IH]; simpl; [reflexivity|].
  destruct (Qc_ltb k' k); [|reflexivity].
  rewrite IH. apply perm_swap.
Qed.

Lemma insert_key_sorted (k : Qc) (i : Z) (l : list (Qc * Z)) :
  StronglySorted (fun a b => fst a <= fst b) l ->
  StronglySorted (fun a b => fst a <= fst b) (insert_key k i l).
Proof.
  induction 1 as [|[k' i'] rest Hsorted IH Hall]; simpl.
  - constructor; constructor.
  - destruct (Qc_ltb k' k) eqn:Hlt.
    + constructor; [exact IH|].
      apply (Permutation_Forall (Permutation_sym (insert_key_permutation k i rest))).
      constructor; [|exact Hall].
      simpl. apply Qclt_le_weak, Qc_ltb_true_lt, Hlt.
    + apply Qc_ltb_ge in Hlt.
      constructor; [constructor; assumption|].
      constructor; [exact Hlt|].
      eapply Forall_impl; [|exact Hall].
      intros [k'' i''] Hle. simpl in *. eapply Qcle_trans; eassumption.
Qed.

Lemma insertion_sort_permutation (l : list (Qc * Z)) :
  Permutation
    (fold_right (fun ki acc => insert_key (fst ki) (snd ki) acc) [] l) l.
Proof.
  induction l as [|[k i] rest IH]; simpl; [reflexivity|].
  rewrite insert_key_permutation. now constructor.
Qed.

Lemma insertion_sort_sorted (l : list (Qc * Z)) :
  StronglySorted (fun a b => fst a <= fst b)
    (fold_right (fun ki acc => insert_key (fst ki) (snd ki) acc) [] l).
Proof.
  induction l as [|[k i] rest IH]; simpl; [constructor|].
  apply insert_key_sorted, IH.
Qed.

Lemma StronglySorted_map {A B : Type} (R : B -> B -> Prop) (g : A -> B)
    (l : list A) :
  StronglySorted (fun a b => R (g a) (g b)) l -> StronglySorted R (map g l).
Proof.
  induction 1 as [|a l Hsorted IH Hall]; simpl; constructor; [exact IH|].
  apply Forall_map. exact Hall.
Qed.

Lemma map_snd_combine {A B : Type} (a : list A) (b : list B) :
  length a = length b -> map snd (combine a b) = b.
Proof.
  revert b. induction a as [|x a IH]; intros [|y b] Hlen; simpl in *;
    try discriminate; [reflexivity|].
  now rewrite IH by lia.
Qed.

(** The indices [np_argsort] returns for the keys of [l] are a
    permutation of the indices of [l] that brings the keys in order. *)
Lemma np_argsort_spec {A : Type} (key : A -> Qc) (l : list A) (d : A) :
  let indices := map Z.to_nat (np_argsort (map key l)) in
  Permutation indices (seq 0 (length l)) /\
  np_argsort (map key l) = map Z.of_nat indices /\
  StronglySorted Qcle (map (fun i => key (nth i l d)) indices).
Proof.
  cbv zeta. unfold np_argsort. rewrite length_map.
  set (pairs := combine (map key l) (map Z.of_nat (seq 0 (length l)))).
  set (sorted := fold_right
                   (fun ki acc => insert_key (fst ki) (snd ki) acc) [] pairs).
  pose proof (insertion_sort_permutation pairs) as Hperm. fold sorted in Hperm.
  pose proof (insertion_sort_sorted pairs) as Hsorted. fold sorted in Hsorted.
  assert (Hpairs : Forall (fun ki => exists i, (i < length l)%nat /\
                                       snd ki = Z.of_nat i /\
                                       fst ki = key (nth i l d)) pairs).
  { unfold pairs. apply Forall_forall. intros [k z] Hin.
    apply (In_nth _ _ (0, 0%Z)) in Hin. destruct Hin as [n [Hn Hnth]].
    rewrite length_combine, !length_map, length_seq, Nat.min_id in Hn.
    rewrite combine_nth in Hnth by (now rewrite !length_map, length_seq).
    inversion Hnth as [[Hk Hz]]. exists n. split; [exact Hn|]. simpl. split.
    - rewrite (nth_indep _ 0%Z (Z.of_nat 0))
        by (now rewrite length_map, length_seq).
      rewrite map_nth, seq_nth by exact Hn. reflexivity.
    - rewrite (nth_indep _ 0 (key d)) by (now rewrite length_map).
      now rewrite map_nth. }
  apply (Permutation_Forall (Permutation_sym Hperm)) in Hpairs.
  split; [|split].
  - replace (seq 0 (length l))
      with (map Z.to_nat (map snd pairs)).
    + apply Permutation_map, Permutation_map, Hperm.
    + unfold pairs. rewrite map_snd_combine
        by (now rewrite !length_map, length_seq).
      rewrite map_map. erewrite map_ext; [apply map_id|].
      intros i. apply Nat2Z.id.
  - rewrite !map_map. apply map_ext_in. intros [k z] Hin.
    rewrite Forall_forall in Hpairs. destruct (Hpairs _ Hin) as [i [_ [Hz _]]].
    simpl in *. subst z. now rewrite Nat2Z.id.
  - rewrite !map_map.
    replace (map (fun ki => key (nth (Z.to_nat (snd ki)) l d)) sorted)
      with (map fst sorted).
    + apply StronglySorted_map. exact Hsorted.
    + apply map_ext_in. intros [k z] Hin.
      rewrite Forall_forall in Hpairs. destruct (Hpairs _ Hin) as [i [_ [Hz Hk]]].
      simpl in *. subst z. now rewrite Nat2Z.id.
Qed.

Lemma take_permutation {A : Type} (arr : list A) (indices : list nat) (d : A) :
  Permutation indices (seq 0 (length arr)) ->
  take arr (map Z.of_nat indices) = inr (map (fun i => nth i arr d) indices).
Proof.
  intros Hperm. rewrite (take_in_range arr _ d).
  - rewrite map_map. f_equal. apply map_ext. intros i. now rewrite Nat2Z.id.
  - apply Forall_forall. intros z Hz. apply in_map_iff in Hz.
    destruct Hz as [i [Hz Hi]]. subst z.
    apply (Permutation_in _ Hperm) in Hi. apply in_seq in Hi. lia.
Qed.

Lemma sort_points_body (function : point -> Qc) (mob : PMobject) :
  same_length mob ->
  exists mob',
    apply_over_attr_arrays
      (fun A arr => take arr (np_argsort (map function (points mob)))) mob
    = Returns mob' /\
    sorted_version function mob mob'.
Proof.
  intros Hlen. unfold same_length in Hlen.
  destruct (np_argsort_spec function (points mob) ORIGIN)
    as [Hperm [Hidx Hsorted]].
  set (indices := map Z.to_nat (np_argsort (map function (points mob)))) in *.
  unfold apply_over_attr_arrays. rewrite Hidx.
  rewrite (take_permutation (points mob) indices ORIGIN Hperm).
  cbn [rgbas set_points].
  rewrite (take_permutation (rgbas mob) indices (mkRgba 0 0 0 0))
    by (rewrite <- Hlen; exact Hperm).
  eexists. split; [reflexivity|].
  unfold sorted_version. cbn [points rgbas set_points set_rgbas].
  split; [now rewrite !length_map|]. split.
  - replace (combine (map (fun i => nth i (points mob) ORIGIN) indices)
               (map (fun i => nth i (rgbas mob) (mkRgba 0 0 0 0)) indices))
      with (map (fun i => nth i (combine (points mob) (rgbas mob))
                            (ORIGIN, mkRgba 0 0 0 0)) indices).
    + apply Permutation_trans
        with (map (fun i => nth i (combine (points mob) (rgbas mob))
                              (ORIGIN, mkRgba 0 0 0 0))
                (seq 0 (length (combine (points mob) (rgbas mob))))).
      * apply Permutation_map.
        rewrite length_combine, <- Hlen, Nat.min_id. exact Hperm.
      * rewrite map_nth_seq. reflexivity.
    + clear Hperm Hidx Hsorted. induction indices as [|i rest IH]; simpl;
        [reflexivity|].
      rewrite IH. f_equal. apply combine_nth. exact Hlen.
  - rewrite map_map. exact Hsorted.
Qed.

(** X5.  On a family that satisfies the invariant, [sort_points] returns,
    and every member then holds the same points as before, each still
    paired with its colour, in ascending order of the key function. *)
Theorem sort_points_sorts_family (function : point -> Qc) (self : PMobject) :
  family_same_length self ->
  exists self',
    sort_points function self = Returns self' /\
    Forall2 (sorted_version function) (get_family self) (get_family self').
Proof.
  intros Hfam. unfold sort_points.
  apply for_family_rel with (P := same_length); [| |exact Hfam].
  - intros a b subs Hab. exact Hab.
  - intros mob Hmob. destruct (has_points mob) eqn:Hpts.
    + apply sort_points_body, Hmob.
    + exists mob. split; [reflexivity|].
      unfold has_points, get_num_points in Hpts. apply Nat.ltb_ge in Hpts.
      unfold sorted_version. split; [exact Hmob|]. split; [reflexivity|].
      destruct (points mob); [constructor|simpl in Hpts; lia].
Qed.

(** *** [filter_out] *)

Lemma filter_idempotent {A : Type} (keep : A -> bool) (l : list A) :
  filter keep (filter keep l) = filter keep l.
Proof.
  induction l as [|x l IH]; simpl; [reflexivity|].
  destruct (keep x) eqn:Hx; simpl; [rewrite Hx, IH|]; auto.
Qed.

Lemma combine_filter_paired {A B : Type} (keep : A -> bool)
    (a : list A) (b : list B) :
  length a = length b ->
  combine (filter keep a)
          (map snd (filter (fun xy => keep (fst xy)) (combine a b)))
  = filter (fun xy => keep (fst xy)) (combine a b).
Proof.
  revert b. induction a as [|x a IH]; intros [|y b] Hlen; simpl in *;
    try discriminate; [reflexivity|].
  destruct (keep x); simpl; rewrite IH by lia; reflexivity.
Qed.

Lemma without_same_length (condition : point -> bool) (m m' : PMobject) :
  same_length m -> arrays m' = without condition m -> same_length m'.
Proof.
  unfold same_length, arrays, without. intros Hlen Harr.
  injection Harr as Hps Hcs. rewrite Hps, Hcs.
  rewrite <- (select_filter (fun p => negb (condition p)) (points m)).
  rewrite <- (select_paired (fun p => negb (condition p)) _ _ Hlen).
  apply select_length_uniform. exact Hlen.
Qed.

Lemma without_idempotent (condition : point -> bool) (m m' : PMobject) :
  same_length m -> arrays m' = without condition m ->
  without condition m' = without condition m.
Proof.
  unfold same_length, arrays, without. intros Hlen Harr.
  injection Harr as Hps Hcs. rewrite Hps, Hcs. f_equal.
  - apply filter_idempotent.
  - rewrite (combine_filter_paired (fun p => negb (condition p)) _ _ Hlen).
    now rewrite (filter_idempotent (fun pc => negb (condition (fst pc)))).
Qed.

(** X6.  On a family that satisfies the invariant, [filter_out] returns and
    leaves no point for which the condition holds in any member, the
    invariant still holding; filtering the result again with the same
    condition returns and changes no array. *)
Theorem filter_out_idempotent (condition : point -> bool) (self : PMobject) :
  family_same_length self ->
  exists self' self'',
    filter_out condition self = Returns self' /\
    family_same_length self' /\
    Forall (fun m => Forall (fun p => condition p = false) (points m))
           (get_family self') /\
    filter_out condition self' = Returns self'' /\
    map arrays (get_family self'') = map arrays (get_family self').
Proof.
  intros Hfam.
  destruct (filter_out_family condition self Hfam) as [self' [Hcall Harr]].
  assert (Hrel : Forall2 (fun m m' => same_length m /\
                                      arrays m' = without condition m)
                   (get_family self) (get_family self')).
  { unfold family_same_length in Hfam. revert Hfam Harr.
    generalize (get_family self) as l, (get_family self') as l'.
    induction l as [|m l IH]; intros [|m' l'] Hall Heq; simpl in Heq;
      try discriminate; constructor.
    - inversion Hall as [|? ? Hm Hl]; subst.
      split; [assumption|congruence].
    - inversion Hall as [|? ? Hm Hl]; subst.
      apply IH; [assumption|congruence]. }
  assert (Hfam' : family_same_length self').
  { unfold family_same_length. clear Harr Hcall.
    induction Hrel as [|m m' l l' [Hm Hm'] _ IH]; constructor;
      [eapply without_same_length; eassumption | exact IH]. }
  destruct (filter_out_family condition self' Hfam') as [self'' [Hcall' Harr']].
  exists self', self''. split; [exact Hcall|]. split; [exact Hfam'|].
  split; [|split; [exact Hcall'|]].
  - clear Harr Hcall Harr' Hcall' Hfam'.
    induction Hrel as [|m m' l l' [Hm Hm'] _ IH]; constructor; [|exact IH].
    unfold arrays, without in Hm'. injection Hm' as Hps Hcs. rewrite Hps.
    apply Forall_forall. intros p Hp. apply filter_In in Hp.
    destruct Hp as [_ Hp]. now apply negb_true_iff in Hp.
  - rewrite Harr'. clear Harr Hcall Harr' Hcall' Hfam'.
    induction Hrel as [|m m' l l' [Hm Hm'] _ IH]; simpl; [reflexivity|].
    rewrite IH. f_equal.
    rewrite (without_idempotent condition m m' Hm Hm'). now symmetry.
Qed.

(** *** [add_points] *)

(** X7.  Two calls of [add_points] in a row amount to one call with the
    points, and the colours, joined: without [rgbas] for the same colour
    argument and alpha, and with [rgbas] when each has the length of its
    points. *)
Theorem add_points_twice
    (points1 points2 : list point) (new_color : option colour) (alpha : Qc)
    (self : PMobject) :
  and_then (add_points points1 None new_color alpha self)
           (add_points points2 None new_color alpha)
  = add_points (points1 ++ points2) None new_color alpha self /\
  (forall rgbas1 rgbas2 : list rgba,
      length rgbas1 = length points1 ->
      length rgbas2 = length points2 ->
      and_then (add_points points1 (Some rgbas1) new_color alpha self)
               (add_points points2 (Some rgbas2) new_color alpha)
      = add_points (points1 ++ points2) (Some (rgbas1 ++ rgbas2))
          new_color alpha self).
Proof.
  split.
  - unfold add_points. simpl.
    rewrite length_app, repeat_app, <- !app_assoc. reflexivity.
  - intros rgbas1 rgbas2 H1 H2. unfold add_points.
    assert (H12 : length (rgbas1 ++ rgbas2) = length (points1 ++ points2))
      by (rewrite !length_app; lia).
    apply Nat.eqb_eq in H1, H2, H12. rewrite H1. simpl. rewrite H2, H12. simpl.
    rewrite <- !app_assoc. reflexivity.
Qed.

(** *** [ingest_submobjects] *)

Lemma get_merged_array_family {A : Type} (attr : PMobject -> list A)
    (m : PMobject) :
  get_merged_array attr m = flat_map attr (get_family m).
Proof.
  induction m as [ps cs c w subs IH] using PMobject_tree_ind.
  rewrite get_merged_array_unfold, get_family_unfold. cbn [submobjects flat_map].
  f_equal. induction subs as [|x rest IHrest]; simpl; [reflexivity|].
  inversion IH as [|? ? Hx Hrest]; subst.
  rewrite flat_map_app, Hx, (IHrest Hrest). reflexivity.
Qed.

(** X8.  [ingest_submobjects] always returns a node without children
    whose arrays are those of the former family joined in family order:
    all the points and all the colours are kept, and ingesting again
    changes nothing. *)
Theorem ingest_submobjects_flattens (self : PMobject) :
  exists self',
    ingest_submobjects self = Returns self' /\
    get_family self' = [self'] /\
    points self' = flat_map points (get_family self) /\
    rgbas self' = flat_map rgbas (get_family self) /\
    get_all_rgbas self' = get_all_rgbas self /\
    ingest_submobjects self' = Returns self'.
Proof.
  eexists. split; [reflexivity|].
  split; [reflexivity|].
  split; [apply get_merged_array_family|].
  split; [apply get_merged_array_family|].
  split.
  - unfold get_all_rgbas. rewrite get_merged_array_unfold. simpl.
    apply app_nil_r.
  - unfold ingest_submobjects. rewrite !get_merged_array_unfold. simpl.
    rewrite !app_nil_r. reflexivity.
Qed.

(** *** [pointwise_become_partial] *)

Lemma firstn_app_skipn {A : Type} (x y : nat) (l : list A) :
  firstn x l ++ firstn y (skipn x l) = firstn (x + y) l.
Proof.
  revert l. induction x as [|x IH]; intros l; simpl; [reflexivity|].
  destruct l as [|a l]; simpl; [now rewrite firstn_nil|].
  now rewrite IH.
Qed.

Lemma py_slice_append {A : Type} (arr : list A) (i j k : Z) :
  (0 <= i <= j)%Z -> (j <= k)%Z ->
  py_slice arr i j ++ py_slice arr j k = py_slice arr i k.
Proof.
  intros Hij Hjk. unfold py_slice, clip_index.
  set (n := Z.of_nat (length arr)).
  destruct (i <? 0)%Z eqn:Hi; [apply Z.ltb_lt in Hi; lia|].
  destruct (j <? 0)%Z eqn:Hj; [apply Z.ltb_lt in Hj; lia|].
  destruct (k <? 0)%Z eqn:Hk; [apply Z.ltb_lt in Hk; lia|].
  replace (Z.to_nat (Z.min j n)) with
    (Z.to_nat (Z.min j n - Z.min i n) + Z.to_nat (Z.min i n))%nat by lia.
  rewrite <- skipn_skipn.
  rewrite firstn_app_skipn. f_equal. lia.
Qed.

Lemma py_slice_all {A : Type} (arr : list A) :
  py_slice arr 0 (Z.of_nat (length arr)) = arr.
Proof.
  unfold py_slice, clip_index.
  change (0 <? 0)%Z with false. cbv iota.
  destruct (Z.of_nat (length arr) <? 0)%Z eqn:Hneg;
    [apply Z.ltb_lt in Hneg; lia|].
  rewrite Z.min_id.
  replace (Z.min 0 (Z.of_nat (length arr))) with 0%Z by lia.
  change (Z.to_nat 0) with 0%nat. cbn [skipn].
  replace (Z.to_nat (Z.of_nat (length arr) - 0)) with (length arr) by lia.
  apply firstn_all.
Qed.

Lemma py_int_nonneg (x : Qc) :
  0 <= x -> py_int x = Qfloor x /\ (0 <= Qfloor x)%Z.
Proof.
  intros Hx. unfold py_int.
  destruct (Qc_ltb x 0) eqn:Hlt.
  - apply Qc_ltb_true_lt in Hlt. exfalso. apply (Qcle_not_lt _ _ Hx Hlt).
  - split; [reflexivity|].
    change 0%Z with (Qfloor 0). apply Qfloor_resp_le. exact Hx.
Qed.

Lemma py_int_monotone (x y : Qc) :
  0 <= x -> x <= y -> (0 <= py_int x <= py_int y)%Z.
Proof.
  intros Hx Hxy.
  destruct (py_int_nonneg x Hx) as [Ex Hfx].
  destruct (py_int_nonneg y (Qcle_trans _ _ _ Hx Hxy)) as [Ey _].
  rewrite Ex, Ey. split; [exact Hfx|]. apply Qfloor_resp_le. exact Hxy.
Qed.

Lemma py_int_of_nat (n : nat) : py_int (1 * Qc_of_nat n) = Z.of_nat n.
Proof.
  replace (1 * Qc_of_nat n) with (Qc_of_nat n) by ring.
  destruct (py_int_nonneg _ (Qc_of_nat_nonneg n)) as [E _]. rewrite E.
  unfold Qc_of_nat, Qc_of_Z. cbn [this Q2Qc].
  rewrite (Qfloor_comp _ _ (Qred_correct _)). apply Qfloor_Z.
Qed.

Lemma py_int_zero (x : Qc) : py_int (0 * x) = 0%Z.
Proof. replace (0 * x) with 0 by ring. reflexivity. Qed.

(** X9.  The slices [pointwise_become_partial] takes of a mobject fit
    together: for [0 <= a <= b <= c], the arrays it gives for [a, b]
    followed by those for [b, c] are those for [a, c]; for [0, 1] they are
    all the points of the mobject and, when it has as many colours, all
    its colours. *)
Theorem pointwise_become_partial_slices
    (mobject self : PMobject) (a b c : Qc) :
  0 <= a -> a <= b -> b <= c ->
  let part x y := final_state (pointwise_become_partial mobject x y self) in
  points (part a b) ++ points (part b c) = points (part a c) /\
  rgbas (part a b) ++ rgbas (part b c) = rgbas (part a c) /\
  points (part 0 1) = points mobject /\
  (same_length mobject -> rgbas (part 0 1) = rgbas mobject).
Proof.
  intros Ha Hab Hbc. cbv zeta. unfold pointwise_become_partial.
  cbn [final_state points rgbas set_points set_rgbas].
  set (n := Qc_of_nat (get_num_points mobject)).
  assert (Hn : 0 <= n) by apply Qc_of_nat_nonneg.
  assert (Han : 0 <= a * n).
  { replace 0 with (0 * n) by ring. apply Qcmult_le_compat_r; assumption. }
  assert (Habn : a * n <= b * n) by (apply Qcmult_le_compat_r; assumption).
  assert (Hbcn : b * n <= c * n) by (apply Qcmult_le_compat_r; assumption).
  pose proof (py_int_monotone _ _ Han Habn) as [Hlo Hmid].
  pose proof (py_int_monotone _ _ (Qcle_trans _ _ _ Han Habn) Hbcn) as [_ Hhi].
  split; [apply py_slice_append; lia|].
  split; [apply py_slice_append; lia|].
  unfold n. rewrite py_int_zero, py_int_of_nat. unfold get_num_points.
  split; [apply py_slice_all|].
  intros Hlen. unfold same_length in Hlen. rewrite Hlen. apply py_slice_all.
Qed.

(** *** [fade_to] *)

(** X10.  [fade_to] always returns and reaches the whole family: every
    member, at any depth and with or without points, has each of its
    colours interpolated towards the RGBA of the colour, and keeps its
    points, base colour and stroke width. *)
Theorem fade_to_reaches_family (c : colour) (alpha : Qc) (self : PMobject) :
  exists self',
    fade_to c alpha self = Returns self' /\
    map node_attrs (get_family self') =
    map (fun m => (points m,
                   map (fun x => interpolate x (color_to_rgba c 1) alpha)
                       (rgbas m),
                   color m, stroke_width m))
        (get_family self).
Proof.
  set (g := fun m : PMobject =>
              (points m,
               map (fun x => interpolate x (color_to_rgba c 1) alpha) (rgbas m),
               color m, stroke_width m)).
  assert (Hrel : exists self',
             fade_to c alpha self = Returns self' /\
             Forall2 (fun a b => node_attrs b = g a)
               (get_family self) (get_family self')).
  { induction self as [ps cs col w subs IH] using PMobject_tree_ind.
    destruct (for_each_rel (fade_to c alpha) (fun _ => True) get_family
                (fun a b => node_attrs b = g a) subs)
      as [subs' [Hloop Hfams]].
    - eapply Forall_impl; [|exact IH]. intros m Hm _. exact Hm.
    - apply Forall_True.
    - rewrite fade_to_unfold. cbv zeta. cbn [submobjects]. rewrite Hloop.
      eexists. split; [reflexivity|].
      rewrite (get_family_unfold (mkPMobject ps cs col w subs)).
      rewrite (get_family_unfold (set_submobjects _ subs')).
      cbn [submobjects set_submobjects].
      constructor; [reflexivity|exact Hfams]. }
  destruct Hrel as [self' [Hcall Hrel]]. exists self'.
  split; [exact Hcall|]. apply Forall2_map_eq, Hrel.
Qed.

(** *** [add_line]: the number of points and their colours *)

(** X11.  A degenerate segment (of length 0) gives [add_line] one point,
    its start.  A segment of positive length, of at most [2^52] steps of
    a positive [epsilon], gives as many points as
    [np.arange(0, 1, step)] has entries, for the float64 quotient [step]
    of [epsilon] by the length.  Each point gets the RGBA at alpha 1 of
    the colour given or else of the base colour. *)
Theorem add_line_sample_count
    (start end_ : point) (c : option colour) (self : Mobject1D) :
  let len := get_norm (point_sub64 end_ start) in
  let rgba_of_line :=
    color_to_rgba (match c with
                   | Some c => Color c
                   | None => color (pmobject self)
                   end) 1 in
  (len = 0 ->
   exists self',
     add_line start end_ c self = Returns self' /\
     points (pmobject self') = points (pmobject self) ++ [start] /\
     rgbas (pmobject self') = rgbas (pmobject self) ++ [rgba_of_line]) /\
  (0 < epsilon self -> 0 < len -> len <= pow2 52 * epsilon self ->
   exists (count : nat) (self' : Mobject1D),
     arange_length64 1 (round64 (epsilon self / len)) = inr count /\
     add_line start end_ c self = Returns self' /\
     length (points (pmobject self')) =
       (length (points (pmobject self)) + count)%nat /\
     rgbas (pmobject self') =
       rgbas (pmobject self) ++ repeat rgba_of_line count).
Proof.
  cbv zeta. split.
  - intros Hzero. unfold add_line. rewrite Hzero.
    assert (Hz : Qc_eqb 0 0 = true) by (apply Qc_eqb_eq; reflexivity).
    rewrite Hz. eexists. split; [reflexivity|]. split; reflexivity.
  - intros Heps Hlength Hmax.
    destruct (add_line_positive_length start end_ c self Heps Hlength Hmax)
      as [count [Hlen [_ [_ [_ Hcall]]]]].
    exists count. eexists. split; [exact Hlen|].
    split; [rewrite Hcall; reflexivity|].
    cbn [pmobject points rgbas set_points set_rgbas].
    rewrite length_app, !length_map, length_seq.
    split; reflexivity.
Qed.

(** *** [generate_points] *)







(** *** [point_from_proportion] and [get_color] at the ends *)

Lemma index_at_empty {A : Type} (i : Z) : index_at (@nil A) i = inl IndexError.
Proof.
  unfold index_at. simpl length.
  destruct (i <? 0)%Z eqn:Hneg.
  - apply Z.ltb_lt in Hneg.
    replace ((0 <=? i + Z.of_nat 0)%Z && (i + Z.of_nat 0 <? Z.of_nat 0)%Z)
      with false; [reflexivity|].
    symmetry. apply andb_false_iff. left. apply Z.leb_gt. lia.
  - apply Z.ltb_ge in Hneg.
    replace ((0 <=? i)%Z && (i <? Z.of_nat 0)%Z) with false; [reflexivity|].
    symmetry. apply andb_false_iff. right. apply Z.ltb_ge. lia.
Qed.

(** X14.  With an int for the proportion, [point_from_proportion] returns
    the first point of a cloud for 0 and its last point for 1; on a cloud
    without points it raises IndexError whatever the proportion. *)
Theorem point_from_proportion_int_ends (self : PMobject) :
  (points self = [] ->
   forall alpha, point_from_proportion alpha self = inl IndexError) /\
  (forall p, hd_error (points self) = Some p ->
             point_from_proportion (PyInt 0) self = inr p) /\
  (points self <> [] ->
   point_from_proportion (PyInt 1) self = inr (last (points self) ORIGIN)).
Proof.
  unfold point_from_proportion, get_num_points. split; [|split].
  - intros Hempty alpha. rewrite Hempty.
    destruct alpha as [z|q]; simpl; [apply index_at_empty|reflexivity].
  - intros p Hp. destruct (points self) as [|q ps]; [discriminate|].
    inversion Hp; subst q. reflexivity.
  - intros Hne. destruct (exists_last Hne) as [front [p Hps]].
    rewrite Hps. cbn [pynum_mul_int getitem].
    assert (Hlen : length (front ++ [p]) = S (length front))
      by (rewrite length_app; simpl; lia).
    rewrite (index_at_in_range _ _ ORIGIN) by (rewrite Hlen; lia).
    rewrite last_last, Hlen.
    replace (Z.to_nat (1 * (Z.of_nat (S (length front)) - 1)))
      with (length front) by lia.
    now rewrite nth_middle.
Qed.

(** X15.  On a node without points and without colours [set_color]
    returns without creating any colour, so that [get_color] still raises
    IndexError afterwards, as it does on every node without colours. *)
Theorem get_color_of_empty_cloud (c : colour) (family : bool) (self : PMobject) :
  rgbas self = [] ->
  get_color self = inl IndexError /\
  (points self = [] ->
   exists self',
     set_color c family self = Returns self' /\
     get_color self' = inl IndexError).
Proof.
  intros Hcs. unfold get_color. split.
  - rewrite Hcs. reflexivity.
  - intros Hps. unfold set_color. destruct family.
    + pose proof (for_family_returns
                    (fun mob => Returns (fill_rgbas (color_to_rgba c 1) mob))
                    (fun _ => eq_refl) self) as Hret.
      destruct (for_family _ self) as [s|e s] eqn:Hcall; [|discriminate].
      apply for_family_root in Hcall.
      destruct Hcall as [m' [Hm' [_ [Hrg _]]]].
      unfold has_points, get_num_points in Hm'. rewrite Hps in Hm'.
      simpl in Hm'. inversion Hm'; subst m'.
      simpl. eexists. split; [reflexivity|].
      cbn [rgbas set_color_attr]. rewrite Hrg, Hcs. reflexivity.
    + simpl. eexists. split; [reflexivity|].
      cbn [rgbas set_color_attr fill_rgbas set_rgbas]. rewrite Hcs. reflexivity.
Qed.

(** *** [from_pmobs] *)

(** X16.  When [from_pmobs] returns a group, the group has no points of
    its own and exactly the given members as children, all of them and in
    their order, and every member after the first is a [PMobject]; it
    does return for every non-empty list of [PMobject]s. *)
Theorem from_pmobs_attaches_all_or_nothing
    (pmobs : list pyobject) (c : colour) (w : Qc) :
  (forall group,
      from_pmobs pmobs c w = inr group ->
      group_node group = mkPMobject [] [] c w [] /\
      group_submobjects group = pmobs /\
      pmobs <> [] /\
      forallb isinstance_PMobject (tl pmobs) = true) /\
  (pmobs <> [] ->
   forallb isinstance_PMobject pmobs = true ->
   from_pmobs pmobs c w = inr (mkPGroup (mkPMobject [] [] c w []) pmobs)).
Proof.
  unfold from_pmobs, check_pmobs. split.
  - intros group Hcall. destruct pmobs as [|first others]; [discriminate|].
    cbn [tl]. destruct (forallb isinstance_PMobject others); [|discriminate].
    simpl in Hcall. inversion Hcall; subst group.
    repeat split. discriminate.
  - intros Hne Hall. destruct pmobs as [|first others]; [contradiction|].
    simpl in Hall. apply andb_true_iff in Hall. destruct Hall as [_ Hothers].
    rewrite Hothers. reflexivity.
Qed.

End Further.

(** ** The further properties on concrete clouds *)

Lemma set_color_fills_family_witness :
  family_same_length family35 /\
  exists self',
    set_color YELLOW true family35 = Returns self' /\
    color self' = YELLOW /\
    map arrays (get_family self') =
    map (fun m => (points m, repeat (color_to_rgba YELLOW 1) (length (points m))))
        (get_family family35).
Proof.
  assert (Hfam : family_same_length family35) by (repeat constructor).
  split; [exact Hfam|].
  exact (set_color_fills_family YELLOW family35 Hfam).
Defined.

Lemma set_color_get_color_witness :
  same_length cloud3 /\
  has_points cloud3 = true /\
  exists self',
    set_color YELLOW true cloud3 = Returns self' /\
    get_color self' = inr (rgba_to_color (color_to_rgba YELLOW 1)).
Proof.
  assert (Hlen : same_length cloud3) by reflexivity.
  assert (Hpts : has_points cloud3 = true) by reflexivity.
  split; [exact Hlen|]. split; [exact Hpts|].
  exact (set_color_get_color YELLOW true cloud3 Hlen Hpts).
Defined.

Lemma sort_points_sorts_family_witness :
  family_same_length family35 /\
  exists self',
    sort_points (fun p => px p) family35 = Returns self' /\
    Forall2 (sorted_version (fun p => px p))
      (get_family family35) (get_family self').
Proof.
  assert (Hfam : family_same_length family35) by (repeat constructor).
  split; [exact Hfam|].
  exact (sort_points_sorts_family (fun p => px p) family35 Hfam).
Defined.

Lemma thin_out_every_nth_of_self_witness :
  (0 < 2)%nat /\
  same_length cloud5 /\
  submobjects cloud5 = [] /\
  (let self' := final_state (thin_out (Z.of_nat 2) cloud5) in
   let count := ((get_num_points cloud5 + 2 - 1) / 2)%nat in
   length (points self') = count /\
   length (rgbas self') = count /\
   (forall i, (i < count)%nat ->
      nth_error (points self') i = nth_error (points cloud5) (i * 2) /\
      nth_error (rgbas self') i = nth_error (rgbas cloud5) (i * 2))) /\
  returns (thin_out (Z.of_nat 2) cloud5) = true.
Proof.
  assert (Hf : (0 < 2)%nat) by lia.
  assert (Hlen : same_length cloud5) by reflexivity.
  assert (Hsubs : submobjects cloud5 = []) by reflexivity.
  pose proof (thin_out_every_nth_of_self 2 cloud5 Hf Hlen) as Hthin.
  cbv zeta in Hthin. destruct Hthin as [Hps [Hcs [Hnth Hret]]].
  split; [exact Hf|]. split; [exact Hlen|]. split; [exact Hsubs|].
  split; [cbv zeta; repeat split; solve [exact Hps | exact Hcs | apply Hnth; assumption]|].
  exact (Hret Hsubs).
Defined.

Lemma filter_out_idempotent_witness :
  family_same_length family35 /\
  exists self' self'',
    filter_out (x_below (Q2Qc (3 # 2))) family35 = Returns self' /\
    family_same_length self' /\
    Forall (fun m => Forall (fun p => x_below (Q2Qc (3 # 2)) p = false)
                       (points m))
           (get_family self') /\
    filter_out (x_below (Q2Qc (3 # 2))) self' = Returns self'' /\
    map arrays (get_family self'') = map arrays (get_family self').
Proof.
  assert (Hfam : family_same_length family35) by (repeat constructor).
  split; [exact Hfam|].
  exact (filter_out_idempotent (x_below (Q2Qc (3 # 2))) family35 Hfam).
Defined.

Lemma add_points_twice_witness :
  length [opaque BLACK] = length [pt 7] /\
  length [opaque WHITE; opaque YELLOW] = length [pt 8; pt 9] /\
  and_then (add_points [pt 7] (Some [opaque BLACK]) None 1 cloud3)
           (add_points [pt 8; pt 9] (Some [opaque WHITE; opaque YELLOW]) None 1)
  = add_points ([pt 7] ++ [pt 8; pt 9])
      (Some ([opaque BLACK] ++ [opaque WHITE; opaque YELLOW])) None 1 cloud3.
Proof.
  assert (H1 : length [opaque BLACK] = length [pt 7]) by reflexivity.
  assert (H2 : length [opaque WHITE; opaque YELLOW] = length [pt 8; pt 9])
    by reflexivity.
  split; [exact H1|]. split; [exact H2|].
  exact (proj2 (add_points_twice [pt 7] [pt 8; pt 9] None 1 cloud3) _ _ H1 H2).
Defined.

Lemma pointwise_become_partial_slices_witness :
  0 <= 0 /\ 0 <= Q2Qc (1 # 2) /\ Q2Qc (1 # 2) <= 1 /\
  same_length cloud5 /\
  (let part x y := final_state (pointwise_become_partial cloud5 x y cloud3) in
   points (part 0 (Q2Qc (1 # 2))) ++ points (part (Q2Qc (1 # 2)) 1)
     = points (part 0 1) /\
   rgbas (part 0 (Q2Qc (1 # 2))) ++ rgbas (part (Q2Qc (1 # 2)) 1)
     = rgbas (part 0 1) /\
   points (part 0 1) = points cloud5 /\
   rgbas (part 0 1) = rgbas cloud5).
Proof.
  assert (Ha : 0 <= 0) by (apply Qcle_refl).
  assert (Hab : 0 <= Q2Qc (1 # 2)) by (vm_compute; discriminate).
  assert (Hbc : Q2Qc (1 # 2) <= 1) by (vm_compute; discriminate).
  assert (Hlen : same_length cloud5) by reflexivity.
  pose proof (pointwise_become_partial_slices cloud5 cloud3 0 (Q2Qc (1 # 2)) 1
                Ha Hab Hbc) as Hparts.
  cbv zeta in Hparts. destruct Hparts as [Hps [Hcs [Hall Hallc]]].
  split; [exact Ha|]. split; [exact Hab|]. split; [exact Hbc|].
  split; [exact Hlen|].
  cbv zeta. split; [exact Hps|]. split; [exact Hcs|]. split; [exact Hall|].
  exact (Hallc Hlen).
Defined.

Lemma add_line_sample_count_witness :
  get_norm (point_sub64 (pt 1) (pt 1)) = 0 /\
  (exists self',
      add_line (pt 1) (pt 1) None line2 = Returns self' /\
      points (pmobject self') = points (pmobject line2) ++ [pt 1] /\
      rgbas (pmobject self') =
        rgbas (pmobject line2) ++ [color_to_rgba (color (pmobject line2)) 1]) /\
  0 < epsilon line2 /\
  0 < get_norm (point_sub64 (mkPoint (Q2Qc 3) (Q2Qc 4) 0) (pt 0)) /\
  get_norm (point_sub64 (mkPoint (Q2Qc 3) (Q2Qc 4) 0) (pt 0))
    <= pow2 52 * epsilon line2 /\
  (exists (count : nat) (self' : Mobject1D),
      arange_length64 1
        (round64 (epsilon line2 /
                  get_norm (point_sub64 (mkPoint (Q2Qc 3) (Q2Qc 4) 0) (pt 0))))
        = inr count /\
      add_line (pt 0) (mkPoint (Q2Qc 3) (Q2Qc 4) 0) None line2 = Returns self' /\
      length (points (pmobject self')) =
        (length (points (pmobject line2)) + count)%nat /\
      rgbas (pmobject self') =
        rgbas (pmobject line2) ++
        repeat (color_to_rgba (color (pmobject line2)) 1) count).
Proof.
  assert (Hzero : get_norm (point_sub64 (pt 1) (pt 1)) = 0)
    by (apply Qc_is_canon; vm_compute; reflexivity).
  assert (Heps : 0 < epsilon line2) by reflexivity.
  assert (Hlen : 0 < get_norm (point_sub64 (mkPoint (Q2Qc 3) (Q2Qc 4) 0) (pt 0)))
    by (vm_compute; reflexivity).
  assert (Hmax : get_norm (point_sub64 (mkPoint (Q2Qc 3) (Q2Qc 4) 0) (pt 0))
                 <= pow2 52 * epsilon line2)
    by (vm_compute; discriminate).
  split; [exact Hzero|].
  split; [exact (proj1 (add_line_sample_count (pt 1) (pt 1) None line2) Hzero)|].
  split; [exact Heps|]. split; [exact Hlen|]. split; [exact Hmax|].
  exact (proj2 (add_line_sample_count (pt 0) (mkPoint (Q2Qc 3) (Q2Qc 4) 0)
                  None line2) Heps Hlen Hmax).
Defined.


Lemma point_from_proportion_int_ends_witness :
  points empty_cloud = [] /\
  (forall alpha, point_from_proportion alpha empty_cloud = inl IndexError) /\
  hd_error (points cloud5) = Some (pt 0) /\
  point_from_proportion (PyInt 0) cloud5 = inr (pt 0) /\
  points cloud5 <> [] /\
  point_from_proportion (PyInt 1) cloud5 = inr (last (points cloud5) ORIGIN).
Proof.
  assert (Hempty : points empty_cloud = []) by reflexivity.
  assert (Hhd : hd_error (points cloud5) = Some (pt 0)) by reflexivity.
  assert (Hne : points cloud5 <> []) by discriminate.
  split; [exact Hempty|].
  split; [exact (proj1 (point_from_proportion_int_ends empty_cloud) Hempty)|].
  split; [exact Hhd|].
  split; [exact (proj1 (proj2 (point_from_proportion_int_ends cloud5)) _ Hhd)|].
  split; [exact Hne|].
  exact (proj2 (proj2 (point_from_proportion_int_ends cloud5)) Hne).
Defined.

Lemma get_color_of_empty_cloud_witness :
  rgbas empty_cloud = [] /\
  points empty_cloud = [] /\
  get_color empty_cloud = inl IndexError /\
  exists self',
    set_color YELLOW true empty_cloud = Returns self' /\
    get_color self' = inl IndexError.
Proof.
  assert (Hcs : rgbas empty_cloud = []) by reflexivity.
  assert (Hps : points empty_cloud = []) by reflexivity.
  split; [exact Hcs|]. split; [exact Hps|].
  split; [exact (proj1 (get_color_of_empty_cloud YELLOW true empty_cloud Hcs))|].
  exact (proj2 (get_color_of_empty_cloud YELLOW true empty_cloud Hcs) Hps).
Defined.

Lemma from_pmobs_attaches_all_or_nothing_witness :
  [PMobj cloud3; PMobj cloud5] <> [] /\
  forallb isinstance_PMobject [PMobj cloud3; PMobj cloud5] = true /\
  from_pmobs [PMobj cloud3; PMobj cloud5] WHITE 1
  = inr (mkPGroup (mkPMobject [] [] WHITE 1 []) [PMobj cloud3; PMobj cloud5]) /\
  group_submobjects
    (mkPGroup (mkPMobject [] [] WHITE 1 []) [PMobj cloud3; PMobj cloud5])
  = [PMobj cloud3; PMobj cloud5].
Proof.
  assert (Hne : [PMobj cloud3; PMobj cloud5] <> []) by discriminate.
  assert (Hall : forallb isinstance_PMobject [PMobj cloud3; PMobj cloud5] = true)
    by reflexivity.
  pose proof (proj2 (from_pmobs_attaches_all_or_nothing
                       [PMobj cloud3; PMobj cloud5] WHITE 1) Hne Hall) as Hcall.
  split; [exact Hne|]. split; [exact Hall|]. split; [exact Hcall|].
  exact (proj1 (proj2 (proj1 (from_pmobs_attaches_all_or_nothing
                                [PMobj cloud3; PMobj cloud5] WHITE 1) _ Hcall))).
Defined.
